(** * NotionKeeper: resource tree, content codec and identity extraction

    A shallow embedding of the core of the NotionKeeper converter
    (src/src/models.py, notion_parser.py, legendkeeper_parser.py,
    legendkeeper_exporter.py) together with the properties its
    specification states about it.

    Conventions.
    - A Python [str] is a list of characters.  Characters are the code
      points below 256 (type [ascii]); [isspace], [lower] and the regex
      classes are the ones Python uses on that range.
    - Python objects that are mutated and shared (the [Resource]s) live in
      an explicit heap; a reference is an index into it.
    - Values read from a JSON document are of type [json]; an operation
      that raises in Python yields [Raise]. *)

From Stdlib Require Import Ascii String ZArith QArith.QArith_base Lia Sorted.
From stdpp Require Import base tactics option list relations.

Open Scope list_scope.
#[global] Set Warnings "-register-all".


(** ** Python strings *)

Module PyStr.

Abbreviation pystr := (list ascii) (only parsing).

(** String literals. *)
Definition str (s : string) : pystr := list_ascii_of_string s.

Definition nl : ascii := "010"%char.

Definition code (c : ascii) : nat := nat_of_ascii c.

Definition in_range (lo hi : nat) (c : ascii) : bool :=
  (lo <=? code c) && (code c <=? hi).

(** [str.isspace] on one character: TAB..CR, FS..US, SPACE, NEL, NBSP. *)
Definition isspace (c : ascii) : bool :=
  in_range 9 13 c || in_range 28 32 c
  || Nat.eqb (code c) 133 || Nat.eqb (code c) 160.

Definition ch_eqb (a b : ascii) : bool := Ascii.eqb a b.

#[export] Instance ascii_eq_decision : EqDecision ascii := ascii_dec.

Fixpoint str_eqb (a b : pystr) : bool :=
  match a, b with
  | [], [] => true
  | x :: a', y :: b' => ch_eqb x y && str_eqb a' b'
  | _, _ => false
  end.

(** [s.startswith(p)] *)
Fixpoint startswith (p s : pystr) : bool :=
  match p, s with
  | [], _ => true
  | x :: p', y :: s' => ch_eqb x y && startswith p' s'
  | _ :: _, [] => false
  end.

(** [s.lstrip()] *)
Fixpoint lstrip (s : pystr) : pystr :=
  match s with
  | [] => []
  | c :: s' => if isspace c then lstrip s' else s
  end.

(** [s.rstrip()] *)
Fixpoint rstrip (s : pystr) : pystr :=
  match s with
  | [] => []
  | c :: s' =>
      match rstrip s' with
      | [] => if isspace c then [] else [c]
      | r => c :: r
      end
  end.

(** [s.strip()] *)
Definition strip (s : pystr) : pystr := rstrip (lstrip s).

(** [s.lstrip(ch)] for a one-character argument. *)
Fixpoint lstrip_char (ch : ascii) (s : pystr) : pystr :=
  match s with
  | [] => []
  | c :: s' => if ch_eqb c ch then lstrip_char ch s' else s
  end.

(** [s.split("\n")]: never empty, one more piece than there are line feeds. *)
Fixpoint split_nl (s : pystr) : list pystr :=
  match s with
  | [] => [[]]
  | c :: s' =>
      if ch_eqb c nl then [] :: split_nl s'
      else match split_nl s' with
           | [] => [[c]]
           | l :: ls => (c :: l) :: ls
           end
  end.

(** [sep.join(parts)] *)
Fixpoint join (sep : pystr) (parts : list pystr) : pystr :=
  match parts with
  | [] => []
  | [p] => p
  | p :: ps => p ++ sep ++ join sep ps
  end.

(** [str.lower] on one character: A-Z and the Latin-1 capitals
    (192..222 without the multiplication sign 215) move up by 32. *)
Definition lower_char (c : ascii) : ascii :=
  if in_range 65 90 c || (in_range 192 222 c && negb (Nat.eqb (code c) 215))
  then ascii_of_nat (code c + 32) else c.

Definition lower (s : pystr) : pystr := map lower_char s.

(** [s.replace(a, b)] for one-character [a] and [b]. *)
Definition replace_char (a b : ascii) (s : pystr) : pystr :=
  map (fun c => if ch_eqb c a then b else c) s.

(** [ch * n] *)
Definition repeat_char (c : ascii) (n : nat) : pystr := repeat c n.

(** Truth value of a string: non-empty. *)
Definition nonempty (s : pystr) : bool :=
  match s with [] => false | _ => true end.

(** [a <= b] on strings: the order of the code points, position by
    position. *)
Fixpoint str_leb (a b : pystr) : bool :=
  match a, b with
  | [], _ => true
  | _ :: _, [] => false
  | x :: a', y :: b' =>
      if code x <? code y then true
      else if code y <? code x then false
      else str_leb a' b'
  end.

(** [sorted(l)] for a list of strings. *)
Fixpoint insert_sorted (x : pystr) (l : list pystr) : list pystr :=
  match l with
  | [] => [x]
  | y :: l' => if str_leb x y then x :: l else y :: insert_sorted x l'
  end.

Definition sorted (l : list pystr) : list pystr := fold_right insert_sorted [] l.

End PyStr.
Export PyStr.

(** ** The fragment of Python's [re] the sources use

    Every pattern in the sources is a sequence of character classes, each
    with a quantifier, optionally ending in [$]; groups enclose one or
    several consecutive items.  The matcher backtracks in Python's order:
    a greedy item tries the longest repetition first, a lazy one the
    shortest, and the first success is the match. *)

Module Re.

Inductive quant :=
| Times (n : nat)      (* exactly n: a plain item is [Times 1], [{32}] is [Times 32] *)
| Greedy (min : nat)   (* [+] is [Greedy 1], [*] is [Greedy 0] *)
| Lazy (min : nat).    (* [+?] is [Lazy 1], [*?] is [Lazy 0] *)

Record item := Item {
  cls : ascii -> bool;
  qnt : quant;
  grp : nat              (* 0: outside any group; k: inside group k *)
}.

Record pattern := Pattern {
  items : list item;
  dollar : bool          (* the pattern ends in [$] *)
}.

(** [.] matches anything but a line feed. *)
Definition dot (c : ascii) : bool := negb (ch_eqb c nl).
Definition lit (x : ascii) (c : ascii) : bool := ch_eqb c x.
Definition ws (c : ascii) : bool := isspace c.
Definition upper_az (c : ascii) : bool := in_range 65 90 c.
Definition lower_az (c : ascii) : bool := in_range 97 122 c.
Definition digit (c : ascii) : bool := in_range 48 57 c.
(** [[a-f0-9]] *)
Definition hex (c : ascii) : bool := in_range 97 102 c || digit c.
(** [[a-zA-Z\s]] *)
Definition letter_or_ws (c : ascii) : bool :=
  lower_az c || upper_az c || ws c.

(** [$] without MULTILINE: at the end, or before a final line feed. *)
Definition at_dollar (s : pystr) : bool :=
  match s with
  | [] => true
  | [c] => ch_eqb c nl
  | _ => false
  end.

Definition at_end (p : pattern) (s : pystr) : bool :=
  if dollar p then at_dollar s else true.

(** Exactly [n] characters of the class. *)
Fixpoint take_times (f : ascii -> bool) (n : nat) (s : pystr)
  : option (pystr * pystr) :=
  match n with
  | 0 => Some ([], s)
  | S n' =>
      match s with
      | c :: s' =>
          if f c then
            match take_times f n' s' with
            | Some (m, r) => Some (c :: m, r)
            | None => None
            end
          else None
      | [] => None
      end
  end.

Section Repeat.
Variable f : ascii -> bool.
(** The rest of the pattern, as a function of the remaining input: the
    substrings its items matched. *)
Variable k : pystr -> option (list pystr).

Definition stop (min : nat) (acc s : pystr) : option (list pystr) :=
  match min with
  | 0 => option_map (cons (rev acc)) (k s)
  | S _ => None
  end.

(** Shortest repetition first. *)
Fixpoint lazy_rep (min : nat) (acc s : pystr) : option (list pystr) :=
  match stop min acc s with
  | Some r => Some r
  | None =>
      match s with
      | c :: s' => if f c then lazy_rep (pred min) (c :: acc) s' else None
      | [] => None
      end
  end.

(** Longest repetition first. *)
Fixpoint greedy_rep (min : nat) (acc s : pystr) : option (list pystr) :=
  match s with
  | c :: s' =>
      if f c then
        match greedy_rep (pred min) (c :: acc) s' with
        | Some r => Some r
        | None => stop min acc s
        end
      else stop min acc s
  | [] => stop min acc s
  end.
End Repeat.

(** Matching the items at the start of [s]: one matched substring per item. *)
Fixpoint match_items (fin : pystr -> bool) (its : list item) (s : pystr)
  : option (list pystr) :=
  match its with
  | [] => if fin s then Some [] else None
  | it :: its' =>
      let k := match_items fin its' in
      match qnt it with
      | Times n =>
          match take_times (cls it) n s with
          | Some (m, r) => option_map (cons m) (k r)
          | None => None
          end
      | Greedy min => greedy_rep (cls it) k min [] s
      | Lazy min => lazy_rep (cls it) k min [] s
      end
  end.

(** A match object: the substring each item matched. *)
Record matched := Matched {
  m_pattern : pattern;
  m_parts : list pystr
}.

(** [re.match(p, s)]: the pattern at position 0. *)
Definition re_match (p : pattern) (s : pystr) : option matched :=
  option_map (Matched p) (match_items (at_end p) (items p) s).

(** [re.search(p, s)]: the leftmost position where the pattern matches. *)
Fixpoint re_search (p : pattern) (s : pystr) : option matched :=
  match re_match p s with
  | Some m => Some m
  | None =>
      match s with
      | [] => None
      | _ :: s' => re_search p s'
      end
  end.

Fixpoint group_of (g : nat) (its : list item) (parts : list pystr) : pystr :=
  match its, parts with
  | it :: its', x :: parts' =>
      (if Nat.eqb (grp it) g then x else []) ++ group_of g its' parts'
  | _, _ => []
  end.

(** [m.group(g)] for [g >= 1]. *)
Definition group (g : nat) (m : matched) : pystr :=
  group_of g (items (m_pattern m)) (m_parts m).

(** [m.group(0)]: the whole match. *)
Definition group0 (m : matched) : pystr := concat (m_parts m).

End Re.

(** ** JSON values and Python dictionaries *)

Module Py.

(** What [json.load] returns: [None], [bool], [int], [float], [str], [list],
    [dict].  A [dict] is a list of bindings in insertion order; its keys
    are pairwise distinct and a lookup takes the first binding. *)
Inductive json :=
| JNull
| JBool (b : bool)
| JInt (z : Z)
| JFloat (q : Q)
| JStr (s : pystr)
| JArr (l : list json)
| JObj (kvs : list (pystr * json)).

(** Outcome of a call: a value, an exception, or the recursion bound of
    the model reached. *)
Inductive res (A : Type) :=
| Ok (a : A)
| Raise
| OutOfFuel.
Arguments Ok {A} a.
Arguments Raise {A}.
Arguments OutOfFuel {A}.

#[export] Instance res_bind : MBind res := fun A B f r =>
  match r with
  | Ok a => f a
  | Raise => Raise
  | OutOfFuel => OutOfFuel
  end.
#[export] Instance res_ret : MRet res := @Ok.

Definition of_option {A} (o : option A) : res A :=
  match o with Some a => Ok a | None => Raise end.

Section Dict.
Context {V : Type}.

(** [k in d] and [d[k]] ([None]: KeyError). *)
Fixpoint dict_get (k : pystr) (d : list (pystr * V)) : option V :=
  match d with
  | [] => None
  | (k', v) :: d' => if str_eqb k' k then Some v else dict_get k d'
  end.

Definition dict_mem (k : pystr) (d : list (pystr * V)) : bool :=
  match dict_get k d with Some _ => true | None => false end.

(** [d[k] = v]: an existing key keeps its position, a new one goes last. *)
Fixpoint dict_set (k : pystr) (v : V) (d : list (pystr * V))
  : list (pystr * V) :=
  match d with
  | [] => [(k, v)]
  | (k', v') :: d' =>
      if str_eqb k' k then (k, v) :: d' else (k', v') :: dict_set k v d'
  end.

(** [d.values()] *)
Definition dict_values (d : list (pystr * V)) : list V := map snd d.

(** [d.get(k, default)] *)
Definition dict_get_default (k : pystr) (default : V) (d : list (pystr * V)) : V :=
  match dict_get k d with Some v => v | None => default end.
End Dict.

(** [v.get(k, default)]: an AttributeError unless [v] is a dict. *)
Definition get (k : pystr) (default : json) (v : json) : res json :=
  match v with
  | JObj kvs => Ok (dict_get_default k default kvs)
  | _ => Raise
  end.

(** [isinstance(v, dict)] *)
Definition is_dict (v : json) : bool :=
  match v with JObj _ => true | _ => false end.

(** Truth value of [v]. *)
Definition truthy (v : json) : bool :=
  match v with
  | JNull => false
  | JBool b => b
  | JInt z => negb (Z.eqb z 0)
  | JFloat q => negb (Z.eqb (Qnum q) 0)
  | JStr s => nonempty s
  | JArr l => match l with [] => false | _ => true end
  | JObj kvs => match kvs with [] => false | _ => true end
  end.

(** [for x in v]: the elements of a list, the characters of a string, the
    keys of a dict; a TypeError for anything else. *)
Definition iter (v : json) : res (list json) :=
  match v with
  | JArr l => Ok l
  | JStr s => Ok (map (fun c => JStr [c]) s)
  | JObj kvs => Ok (map (fun kv => JStr (fst kv)) kvs)
  | _ => Raise
  end.

(** [v == s] for a string literal [s]. *)
Definition eq_str (v : json) (s : string) : bool :=
  match v with
  | JStr t => str_eqb t (str s)
  | _ => false
  end.

End Py.
Export Py.

(** ** models.py *)

Module Models.

(** A reference to a [Resource] object: its index in the heap. *)
Abbreviation loc := nat (only parsing).

Record DatabaseRow := mkDatabaseRow {
  row_name : pystr;
  row_properties : list (pystr * pystr);
  row_raw_data : list (pystr * pystr)
}.

Record Resource := mkResource {
  id : pystr;
  name : pystr;
  parent_id : json;
  content : pystr;
  properties : list (pystr * json);
  tags : list pystr;
  aliases : list pystr;
  icon_glyph : option pystr;
  icon_color : option pystr;
  icon_shape : option pystr;
  banner_url : option pystr;
  banner_y_position : Q;
  is_hidden : bool;
  is_locked : bool;
  children : list loc;
  images : list pystr;
  raw_data : list (pystr * json)
}.

(** [Resource(id=..., name=..., parent_id=..., content=...)] with the
    dataclass defaults for the other fields. *)
Definition new_resource (i n : pystr) (p : json) (c : pystr) : Resource :=
  {| id := i; name := n; parent_id := p; content := c; properties := [];
     tags := []; aliases := []; icon_glyph := None; icon_color := None;
     icon_shape := None; banner_url := None; banner_y_position := 50 # 1;
     is_hidden := false; is_locked := false; children := []; images := [];
     raw_data := [] |}.

Definition set_children (cs : list loc) (r : Resource) : Resource :=
  {| id := id r; name := name r; parent_id := parent_id r; content := content r;
     properties := properties r; tags := tags r; aliases := aliases r;
     icon_glyph := icon_glyph r; icon_color := icon_color r;
     icon_shape := icon_shape r; banner_url := banner_url r;
     banner_y_position := banner_y_position r; is_hidden := is_hidden r;
     is_locked := is_locked r; children := cs; images := images r;
     raw_data := raw_data r |}.

Definition set_parent_id (p : json) (r : Resource) : Resource :=
  {| id := id r; name := name r; parent_id := p; content := content r;
     properties := properties r; tags := tags r; aliases := aliases r;
     icon_glyph := icon_glyph r; icon_color := icon_color r;
     icon_shape := icon_shape r; banner_url := banner_url r;
     banner_y_position := banner_y_position r; is_hidden := is_hidden r;
     is_locked := is_locked r; children := children r; images := images r;
     raw_data := raw_data r |}.

Definition set_content_properties (c : pystr) (ps : list (pystr * json))
    (r : Resource) : Resource :=
  {| id := id r; name := name r; parent_id := parent_id r; content := c;
     properties := ps; tags := tags r; aliases := aliases r;
     icon_glyph := icon_glyph r; icon_color := icon_color r;
     icon_shape := icon_shape r; banner_url := banner_url r;
     banner_y_position := banner_y_position r; is_hidden := is_hidden r;
     is_locked := is_locked r; children := children r; images := images r;
     raw_data := raw_data r |}.

(** The objects allocated so far; [h !! l] is the object behind [l]. *)
Abbreviation heap := (list Resource) (only parsing).

(** A new object. *)
Definition alloc (r : Resource) (h : heap) : loc * heap :=
  (length h, h ++ [r]).

(** [Resource.add_child(self, child)]:
      self.children.append(child); child.parent_id = self.id
    [None] only for a reference to no object. *)
Definition add_child (self child : loc) (h : heap) : option heap :=
  s ← h !! self;
  let h1 := <[self := set_children (children s ++ [child]) s]> h in
  c ← h1 !! child;
  s1 ← h1 !! self;
  Some (<[child := set_parent_id (JStr (id s1)) c]> h1).

Record ConversionData := mkConversionData {
  resources : list loc;
  databases : list (pystr * list DatabaseRow);
  metadata : list (pystr * json)
}.

(** [ConversionData()] *)
Definition new_data : ConversionData :=
  {| resources := []; databases := []; metadata := [] |}.

(** [ConversionData.add_resource(self, resource)] *)
Definition add_resource (resource : loc) (d : ConversionData) : ConversionData :=
  {| resources := resources d ++ [resource];
     databases := databases d; metadata := metadata d |}.

(** [ConversionData.add_database(self, name, rows)] *)
Definition add_database (n : pystr) (rows : list DatabaseRow)
    (d : ConversionData) : ConversionData :=
  {| resources := resources d;
     databases := dict_set n rows (databases d); metadata := metadata d |}.

Definition set_metadata (k : pystr) (v : json) (d : ConversionData) : ConversionData :=
  {| resources := resources d; databases := databases d;
     metadata := dict_set k v (metadata d) |}.

(** The [for] loop of the local function [collect] of
    [get_all_resources]; [recur] is [collect] itself, one level deeper. *)
Fixpoint collect_loop (recur : list loc -> res (list loc)) (h : heap)
    (rs : list loc) (result : list loc) : res (list loc) :=
  match rs with
  | [] => Ok result
  | resource :: rs' =>
      r ← of_option (h !! resource);
      sub ← recur (children r);
      collect_loop recur h rs' ((result ++ [resource]) ++ sub)
  end.

(** [collect(resources)]; [fuel] bounds the depth of the recursion. *)
Fixpoint collect (fuel : nat) (h : heap) (rs : list loc) : res (list loc) :=
  match fuel with
  | 0 => OutOfFuel
  | S fuel' => collect_loop (collect fuel' h) h rs []
  end.

(** [ConversionData.get_all_resources(self)] *)
Definition get_all_resources (fuel : nat) (h : heap) (d : ConversionData)
  : res (list loc) :=
  collect fuel h (resources d).

(** The [for] loop of the local function [search] of
    [find_resource_by_id] and of [find_resource_by_name], which differ in
    the test [resource.id == resource_id] or [resource.name == name]
    only; [recur] is [search] itself, one level deeper.  An object is
    true, so [if found] asks whether [found] is not [None]. *)
Fixpoint search_loop (test : Resource -> bool)
    (recur : list loc -> res (option loc)) (h : heap) (rs : list loc)
  : res (option loc) :=
  match rs with
  | [] => Ok None
  | resource :: rs' =>
      r ← of_option (h !! resource);
      if test r then Ok (Some resource)
      else
        found ← recur (children r);
        match found with
        | Some f => Ok (Some f)
        | None => search_loop test recur h rs'
        end
  end.

(** [search(resources)]; [fuel] bounds the depth of the recursion. *)
Fixpoint search (test : Resource -> bool) (fuel : nat) (h : heap)
    (rs : list loc) : res (option loc) :=
  match fuel with
  | 0 => OutOfFuel
  | S fuel' => search_loop test (search test fuel' h) h rs
  end.

(** [ConversionData.find_resource_by_id(self, resource_id)] *)
Definition find_resource_by_id (fuel : nat) (h : heap) (d : ConversionData)
    (resource_id : pystr) : res (option loc) :=
  search (fun r => str_eqb (id r) resource_id) fuel h (resources d).

(** [ConversionData.find_resource_by_name(self, name)] *)
Definition find_resource_by_name (fuel : nat) (h : heap) (d : ConversionData)
    (n : pystr) : res (option loc) :=
  search (fun r => str_eqb (name r) n) fuel h (resources d).

End Models.
Export Models.

(** ** notion_parser.py *)

Module NotionParser.
Import Re.

(** [r"^(.+?)\s+[a-f0-9]{32}$"] *)
Definition name_pattern : pattern :=
  Pattern [Item dot (Lazy 1) 1; Item ws (Greedy 1) 0; Item hex (Times 32) 0] true.

Definition _extract_name_from_filename (filename : pystr) : pystr :=
  match re_match name_pattern filename with
  | Some m => strip (group 1 m)
  | None => filename
  end.

(** [r"[a-f0-9]{32}$"] *)
Definition id_pattern : pattern :=
  Pattern [Item hex (Times 32) 0] true.

Definition _extract_id_from_filename (filename : pystr) : pystr :=
  match re_search id_pattern filename with
  | Some m => group0 m
  | None => replace_char " " "_" (lower filename)
  end.

(** [r"^([A-Z][a-zA-Z\s]+):\s+(.+)$"] *)
Definition property_pattern : pattern :=
  Pattern [Item upper_az (Times 1) 1; Item letter_or_ws (Greedy 1) 1;
           Item (lit ":") (Times 1) 0; Item ws (Greedy 1) 0;
           Item dot (Greedy 1) 2] true.

(** The [for i in range(...)] loop of [_extract_properties]; the state is
    [(property_end_idx, resource.properties)].  Returning the state is
    [break] (or the end of the range), the recursive call is the next
    iteration. *)
Fixpoint scan_properties (lines : list pystr) (content_start_idx : nat)
    (range : list nat) (st : nat * list (pystr * json))
  : nat * list (pystr * json) :=
  match range with
  | [] => st
  | i :: range' =>
      let '(property_end_idx, props) := st in
      let line := strip (nth i lines []) in
      if str_eqb line [] then
        if content_start_idx <? property_end_idx then (i + 1, props)
        else scan_properties lines content_start_idx range' st
      else
        match re_match property_pattern line with
        | Some m =>
            let key := strip (group 1 m) in
            let value := strip (group 2 m) in
            scan_properties lines content_start_idx range'
              (i + 1, dict_set key (JStr value) props)
        | None =>
            if content_start_idx <? property_end_idx then st
            else scan_properties lines content_start_idx range' st
        end
  end.

(** The two [if]s that place [content_start_idx]. *)
Definition content_start (lines : list pystr) : nat :=
  let content_start_idx :=
    match lines with
    | l0 :: _ => if startswith (str "# ") (strip l0) then 1 else 0
    | [] => 0
    end in
  if (content_start_idx <? length lines)
     && str_eqb (strip (nth content_start_idx lines [])) []
  then content_start_idx + 1 else content_start_idx.

Definition _extract_properties (resource : Resource) : Resource :=
  let lines := split_nl (content resource) in
  let content_start_idx := content_start lines in
  let '(property_end_idx, props) :=
    scan_properties lines content_start_idx
      (seq content_start_idx
           (Nat.min (content_start_idx + 20) (length lines) - content_start_idx))
      (content_start_idx, properties resource) in
  set_content_properties
    (strip (join [nl] (drop property_end_idx lines))) props resource.

(** [_parse_csv(self, csv_file)] from the rows of the [csv.DictReader]
    on: every row is a dict from column name to cell. *)
Fixpoint _parse_csv (reader : list (list (pystr * pystr))) : list DatabaseRow :=
  match reader with
  | [] => []
  | row_data :: reader' =>
      if dict_mem (str "Name") row_data then
        mkDatabaseRow
          (default [] (dict_get (str "Name") row_data))
          (filter (fun kv => negb (str_eqb (fst kv) (str "Name"))) row_data)
          row_data
        :: _parse_csv reader'
      else _parse_csv reader'
  end.

End NotionParser.
Export NotionParser.

(** ** legendkeeper_parser.py *)

Module LegendKeeperParser.

Section Nodes.
(** Python's [str()] of a value that is not a [str], as an f-string
    formats it (built into the interpreter, not part of the sources). *)
Variable py_str : json -> pystr.

(** [f"{v}"] *)
Definition fmt (v : json) : pystr :=
  match v with JStr s => s | _ => py_str v end.

(** [sys.maxsize], the largest repeat count: [2^63 - 1]. *)
Definition max_index : Z := 9223372036854775807.

(** ['#' * level]: a TypeError unless [level] is an [int] ([bool]
    included), an OverflowError when the [int] is above [sys.maxsize].
    Below that the string is built; the MemoryError of a string the
    machine cannot hold depends on the machine and is left out. *)
Definition str_times (c : ascii) (v : json) : res pystr :=
  match v with
  | JInt z =>
      if (z <=? max_index)%Z then Ok (repeat_char c (Z.to_nat z)) else Raise
  | JBool b => Ok (repeat_char c (if b then 1 else 0))
  | _ => Raise
  end.

(** ["".join(parts)]: a TypeError unless every part is a [str]. *)
Fixpoint join_parts (parts : list json) : res pystr :=
  match parts with
  | [] => Ok []
  | JStr s :: parts' => r ← join_parts parts'; Ok (s ++ r)
  | _ :: _ => Raise
  end.

(** The loop [for mark in marks] of the [text] branch. *)
Fixpoint apply_marks (marks : list json) (text : json) : res json :=
  match marks with
  | [] => Ok text
  | mark :: marks' =>
      mark_type ← get (str "type") (JStr []) mark;
      text' ←
        (if eq_str mark_type "strong" then
           Ok (JStr (str "**" ++ fmt text ++ str "**"))
         else if eq_str mark_type "em" then
           Ok (JStr (str "*" ++ fmt text ++ str "*"))
         else if eq_str mark_type "code" then
           Ok (JStr (str "`" ++ fmt text ++ str "`"))
         else if eq_str mark_type "link" then
           attrs ← get (str "attrs") (JObj []) mark;
           href ← get (str "href") (JStr []) attrs;
           Ok (JStr (str "[" ++ fmt text ++ str "](" ++ fmt href ++ str ")"))
         else Ok text);
      apply_marks marks' text'
  end.

(** The loop [for item in list_items] of the list branch; [recur] is
    [_process_nodes] itself, one level deeper. *)
Fixpoint items_loop (recur : json -> res pystr) (node_type : json)
    (items : list json) (parts : list json) : res (list json) :=
  match items with
  | [] => Ok parts
  | item :: items' =>
      item_content ← get (str "content") (JArr []) item;
      item_text ← recur item_content;
      let prefix := if eq_str node_type "bulletList" then str "-" else str "1." in
      items_loop recur node_type items'
        (parts ++ [JStr (prefix ++ str " " ++ item_text ++ [nl])])
  end.

(** The loop [for node in nodes] with the list [parts]. *)
Fixpoint nodes_loop (recur : json -> res pystr) (ns : list json)
    (parts : list json) : res (list json) :=
  match ns with
  | [] => Ok parts
  | node :: ns' =>
      if negb (is_dict node) then nodes_loop recur ns' parts
      else
        node_type ← get (str "type") (JStr []) node;
        if eq_str node_type "text" then
          text ← get (str "text") (JStr []) node;
          marks ← get (str "marks") (JArr []) node;
          ms ← iter marks;
          text' ← apply_marks ms text;
          nodes_loop recur ns' (parts ++ [text'])
        else if eq_str node_type "paragraph" then
          content_nodes ← get (str "content") (JArr []) node;
          para_text ← recur content_nodes;
          nodes_loop recur ns' (parts ++ [JStr (para_text ++ [nl; nl])])
        else if eq_str node_type "heading" then
          attrs ← get (str "attrs") (JObj []) node;
          level ← get (str "level") (JInt 1) attrs;
          content_nodes ← get (str "content") (JArr []) node;
          heading_text ← recur content_nodes;
          hashes ← str_times "#" level;
          nodes_loop recur ns'
            (parts ++ [JStr (hashes ++ str " " ++ heading_text ++ [nl])])
        else if eq_str node_type "bulletList" || eq_str node_type "orderedList" then
          list_items ← get (str "content") (JArr []) node;
          items ← iter list_items;
          parts' ← items_loop recur node_type items parts;
          nodes_loop recur ns' parts'
        else if eq_str node_type "listItem" then
          content_nodes ← get (str "content") (JArr []) node;
          t ← recur content_nodes;
          nodes_loop recur ns' (parts ++ [JStr t])
        else if eq_str node_type "codeBlock" then
          content_nodes ← get (str "content") (JArr []) node;
          code_text ← recur content_nodes;
          nodes_loop recur ns'
            (parts ++ [JStr (str "```" ++ [nl] ++ code_text ++ [nl]
                             ++ str "```" ++ [nl])])
        else if eq_str node_type "blockquote" then
          content_nodes ← get (str "content") (JArr []) node;
          quote_text ← recur content_nodes;
          nodes_loop recur ns' (parts ++ [JStr (str "> " ++ quote_text ++ [nl])])
        else if eq_str node_type "rule" then
          nodes_loop recur ns' (parts ++ [JStr (str "---" ++ [nl])])
        else if eq_str node_type "mention" then
          attrs ← get (str "attrs") (JObj []) node;
          mention_text ← get (str "text") (JStr []) attrs;
          nodes_loop recur ns'
            (parts ++ [JStr (str "[[" ++ fmt mention_text ++ str "]]")])
        else if eq_str node_type "image" then
          attrs ← get (str "attrs") (JObj []) node;
          src ← get (str "src") (JStr []) attrs;
          attrs' ← get (str "attrs") (JObj []) node;
          alt ← get (str "alt") (JStr []) attrs';
          nodes_loop recur ns'
            (parts ++ [JStr (str "![" ++ fmt alt ++ str "](" ++ fmt src
                             ++ str ")" ++ [nl])])
        else
          content_nodes ← get (str "content") (JArr []) node;
          if truthy content_nodes then
            t ← recur content_nodes;
            nodes_loop recur ns' (parts ++ [JStr t])
          else nodes_loop recur ns' parts
  end.

(** [_process_nodes(self, nodes)]; [fuel] bounds the depth of the
    recursion. *)
Fixpoint _process_nodes (fuel : nat) (nodes : json) : res pystr :=
  match fuel with
  | 0 => OutOfFuel
  | S fuel' =>
      ns ← iter nodes;
      parts ← nodes_loop (_process_nodes fuel') ns [];
      join_parts parts
  end.

(** [_extract_text_from_prosemirror(self, content)] *)
Definition _extract_text_from_prosemirror (fuel : nat) (content : json) : res pystr :=
  if negb (is_dict content) then Ok []
  else
    content_nodes ← get (str "content") (JArr []) content;
    _process_nodes fuel content_nodes.

(** The loop of [_extract_content_from_documents]. *)
Fixpoint documents_loop (fuel : nat) (docs : list json) (content_parts : list pystr)
  : res (list pystr) :=
  match docs with
  | [] => Ok content_parts
  | doc :: docs' =>
      doc_name ← get (str "name") (JStr []) doc;
      doc_content ← get (str "content") (JObj []) doc;
      let content_parts :=
        if truthy doc_name && negb (eq_str doc_name "Main")
        then content_parts ++ [str "# " ++ fmt doc_name ++ [nl]]
        else content_parts in
      text ← _extract_text_from_prosemirror fuel doc_content;
      documents_loop fuel docs'
        (if nonempty text then content_parts ++ [text] else content_parts)
  end.

(** [_extract_content_from_documents(self, documents)] *)
Definition _extract_content_from_documents (fuel : nat) (documents : json)
  : res pystr :=
  docs ← iter documents;
  content_parts ← documents_loop fuel docs [];
  Ok (join [nl; nl] content_parts).

(** A resource record of the export, read at the types the [Resource]
    dataclass declares for the fields it fills; [None] is an absent key.
    The parent reference is kept as loaded, of whatever type:
    [r_parentId] is what [res_data.get("parentId")] returns, [JNull]
    for an absent key. *)
Record lk_banner := mkBanner {
  b_enabled : option json;
  b_url : option pystr;
  b_yPosition : option Q
}.

Inductive lk_prop :=
| PropOther (v : json)                               (* not a dict *)
| PropDict (p_name : option pystr) (p_value : option json).

Record lk_record := mkRecord {
  r_id : option pystr;
  r_name : option pystr;
  r_parentId : json;
  r_iconGlyph : option pystr;
  r_iconColor : option pystr;
  r_iconShape : option pystr;
  r_isHidden : option bool;
  r_isLocked : option bool;
  r_banner : option lk_banner;
  r_tags : option (list pystr);
  r_aliases : option (list pystr);
  r_properties : option (list lk_prop);
  r_documents : option json;
  r_raw : list (pystr * json)        (* the record as loaded *)
}.

(** The loop [for prop in properties] of [_parse_resource]. *)
Fixpoint properties_loop (props : list lk_prop) (d : list (pystr * json))
  : list (pystr * json) :=
  match props with
  | [] => d
  | PropOther _ :: props' => properties_loop props' d
  | PropDict n v :: props' =>
      let prop_name := default [] n in
      let prop_value := default (JStr []) v in
      properties_loop props'
        (if nonempty prop_name then dict_set prop_name prop_value d else d)
  end.

(** [_parse_resource(self, res_data)] *)
Definition _parse_resource (fuel : nat) (res_data : lk_record) : res Resource :=
  let banner := default (mkBanner None None None) (r_banner res_data) in
  let enabled := truthy (default JNull (b_enabled banner)) in
  content ← _extract_content_from_documents fuel
              (default (JArr []) (r_documents res_data));
  Ok {| id := default [] (r_id res_data);
        name := default [] (r_name res_data);
        parent_id := r_parentId res_data;
        content := content;
        properties := properties_loop (default [] (r_properties res_data)) [];
        tags := default [] (r_tags res_data);
        aliases := default [] (r_aliases res_data);
        icon_glyph := r_iconGlyph res_data;
        icon_color := r_iconColor res_data;
        icon_shape := r_iconShape res_data;
        banner_url := if enabled then Some (default [] (b_url banner)) else None;
        banner_y_position :=
          if enabled then default (50 # 1) (b_yPosition banner) else 50 # 1;
        is_hidden := default false (r_isHidden res_data);
        is_locked := default false (r_isLocked res_data);
        children := [];
        images := [];
        raw_data := r_raw res_data |}.

(** "First pass: create all resources". *)
Fixpoint first_pass (fuel : nat) (resources_data : list lk_record)
    (st : heap * list (pystr * loc)) : res (heap * list (pystr * loc)) :=
  match resources_data with
  | [] => Ok st
  | res_data :: rest =>
      resource ← _parse_resource fuel res_data;
      let '(l, h) := alloc resource (fst st) in
      first_pass fuel rest (h, dict_set (id resource) l (snd st))
  end.

(** [k in d] for a key of any type, the keys of [d] being strings: a
    list and a dict are not hashable, [None] is their TypeError; a value
    that is no string equals none of the keys. *)
Definition in_dict {V} (k : json) (d : list (pystr * V)) : option bool :=
  match k with
  | JStr s => Some (dict_mem s d)
  | JArr _ | JObj _ => None
  | _ => Some false
  end.

(** [d[k]]; [None]: a KeyError or TypeError. *)
Definition dict_at {V} (k : json) (d : list (pystr * V)) : option V :=
  match k with
  | JStr s => dict_get s d
  | _ => None
  end.

(** [resource.parent_id and resource.parent_id in resources_by_id];
    [None]: the TypeError of [in]. *)
Definition has_known_parent (r : Resource) (resources_by_id : list (pystr * loc))
  : option bool :=
  if truthy (parent_id r) then in_dict (parent_id r) resources_by_id
  else Some false.

(** "Second pass: build hierarchy": the loop over
    [resources_by_id.values()].  [None]: a TypeError, a KeyError or a
    reference to no object. *)
Fixpoint second_pass (values : list loc) (resources_by_id : list (pystr * loc))
    (st : heap * ConversionData) : option (heap * ConversionData) :=
  match values with
  | [] => Some st
  | resource :: rest =>
      r ← fst st !! resource;
      known ← has_known_parent r resources_by_id;
      if known : bool then
        parent ← dict_at (parent_id r) resources_by_id;
        h ← add_child parent resource (fst st);
        second_pass rest resources_by_id (h, snd st)
      else
        second_pass rest resources_by_id (fst st, add_resource resource (snd st))
  end.

(** The export document as loaded. *)
Record lk_export := mkExport {
  e_version : option json;
  e_exportId : option json;
  e_exportedAt : option json;
  e_resources : option (list lk_record)
}.

(** [parse_json(self, json_file)] from the loaded document on. *)
Definition parse_json (fuel : nat) (lk_data : lk_export)
  : res (heap * ConversionData) :=
  let data := new_data in
  let data := set_metadata (str "version") (default (JInt 1) (e_version lk_data)) data in
  let data := set_metadata (str "exportId") (default (JStr []) (e_exportId lk_data)) data in
  let data := set_metadata (str "exportedAt") (default (JStr []) (e_exportedAt lk_data)) data in
  let resources_data := default [] (e_resources lk_data) in
  '(h, resources_by_id) ← first_pass fuel resources_data ([], []);
  of_option (second_pass (dict_values resources_by_id) resources_by_id (h, data)).
End Nodes.

End LegendKeeperParser.
Export LegendKeeperParser.

(** ** legendkeeper_exporter.py *)

Module LegendKeeperExporter.
Import Re.

(** [s in ["---", "***", "___"]] *)
Definition is_rule (s : pystr) : bool :=
  existsb (str_eqb s) [str "---"; str "***"; str "___"].

(** [s.startswith(("-", "*", "+"))] *)
Definition starts_bullet (s : pystr) : bool :=
  existsb (fun p => startswith p s) [str "-"; str "*"; str "+"].

(** [_is_special_line(self, line)] *)
Definition _is_special_line (line : pystr) : bool :=
  let stripped := strip line in
  startswith (str "#") stripped
  || starts_bullet stripped
  || startswith (str ">") stripped
  || startswith (str "![") stripped
  || is_rule stripped.

(** [r"!\[(.*?)\]\((.*?)\)"] *)
Definition image_pattern : pattern :=
  Pattern [Item (lit "!") (Times 1) 0; Item (lit "[") (Times 1) 0;
           Item dot (Lazy 0) 1; Item (lit "]") (Times 1) 0;
           Item (lit "(") (Times 1) 0; Item dot (Lazy 0) 2;
           Item (lit ")") (Times 1) 0] false.

Definition text_node (text : pystr) : json :=
  JObj [(str "type", JStr (str "text")); (str "text", JStr text)].

Definition paragraph_node (text : pystr) : json :=
  JObj [(str "type", JStr (str "paragraph"));
        (str "content", JArr [text_node text])].

Definition heading_node (level : nat) (text : pystr) : json :=
  JObj [(str "type", JStr (str "heading"));
        (str "attrs", JObj [(str "level", JInt (Z.of_nat (Nat.min level 6)))]);
        (str "content", JArr [text_node text])].

Definition rule_node : json := JObj [(str "type", JStr (str "rule"))].

Definition bullet_node (text : pystr) : json :=
  JObj [(str "type", JStr (str "bulletList"));
        (str "content",
         JArr [JObj [(str "type", JStr (str "listItem"));
                     (str "content", JArr [paragraph_node text])]])].

Definition blockquote_node (text : pystr) : json :=
  JObj [(str "type", JStr (str "blockquote"));
        (str "content", JArr [paragraph_node text])].

(** The [while i < len(lines)] loop of [_markdown_to_prosemirror], on the
    lines from index [i] on; the result is what the loop appends to
    [nodes].  The inner fixpoint is the loop that collects [para_lines]. *)
Fixpoint md_loop (lines : list pystr) : list json :=
  match lines with
  | [] => []
  | line :: rest =>
      if negb (nonempty (strip line)) then md_loop rest
      else if startswith (str "#") line then
        let level := length line - length (lstrip_char "#" line) in
        let text := strip (lstrip_char "#" line) in
        heading_node level text :: md_loop rest
      else if is_rule (strip line) then
        rule_node :: md_loop rest
      else if starts_bullet (strip line) then
        let text := strip (drop 1 (strip line)) in
        bullet_node text :: md_loop rest
      else if startswith (str ">") (strip line) then
        let text := strip (drop 1 (strip line)) in
        blockquote_node text :: md_loop rest
      else if startswith (str "![") (strip line) then
        match re_match image_pattern (strip line) with
        | Some m =>
            let alt := group 1 m in
            let src := group 2 m in
            paragraph_node (str "![" ++ alt ++ str "](" ++ src ++ str ")")
              :: md_loop rest
        | None => md_loop rest
        end
      else
        (fix collect_para (para_lines : list pystr) (ls : list pystr) {struct ls}
           : list json :=
           match ls with
           | l :: ls' =>
               if nonempty (strip l) && negb (_is_special_line l)
               then collect_para (para_lines ++ [l]) ls'
               else paragraph_node (join (str " ") para_lines) :: md_loop ls
           | [] => [paragraph_node (join (str " ") para_lines)]
           end) [line] rest
  end.

(** [_markdown_to_prosemirror(self, content)] *)
Definition _markdown_to_prosemirror (content : pystr) : list json :=
  md_loop (split_nl content).

(** What the environment gives [_content_to_document]: the results of its
    two calls of [_generate_id()] and of [datetime.utcnow().isoformat()]. *)
Record doc_stamp := mkStamp {
  stamp_id : pystr;
  stamp_created : pystr;
  stamp_updated : pystr;
  stamp_locator : pystr
}.

(** [_content_to_document(self, content, name)] *)
Definition _content_to_document (st : doc_stamp) (content name : pystr) : json :=
  let nodes := _markdown_to_prosemirror content in
  JObj [(str "id", JStr (stamp_id st));
        (str "pos", JStr (str "O"));
        (str "createdAt", JStr (stamp_created st ++ str "Z"));
        (str "updatedAt", JStr (stamp_updated st ++ str "Z"));
        (str "locatorId", JStr (str "document:" ++ stamp_locator st));
        (str "name", JStr name);
        (str "type", JStr (str "page"));
        (str "isHidden", JBool false);
        (str "isFullWidth", JBool false);
        (str "isFirst", JBool true);
        (str "transforms", JArr []);
        (str "sources", JArr []);
        (str "presentation", JObj [(str "documentType", JStr (str "page"))]);
        (str "content", JObj [(str "type", JStr (str "doc"));
                              (str "content", JArr nodes)])].

(** Truth value of an optional string: neither [None] nor empty. *)
Definition opt_truthy (o : option pystr) : bool :=
  match o with Some s => nonempty s | None => false end.

(** [o or d] *)
Definition or_else (o : option pystr) (d : pystr) : pystr :=
  if opt_truthy o then default [] o else d.

(** [_resource_to_legendkeeper(self, resource)]; the lists under
    "properties" and "documents" are filled in place, so the keys keep
    their position. *)
Definition _resource_to_legendkeeper (st : doc_stamp) (resource : Resource)
  : list (pystr * json) :=
  let lk_resource :=
    [(str "schemaVersion", JInt 1);
     (str "id", JStr (id resource));
     (str "name", JStr (name resource));
     (str "aliases", JArr (map JStr (aliases resource)));
     (str "tags", JArr (map JStr (tags resource)));
     (str "isHidden", JBool (is_hidden resource));
     (str "isLocked", JBool (is_locked resource));
     (str "showPropertyBar", JBool true);
     (str "properties", JArr []);
     (str "documents", JArr []);
     (str "createdBy", JStr (str "converter"));
     (str "pos", JStr (str "M"))] in
  let lk_resource :=
    if truthy (parent_id resource)
    then dict_set (str "parentId") (parent_id resource) lk_resource
    else lk_resource in
  let lk_resource :=
    if opt_truthy (icon_glyph resource) || opt_truthy (icon_color resource)
       || opt_truthy (icon_shape resource)
    then
      dict_set (str "iconShape") (JStr (or_else (icon_shape resource) (str "pin-medium")))
        (dict_set (str "iconColor") (JStr (or_else (icon_color resource) (str "#C49454")))
           (dict_set (str "iconGlyph") (JStr (or_else (icon_glyph resource) (str "book")))
              lk_resource))
    else
      dict_set (str "iconShape") (JStr (str "pin-medium"))
        (dict_set (str "iconColor") (JStr (str "#C49454"))
           (dict_set (str "iconGlyph") (JStr (str "book")) lk_resource)) in
  let lk_resource :=
    dict_set (str "banner")
      (JObj [(str "enabled", JBool (opt_truthy (banner_url resource)));
             (str "url", JStr (or_else (banner_url resource) []));
             (str "yPosition", JFloat (banner_y_position resource))])
      lk_resource in
  let lk_resource :=
    dict_set (str "properties")
      (JArr (map (fun kv => JObj [(str "name", JStr (fst kv)); (str "value", snd kv)])
                 (properties resource)))
      lk_resource in
  if nonempty (content resource) then
    dict_set (str "documents")
      (JArr [_content_to_document st (content resource) (str "Main")]) lk_resource
  else lk_resource.

End LegendKeeperExporter.
Export LegendKeeperExporter.

(** ** notion_exporter.py *)

Module NotionExporter.

(** The text after the last ["/"] of [s]; [None] when [s] has none. *)
Fixpoint after_last_slash (s : pystr) : option pystr :=
  match s with
  | [] => None
  | c :: s' =>
      match after_last_slash s' with
      | Some t => Some t
      | None => if ch_eqb c "/" then Some s' else None
      end
  end.

(** The final component of the path [output_dir / filename], for a
    [filename] that ends in neither ["/"] nor a ["."] component (as
    [md_filename] does, which ends in [".md"]): the text after its last
    separator. *)
Definition path_name (filename : pystr) : pystr :=
  default filename (after_last_slash filename).

(** The text of [s] before its last dot; [None] when [s] has none. *)
Fixpoint before_last_dot (s : pystr) : option pystr :=
  match s with
  | [] => None
  | c :: s' =>
      match before_last_dot s' with
      | Some p => Some (c :: p)
      | None => if ch_eqb c "." then Some [] else None
      end
  end.

(** [(output_dir / filename).stem]: the final component up to its last
    dot; the whole component when it has no dot or the last dot is its
    first or its last character. *)
Definition stem (filename : pystr) : pystr :=
  let n := path_name filename in
  match before_last_dot n with
  | Some p =>
      if (0 <? length p) && (length p <? length n - 1) then p
      else n
  | None => n
  end.

(** [md_filename] of [_export_resource]: [f"{resource.name} {resource.id}.md"] *)
Definition md_filename (resource : Resource) : pystr :=
  name resource ++ str " " ++ id resource ++ str ".md".

Section Format.
(** Python's [str()] of a value that is not a [str]. *)
Variable py_str : json -> pystr.

(** [f"{key}: {value}"] *)
Definition property_line (kv : pystr * json) : pystr :=
  fst kv ++ str ": " ++ fmt py_str (snd kv).

(** [_format_content(self, resource)] *)
Definition _format_content (resource : Resource) : pystr :=
  let parts := [str "# " ++ name resource ++ [nl]] in
  let parts :=
    match properties resource with
    | [] => parts
    | _ => parts ++ map property_line (properties resource) ++ [[]]
    end in
  let parts :=
    if nonempty (content resource) then parts ++ [content resource] else parts in
  let parts :=
    match tags resource with
    | [] => parts
    | _ => parts ++ [[nl] ++ str "Tags: " ++ join (str ", ") (tags resource)]
    end in
  join [nl] parts.
End Format.

(** [columns.update(keys)] on a set of strings, kept as a list without
    repetition; the order in which a Python set is iterated is not
    specified, and [sorted] below makes the result independent of it. *)
Definition set_update (s : list pystr) (keys : list pystr) : list pystr :=
  fold_left (fun s k => if existsb (str_eqb k) s then s else s ++ [k]) keys s.

(** The list [columns] of [_export_database]. *)
Definition columns_of (rows : list DatabaseRow) : list pystr :=
  let columns :=
    fold_left (fun s row => set_update s (map fst (row_properties row)))
              rows [str "Name"] in
  [str "Name"] ++ sorted (filter (fun c => negb (str_eqb c (str "Name"))) columns).

(** [row_dict] of [_export_database]:
    [{"Name": row.name}] updated with [row.properties]. *)
Definition row_dict_of (row : DatabaseRow) : list (pystr * pystr) :=
  fold_left (fun d kv => dict_set (fst kv) (snd kv) d)
            (row_properties row) [(str "Name", row_name row)].

(** [_export_database(self, db_name, rows, output_dir)]: the field names
    given to the [csv.DictWriter] and the dicts given to its [writerow],
    the same for both files; [None] when nothing is written. *)
Definition _export_database (rows : list DatabaseRow)
  : option (list pystr * list (list (pystr * pystr))) :=
  match rows with
  | [] => None
  | _ => Some (columns_of rows, map row_dict_of rows)
  end.

End NotionExporter.
Export NotionExporter.

(** ** Vocabulary of the statements *)

Module Tree.

(** [c] is in the list [children] of the object behind [p]. *)
Definition child_of (h : heap) (p c : loc) : Prop :=
  exists r, h !! p = Some r /\ c ∈ children r.

(** Number of times [c] stands in a list of references. *)
Definition occurrences (c : loc) (l : list loc) : nat :=
  count_occ Nat.eq_dec l c.

(** No resource is in the [children] of two objects. *)
Definition single_owner (h : heap) : Prop :=
  forall p1 p2 c, child_of h p1 c -> child_of h p2 c -> p1 = p2.

(** No [children] list holds a resource twice. *)
Definition children_once (h : heap) : Prop :=
  forall p r, h !! p = Some r -> NoDup (children r).

(** Every child's [parent_id] is its parent's [id]. *)
Definition parent_ids_agree (h : heap) : Prop :=
  forall p c rp rc,
    h !! p = Some rp -> c ∈ children rp -> h !! c = Some rc ->
    parent_id rc = JStr (id rp).

(** No resource is its own descendant. *)
Definition acyclic (h : heap) : Prop :=
  forall x, ~ tc (child_of h) x x.

(** Attaching [c] is an attachment of a resource that is in no
    [children] list yet. *)
Definition unattached (h : heap) (c : loc) : Prop := forall p, ~ child_of h p c.

(** Every reference in a [children] list is to an object of the heap. *)
Definition closed (h : heap) : Prop := forall p c, child_of h p c -> c < length h.

(** What [add_child p c] does to the object behind [l], [pid] being the
    [id] of the parent. *)
Definition touched (p c : loc) (pid : pystr) (l : loc) (r : Resource) : Resource :=
  let r1 := if decide (l = p) then set_children (children r ++ [c]) r else r in
  if decide (l = c) then set_parent_id (JStr pid) r1 else r1.

(** The states built from nothing by creating resources, [add_child] and
    [add_resource], where [add_child] is only applied to a child that is
    in no [children] list yet and is neither the parent nor one of its
    ancestors. *)
Inductive assembled : heap -> ConversionData -> Prop :=
| assembled_start : assembled [] new_data
| assembled_new h d r :
    assembled h d -> children r = [] -> assembled (h ++ [r]) d
| assembled_attach h d p c h' :
    assembled h d -> unattached h c -> ~ rtc (child_of h) c p ->
    add_child p c h = Some h' -> assembled h' d
| assembled_root h d c :
    assembled h d -> c < length h -> assembled h (add_resource c d).

(** The keys of a dictionary are pairwise distinct. *)
Definition wf_dict {V} (d : list (pystr * V)) : Prop := NoDup (map fst d).

(** A forest as a shape: every node names the object it stands for. *)
Inductive rtree := RNode (l : loc) (kids : list rtree).

Definition rroot (t : rtree) : loc := match t with RNode l _ => l end.
Definition rkids (t : rtree) : list rtree := match t with RNode _ ks => ks end.

(** Pre-order: a node, then its subtrees from left to right. *)
Fixpoint preorder (t : rtree) : list loc :=
  match t with RNode l ks => l :: flat_map preorder ks end.

(** Number of nodes. *)
Fixpoint size (t : rtree) : nat :=
  match t with RNode _ ks => S (list_sum (map size ks)) end.

Fixpoint height (t : rtree) : nat :=
  match t with RNode _ ks => S (list_max (map height ks)) end.

(** The heap holds the tree [t]: the [children] list of every node is the
    list of the roots of its subtrees. *)
Fixpoint shape (h : heap) (t : rtree) : Prop :=
  match t with
  | RNode l ks =>
      (exists r, h !! l = Some r /\ children r = map rroot ks)
      /\ (fix all (ks : list rtree) : Prop :=
            match ks with
            | [] => True
            | k :: ks' => shape h k /\ all ks'
            end) ks
  end.

(** The first reference of the list to an object that passes [test]. *)
Definition first_where (h : heap) (test : Resource -> bool) (ls : list loc)
  : option loc :=
  find (fun l => match h !! l with Some r => test r | None => false end) ls.

(** [x] leads to a cycle of the [children] lists: it has a descendant, or
    is itself a resource, that is its own descendant. *)
Definition leads_to_cycle (h : heap) (x : loc) : Prop :=
  exists y, rtc (child_of h) x y /\ tc (child_of h) y y.

End Tree.
Export Tree.

Module Hierarchy.

(** The [id] a record is registered under. *)
Definition rec_id (rec : lk_record) : pystr := default [] (r_id rec).

(** No later record carries the [id] of record [l]. *)
Definition last_with_id (records : list lk_record) (l : nat) : Prop :=
  exists rec, records !! l = Some rec
    /\ forall l' rec', l < l' -> records !! l' = Some rec' -> rec_id rec' <> rec_id rec.

(** Some record carries the [id] [p]. *)
Definition id_present (records : list lk_record) (p : pystr) : Prop :=
  exists l rec, records !! l = Some rec /\ rec_id rec = p.

(** [resources_by_id] after the first pass over the resources [rs], the
    first of them stored at [n]. *)
Fixpoint register (rs : list Resource) (n : nat) (d : list (pystr * loc))
  : list (pystr * loc) :=
  match rs with
  | [] => d
  | r :: rs' => register rs' (S n) (dict_set (id r) n d)
  end.

(** [h] is [h0] up to the [children] lists. *)
Definition same_but_children (h0 h : heap) : Prop :=
  length h = length h0
  /\ forall l r, h !! l = Some r ->
       exists r0, h0 !! l = Some r0 /\ set_children (children r0) r = r0.

(** What the second pass has done with the resource behind [l]. *)
Definition placed (by_id : list (pystr * loc)) (h0 h : heap) (d : ConversionData)
    (l : loc) : Prop :=
  forall r0, h0 !! l = Some r0 ->
    match has_known_parent r0 by_id with
    | Some true =>
        exists q, dict_at (parent_id r0) by_id = Some q
          /\ child_of h q l /\ l ∉ resources d
    | Some false => l ∈ resources d /\ unattached h l
    | None => False
    end.

(** The loop invariant of the second pass; [seen] are the resources the
    loop has visited. *)
Definition hierarchy_inv (by_id : list (pystr * loc)) (h0 h : heap)
    (d : ConversionData) (seen : list loc) : Prop :=
  same_but_children h0 h
  /\ closed h /\ single_owner h /\ children_once h /\ parent_ids_agree h
  /\ (forall p c, child_of h p c -> c ∈ seen)
  /\ NoDup (resources d)
  /\ (forall c, c ∈ resources d -> c ∈ seen /\ unattached h c)
  /\ (forall l, l ∈ seen -> placed by_id h0 h d l).

(** A parent reference the second pass can test: anything but a
    non-empty list or dict, which [in] cannot hash. *)
Definition testable (v : json) : Prop :=
  match v with
  | JArr (_ :: _) | JObj (_ :: _) => False
  | _ => True
  end.

(** A parent reference that names no record: [None], a number or a
    boolean, an empty string, list or dict, or a string that is the
    [id] of no record. *)
Definition unresolved (records : list lk_record) (v : json) : Prop :=
  match v with
  | JStr p => p = [] \/ ~ id_present records p
  | JArr (_ :: _) | JObj (_ :: _) => False
  | _ => True
  end.

(** The resource that [r] names as its parent: the one registered
    under its [parent_id], when that is a non-empty string; [None] when
    it names none. *)
Definition parent_loc (by_id : list (pystr * loc)) (r : Resource) : option loc :=
  match parent_id r with
  | JStr p => if nonempty p then dict_get p by_id else None
  | _ => None
  end.

(** Among the resources [ls], in their order, those that name
    [target] as their parent; with [None] those that name none. *)
Definition placed_under (rs : list Resource) (by_id : list (pystr * loc))
    (target : option loc) (ls : list loc) : list loc :=
  filter (fun l => (rs !! l ≫= parent_loc by_id) = target) ls.

(** The resources [rs] of the first pass with the [children] lists the
    second pass has filled after visiting [seen]. *)
Definition heap_after (rs : list Resource) (by_id : list (pystr * loc))
    (seen : list loc) : heap :=
  imap (fun i r => set_children (placed_under rs by_id (Some i) seen) r) rs.

(** [d] with more roots. *)
Definition with_roots (d : ConversionData) (ls : list loc) : ConversionData :=
  {| resources := resources d ++ ls;
     databases := databases d; metadata := metadata d |}.

End Hierarchy.
Export Hierarchy.

Module Identity.

(** A token: 32 characters of [0-9a-f]. *)
Definition is_token (tok : pystr) : Prop :=
  length tok = 32 /\ Forall (fun c => Re.hex c = true) tok.

(** The string ends in a token, a final line feed apart. *)
Definition ends_with_token (s : pystr) : Prop :=
  exists pre tok e, s = pre ++ tok ++ e /\ is_token tok /\ (e = [] \/ e = [nl]).

(** [re.search] finds no token: the ID is synthesized. *)
Definition token_absent (s : pystr) : Prop :=
  Re.re_search id_pattern s = None.

(** The patterns after their first item. *)
Definition after_name : pystr -> option (list pystr) :=
  Re.match_items Re.at_dollar
    [Re.Item Re.ws (Re.Greedy 1) 0; Re.Item Re.hex (Re.Times 32) 0].

Definition token_here : pystr -> option (list pystr) :=
  Re.match_items Re.at_dollar [Re.Item Re.hex (Re.Times 32) 0].

End Identity.
Export Identity.

Module Block.

(** The line is empty once stripped. *)
Definition is_blank (line : pystr) : bool := str_eqb (strip line) [].

(** The key and value of a [Key: value] line. *)
Definition property_of (line : pystr) : option (pystr * pystr) :=
  if is_blank line then None
  else
    match Re.re_match property_pattern (strip line) with
    | Some m => Some (strip (Re.group 1 m), strip (Re.group 2 m))
    | None => None
    end.

(** The lines of the window that stand before its first [Key: value]
    line. *)
Fixpoint before_block (window : list pystr) : list pystr :=
  match window with
  | [] => []
  | l :: w =>
      match property_of l with
      | Some _ => []
      | None => l :: before_block w
      end
  end.

(** The [Key: value] lines that open the window, one after the other. *)
Fixpoint block (window : list pystr) : list (pystr * pystr) :=
  match window with
  | [] => []
  | l :: w =>
      match property_of l with
      | Some kv => kv :: block w
      | None => []
      end
  end.

(** The pairs captured from a window: its first block of [Key: value]
    lines. *)
Definition captured (window : list pystr) : list (pystr * pystr) :=
  block (drop (length (before_block window)) window).

(** 1 when the lines start with a blank one. *)
Definition blank_next (ls : list pystr) : nat :=
  match ls with
  | l :: _ => if is_blank l then 1 else 0
  | [] => 0
  end.

(** Number of lines of the window up to the end of the property block: the
    lines before the block, the block, and the blank line that ends it;
    0 when the window has no [Key: value] line. *)
Definition block_end (window : list pystr) : nat :=
  match captured window with
  | [] => 0
  | kvs =>
      length (before_block window) + length kvs
      + blank_next (drop (length (before_block window) + length kvs) window)
  end.

(** The pairs stored one after the other. *)
Definition record_all (kvs : list (pystr * pystr)) (props : list (pystr * json))
  : list (pystr * json) :=
  fold_left (fun d kv => dict_set (fst kv) (JStr (snd kv)) d) kvs props.

(** The shape of a [Key: value] line: a capital letter, at least one more
    letter or whitespace character, a colon, whitespace, and a non-empty
    rest without line feed. *)
Definition key_value_shape (s : pystr) (U : ascii) (K W V : pystr) : Prop :=
  s = U :: K ++ ":"%char :: W ++ V
  /\ Re.upper_az U = true
  /\ K <> [] /\ forallb Re.letter_or_ws K = true
  /\ W <> [] /\ forallb isspace W = true
  /\ V <> [] /\ forallb Re.dot V = true.

End Block.
Export Block.

(** Concrete objects used in the examples below. *)
(** *** The content codec seen as blocks *)

Module Codec.

(** The string has a character that is not whitespace. *)
Definition has_ink (s : pystr) : bool := existsb (fun c => negb (isspace c)) s.

(** The blocks the parser recognizes, the image lines apart: what a node
    list built by [_markdown_to_prosemirror] says. *)
Inductive md_block :=
| BHeading (level : nat) (text : pystr)
| BRule
| BBullet (text : pystr)
| BQuote (text : pystr)
| BPara (text : pystr).

(** The node the parser builds for a block. *)
Definition node_of (b : md_block) : json :=
  match b with
  | BHeading level text => heading_node level text
  | BRule => rule_node
  | BBullet text => bullet_node text
  | BQuote text => blockquote_node text
  | BPara text => paragraph_node text
  end.

(** The Markdown the serializer writes for the node of a block. *)
Definition render (b : md_block) : pystr :=
  match b with
  | BHeading level text =>
      repeat_char "#" (Nat.min level 6) ++ str " " ++ text ++ [nl]
  | BRule => str "---" ++ [nl]
  | BBullet text => str "- " ++ text ++ [nl; nl; nl]
  | BQuote text => str "> " ++ text ++ [nl; nl; nl]
  | BPara text => text ++ [nl; nl]
  end.

(** No line of the text is an image line. *)
Definition recognized_only (text : pystr) : Prop :=
  Forall (fun line => startswith (str "![") (strip line) = false) (split_nl text).

(** A line that opens a paragraph: none of the other branches takes it. *)
Definition plain_line (t : pystr) : Prop :=
  has_ink t = true
  /\ startswith (str "#") t = false
  /\ is_rule (strip t) = false
  /\ starts_bullet (strip t) = false
  /\ startswith (str ">") (strip t) = false
  /\ startswith (str "![") (strip t) = false.

(** The blocks as the parser leaves them: texts stripped and on one line,
    heading levels from 1 to 6, paragraph texts that parse as one
    paragraph line. *)
Definition canonical (b : md_block) : Prop :=
  match b with
  | BHeading level text => 1 <= level <= 6 /\ strip text = text /\ nl ∉ text
  | BRule => True
  | BBullet text | BQuote text => strip text = text /\ nl ∉ text
  | BPara text => (nl ∉ text) /\ plain_line text
  end.

(** The lines a paragraph takes after its first line. *)
Fixpoint para_taken (ls : list pystr) : list pystr :=
  match ls with
  | l :: ls' =>
      if nonempty (strip l) && negb (_is_special_line l)
      then l :: para_taken ls' else []
  | [] => []
  end.

(** The text of an image paragraph: [![alt](src)]. *)
Definition image_text (alt src : pystr) : pystr :=
  str "![" ++ alt ++ str "](" ++ src ++ str ")".

(** A paragraph the image branch of the parser builds and builds again
    from its own text. *)
Definition image_paragraph (text : pystr) : Prop :=
  exists m,
    Re.re_match image_pattern text = Some m
    /\ text = image_text (Re.group 1 m) (Re.group 2 m).

(** The blocks the parser builds for any text. *)
Definition parsed_block (b : md_block) : Prop :=
  canonical b \/ exists text, b = BPara text /\ image_paragraph text.

(** The image pattern after its second group, and after its first. *)
Definition after_src : pystr -> option (list pystr) :=
  Re.match_items (Re.at_end image_pattern) [Re.Item (Re.lit ")") (Re.Times 1) 0].

Definition after_alt : pystr -> option (list pystr) :=
  Re.match_items (Re.at_end image_pattern)
    [Re.Item (Re.lit "]") (Re.Times 1) 0; Re.Item (Re.lit "(") (Re.Times 1) 0;
     Re.Item Re.dot (Re.Lazy 0) 2; Re.Item (Re.lit ")") (Re.Times 1) 0].

End Codec.
Export Codec.

(** *** A Markdown text as it is written *)

Module Markdown.
















End Markdown.
Export Markdown.

(** *** A page body written by the Notion exporter *)

Module Page.

(** A property that [_extract_properties] reads back as it stands: the key
    is a capital letter A-Z followed by letters and whitespace, at least
    one, is stripped and on one line; the value, formatted, is not empty,
    stripped and on one line. *)
Definition plain_property (py_str : json -> pystr) (kv : pystr * json) : Prop :=
  (exists U K,
      fst kv = U :: K /\ Re.upper_az U = true
      /\ K <> [] /\ forallb Re.letter_or_ws K = true)
  /\ strip (fst kv) = fst kv /\ (nl ∉ fst kv)
  /\ fmt py_str (snd kv) <> []
  /\ strip (fmt py_str (snd kv)) = fmt py_str (snd kv)
  /\ (nl ∉ fmt py_str (snd kv)).

(** What [_format_content] writes after the properties: the content, when
    there is one, and the line of the tags, when there are some. *)
Definition body_parts (r : Resource) : list pystr :=
  (if nonempty (content r) then [content r] else [])
  ++ match tags r with
     | [] => []
     | _ => [[nl] ++ str "Tags: " ++ join (str ", ") (tags r)]
     end.

(** The properties with their values formatted. *)
Definition formatted (py_str : json -> pystr) (ps : list (pystr * json))
  : list (pystr * json) :=
  map (fun kv => (fst kv, JStr (fmt py_str (snd kv)))) ps.

End Page.
Export Page.

(** *** A record as the parser reads it *)

Module Loaded.

Definition as_str (v : json) : option pystr :=
  match v with JStr s => Some s | _ => None end.

Definition as_bool (v : json) : option bool :=
  match v with JBool b => Some b | _ => None end.

Definition as_float (v : json) : option Q :=
  match v with
  | JFloat q => Some q
  | JInt z => Some (inject_Z z)
  | _ => None
  end.

Fixpoint as_strs_list (l : list json) : option (list pystr) :=
  match l with
  | [] => Some []
  | v :: l' => s ← as_str v; r ← as_strs_list l'; Some (s :: r)
  end.

Definition as_strs (v : json) : option (list pystr) :=
  match v with JArr l => as_strs_list l | _ => None end.

Definition prop_of (v : json) : lk_prop :=
  match v with
  | JObj kvs => PropDict (dict_get (str "name") kvs ≫= as_str) (dict_get (str "value") kvs)
  | _ => PropOther v
  end.

Definition props_of (v : json) : option (list lk_prop) :=
  match v with JArr l => Some (map prop_of l) | _ => None end.

Definition banner_of (v : json) : option lk_banner :=
  match v with
  | JObj kvs =>
      Some (mkBanner (dict_get (str "enabled") kvs)
                     (dict_get (str "url") kvs ≫= as_str)
                     (dict_get (str "yPosition") kvs ≫= as_float))
  | _ => None
  end.

(** The record [_parse_resource] reads from a loaded dict whose values
    have the types the exporter writes: each field is what
    [res_data.get] finds under its key.  Only such dicts are read this
    way: a value of another type (a [banner] that is [None], say, on
    which the code fails) has no field here. *)
Definition record_of (kvs : list (pystr * json)) : lk_record :=
  mkRecord (dict_get (str "id") kvs ≫= as_str)
           (dict_get (str "name") kvs ≫= as_str)
           (dict_get_default (str "parentId") JNull kvs)
           (dict_get (str "iconGlyph") kvs ≫= as_str)
           (dict_get (str "iconColor") kvs ≫= as_str)
           (dict_get (str "iconShape") kvs ≫= as_str)
           (dict_get (str "isHidden") kvs ≫= as_bool)
           (dict_get (str "isLocked") kvs ≫= as_bool)
           (dict_get (str "banner") kvs ≫= banner_of)
           (dict_get (str "tags") kvs ≫= as_strs)
           (dict_get (str "aliases") kvs ≫= as_strs)
           (dict_get (str "properties") kvs ≫= props_of)
           (dict_get (str "documents") kvs)
           kvs.

End Loaded.
Export Loaded.

(** ** Node lists that follow the document schema *)

Module Schema.

(** Nesting depth of a value. *)
Fixpoint depth (v : json) : nat :=
  match v with
  | JArr l => S (list_max (map depth l))
  | JObj kvs => S (list_max (map (fun kv => let '(_, x) := kv in depth x) kvs))
  | _ => 0
  end.

Definition is_str (v : json) : bool :=
  match v with JStr _ => true | _ => false end.

(** A heading level of the schema: an [int] of at most 6. *)
Definition is_level (v : json) : bool :=
  match v with JInt z => (z <=? 6)%Z | _ => false end.

(** Every binding of the key [k] holds a value accepted by [ok]. *)
Definition field (k : string) (ok : json -> bool) (kvs : list (pystr * json)) : bool :=
  forallb (fun kv => let '(k', x) := kv in if str_eqb k' (str k) then ok x else true) kvs.

(** [attrs]: an object whose [level] is a heading level. *)
Definition attrs_ok (v : json) : bool :=
  match v with JObj a => field "level" is_level a | _ => false end.

(** A mark: an object whose [attrs] is an object. *)
Definition mark_ok (v : json) : bool :=
  match v with JObj m => field "attrs" is_dict m | _ => false end.

Definition marks_ok (v : json) : bool :=
  match v with JArr ms => forallb mark_ok ms | _ => false end.

(** A node: an object whose [text] is a string, whose [marks] is a list
    of marks, whose [attrs] is an [attrs] object and whose [content] is
    a list of nodes. *)
Fixpoint node_ok (v : json) : bool :=
  match v with
  | JObj kvs =>
      field "text" is_str kvs && field "marks" marks_ok kvs
      && field "attrs" attrs_ok kvs
      && forallb (fun kv =>
           let '(k, x) := kv in
           if str_eqb k (str "content")
           then match x with JArr l => forallb node_ok l | _ => false end
           else true) kvs
  | _ => false
  end.

Definition nodes_ok (v : json) : bool :=
  match v with JArr l => forallb node_ok l | _ => false end.

(** Every part is a [str]. *)
Definition strs (parts : list json) : Prop := Forall (fun p => is_str p = true) parts.

End Schema.
Export Schema.

Module Sample.

Definition res_a : Resource := new_resource (str "a") (str "A") JNull [].
Definition res_b : Resource := new_resource (str "b") (str "B") JNull [].
Definition res_c : Resource := new_resource (str "c") (str "C") JNull [].

(** A record with the given [id] (also its name) and [parentId]. *)
Definition rec_of (i : string) (p : option string) : lk_record :=
  mkRecord (Some (str i)) (Some (str i))
    (match p with Some s => JStr (str s) | None => JNull end)
    None None None None None None None None None None [].

(** A record with the given [id] and a [parentId] of any type. *)
Definition rec_with (i : string) (p : json) : lk_record :=
  mkRecord (Some (str i)) (Some (str i)) p
    None None None None None None None None None None [].

(** An export document holding the given records. *)
Definition export_of (recs : list lk_record) : lk_export :=
  mkExport None None None (Some recs).

(** A stand-in for [str()] where no value is formatted. *)
Definition no_str (v : json) : pystr := [].

(** Three objects, the second and third attached under the first, which
    is the only root. *)
Definition family : heap :=
  [set_children [1; 2] res_a;
   set_parent_id (JStr (str "a")) res_b;
   set_parent_id (JStr (str "a")) res_c].

Definition family_data : ConversionData := add_resource 0 new_data.

Definition family_forest : list rtree := [RNode 0 [RNode 1 []; RNode 2 []]].

Definition sample_token : pystr := str "0123456789abcdef0123456789abcdef".
Definition upper_token : pystr := str "0123456789ABCDEF0123456789ABCDEF".

(** ["# Title\n\nOwner: Alice\nStatus: Active\n\nBody text"] *)
Definition titled_body : pystr :=
  str "# Title" ++ [nl; nl] ++ str "Owner: Alice" ++ [nl] ++ str "Status: Active"
  ++ [nl; nl] ++ str "Body text".

(** ["\n# Title\n\nBody text"] *)
Definition late_heading_body : pystr :=
  [nl] ++ str "# Title" ++ [nl; nl] ++ str "Body text".

(** ["# Title\n\nX: 1\n\nBody text"] *)
Definition short_key_body : pystr :=
  str "# Title" ++ [nl; nl] ++ str "X: 1" ++ [nl; nl] ++ str "Body text".

(** ["# Title\n\nIntro text\nOwner: Alice\n\nBody text"] *)
Definition intro_body : pystr :=
  str "# Title" ++ [nl; nl] ++ str "Intro text" ++ [nl] ++ str "Owner: Alice"
  ++ [nl; nl] ++ str "Body text".

(** A page named "Title" with the given body. *)
Definition page (body : pystr) : Resource :=
  new_resource (str "title") (str "Title") JNull body.


(** A node with the given [type] and [content]. *)
Definition node_with (type : string) (content : json) : json :=
  JObj [(str "type", JStr (str type)); (str "content", content)].

(** A text node with the given [marks]. *)
Definition marked_text (text : string) (marks : json) : json :=
  JObj [(str "type", JStr (str "text")); (str "text", JStr (str text));
        (str "marks", marks)].

(** One object, attached under itself, which is also the only root. *)
Definition self_parented : heap :=
  [set_parent_id (JStr (str "a")) (set_children [0] res_a)].

(** A resource named "Title" with two properties and a body. *)
Definition described : Resource :=
  set_content_properties (str "Body text")
    [(str "Owner", JStr (str "Alice")); (str "Status", JStr (str "Active"))]
    (new_resource (str "t1") (str "Title") JNull []).

(** A resource with the 8-character id of a LegendKeeper export. *)
Definition short_id_page : Resource :=
  new_resource (str "ab12cd34") (str "Page Name") JNull [].

(** A resource with the 32-character id of a Notion export. *)
Definition token_id_page : Resource :=
  new_resource sample_token (str "Page Name") JNull [].


(** A resource with a parent, a property, a tag and a two-line content. *)
Definition chapter : Resource :=
  {| id := str "ab12cd34"; name := str "Chapter"; parent_id := JStr (str "book0001");
     content := str "# Chapter" ++ [nl] ++ str "* first";
     properties := [(str "Status", JStr (str "Draft"))];
     tags := [str "lore"]; aliases := [];
     icon_glyph := None; icon_color := Some (str "#112233"); icon_shape := None;
     banner_url := None; banner_y_position := 30 # 1;
     is_hidden := false; is_locked := true; children := []; images := [];
     raw_data := [] |}.

Definition noon : doc_stamp :=
  mkStamp (str "d0c00001") (str "2024-01-01T12:00:00")
          (str "2024-01-01T12:00:00") (str "d0c00002").

(** Two rows as a [csv.DictReader] yields them for the columns
    Name, Rank, Age. *)
Definition two_rows : list (list (pystr * pystr)) :=
  [[(str "Name", str "Ann"); (str "Rank", str "1"); (str "Age", str "30")];
   [(str "Name", str "Bob"); (str "Rank", str "2"); (str "Age", str "41")]].

(** An export of four records: a root, two children of it given before
    and after a record without parent. *)
Definition four_records : lk_export :=
  export_of [rec_of "a" None; rec_of "b" (Some "a"%string);
             rec_of "c" None; rec_of "d" (Some "a"%string)].

Definition numbered : json :=
  JArr [JObj [(str "type", JStr (str "orderedList"));
              (str "content",
               JArr [JObj [(str "type", JStr (str "listItem"));
                           (str "content",
                            JArr [JObj [(str "type", JStr (str "text"));
                                        (str "text", JStr (str "a"));
                                        (str "marks",
                                         JArr [JObj [(str "type", JStr (str "strong"))]])]])]])]].


End Sample.

(** * Properties *)

Import Re.
Import Sample.

(** ** Strings and dictionaries *)

Section StrFacts.
Lemma ch_eqb_eq a b : ch_eqb a b = true <-> a = b.
Proof. apply Ascii.eqb_eq. Qed.

Lemma ch_eqb_refl a : ch_eqb a a = true.
Proof. apply Ascii.eqb_refl. Qed.

Lemma str_eqb_eq (a b : pystr) : str_eqb a b = true <-> a = b.
Proof.
  revert b. induction a as [|x a IH]; intros [|y b]; simpl; try (split; congruence).
  rewrite andb_true_iff, ch_eqb_eq, IH. split; [intros [-> ->]; done|].
  intros [= -> ->]. done.
Qed.

Lemma str_eqb_refl (a : pystr) : str_eqb a a = true.
Proof. apply str_eqb_eq. done. Qed.

Lemma str_eqb_neq (a b : pystr) : str_eqb a b = false <-> a <> b.
Proof.
  rewrite <- str_eqb_eq. destruct (str_eqb a b); split; congruence.
Qed.
End StrFacts.


Section DictFacts.
Context {V : Type}.
Implicit Types (d : list (pystr * V)) (k : pystr) (v : V).

Lemma dict_get_set_eq k v d : dict_get k (dict_set k v d) = Some v.
Proof.
  induction d as [|[k' v'] d IH]; simpl.
  - rewrite str_eqb_refl. done.
  - destruct (str_eqb k' k) eqn:E; simpl.
    + rewrite str_eqb_refl. done.
    + rewrite E. done.
Qed.

Lemma dict_get_set_ne k k' v d :
  k <> k' -> dict_get k' (dict_set k v d) = dict_get k' d.
Proof.
  intros Hne. induction d as [|[k1 v1] d IH]; simpl.
  - apply str_eqb_neq in Hne. rewrite Hne. done.
  - destruct (str_eqb k1 k) eqn:E; simpl.
    + apply str_eqb_eq in E. subst k1.
      apply str_eqb_neq in Hne. rewrite Hne. done.
    + destruct (str_eqb k1 k'); done.
Qed.

Lemma dict_values_set k v d x :
  x ∈ dict_values (dict_set k v d) -> x = v \/ x ∈ dict_values d.
Proof.
  unfold dict_values. induction d as [|[k1 v1] d IH]; simpl.
  - intros H. apply list_elem_of_singleton in H. auto.
  - destruct (str_eqb k1 k); simpl; intros H; apply elem_of_cons in H.
    + destruct H as [->|H]; [auto|]. right. apply elem_of_cons. auto.
    + destruct H as [->|H]; [right; apply elem_of_cons; auto|].
      destruct (IH H) as [->|H']; [auto|]. right. apply elem_of_cons. auto.
Qed.

Lemma dict_values_set_NoDup k v d :
  NoDup (dict_values d) -> v ∉ dict_values d ->
  NoDup (dict_values (dict_set k v d)).
Proof.
  unfold dict_values. induction d as [|[k1 v1] d IH]; simpl; intros Hnd Hv.
  - apply NoDup_singleton.
  - apply NoDup_cons in Hnd as [Hv1 Hnd]. apply not_elem_of_cons in Hv as [Hne Hv].
    destruct (str_eqb k1 k); simpl.
    + apply NoDup_cons. done.
    + apply NoDup_cons. split; [|auto].
      intros Hin. apply (dict_values_set k v d) in Hin as [->|Hin]; done.
Qed.




Lemma dict_set_keys k v d x :
  x ∈ map fst (dict_set k v d) <-> x = k \/ x ∈ map fst d.
Proof.
  induction d as [|[k1 v1] d IH]; simpl.
  - rewrite list_elem_of_singleton. rewrite elem_of_nil. tauto.
  - destruct (str_eqb k1 k) eqn:E; simpl; rewrite !elem_of_cons.
    + apply str_eqb_eq in E. subst. tauto.
    + rewrite IH. tauto.
Qed.

Lemma wf_dict_set k v d : wf_dict d -> wf_dict (dict_set k v d).
Proof.
  unfold wf_dict. induction d as [|[k1 v1] d IH]; simpl; intros Hnd.
  - apply NoDup_singleton.
  - apply NoDup_cons in Hnd as [Hk Hnd].
    destruct (str_eqb k1 k) eqn:E; simpl.
    + apply str_eqb_eq in E. subst. apply NoDup_cons. done.
    + apply NoDup_cons. split; [|auto].
      rewrite dict_set_keys. intros [->|H]; [|done].
      rewrite str_eqb_refl in E. done.
Qed.

Lemma dict_get_Some_in k v d : dict_get k d = Some v -> v ∈ dict_values d.
Proof.
  unfold dict_values. induction d as [|[k1 v1] d IH]; simpl; [done|].
  destruct (str_eqb k1 k).
  - intros [= ->]. apply elem_of_cons. auto.
  - intros H. apply elem_of_cons. auto.
Qed.

Lemma dict_get_None_keys k d : dict_get k d = None <-> k ∉ map fst d.
Proof.
  induction d as [|[k1 v1] d IH]; simpl.
  - split; [intros _; apply not_elem_of_nil|done].
  - rewrite not_elem_of_cons. destruct (str_eqb k1 k) eqn:E.
    + apply str_eqb_eq in E. subst. split; [done|]. intros [? _]. done.
    + apply str_eqb_neq in E. rewrite IH. split; [auto|tauto].
Qed.

Lemma dict_values_in_get v d :
  wf_dict d -> v ∈ dict_values d -> exists k, dict_get k d = Some v.
Proof.
  unfold wf_dict, dict_values. induction d as [|[k1 v1] d IH]; simpl; intros Hnd Hin.
  - apply elem_of_nil in Hin. done.
  - apply NoDup_cons in Hnd as [Hk Hnd]. apply elem_of_cons in Hin as [->|Hin].
    + exists k1. rewrite str_eqb_refl. done.
    + destruct (IH Hnd Hin) as [k Hk']. exists k.
      destruct (str_eqb k1 k) eqn:E; [|done].
      apply str_eqb_eq in E. subst.
      assert (dict_get k d <> None) as Hn by congruence.
      rewrite dict_get_None_keys in Hn. destruct Hn. done.
Qed.
End DictFacts.

(** ** The resource tree *)


Section AddChild.
Implicit Types (h : heap) (p c l : loc) (r : Resource).

Lemma set_parent_id_children o r : children (set_parent_id o r) = children r.
Proof. reflexivity. Qed.

Lemma set_parent_id_id o r : id (set_parent_id o r) = id r.
Proof. reflexivity. Qed.

(** The heap after [add_child], object by object. *)
Lemma add_child_lookup h p c rp rc :
  h !! p = Some rp -> h !! c = Some rc ->
  exists h',
    add_child p c h = Some h'
    /\ length h' = length h
    /\ (forall l, l <> p -> l <> c -> h' !! l = h !! l)
    /\ (c <> p -> h' !! p = Some (set_children (children rp ++ [c]) rp))
    /\ (c <> p -> h' !! c = Some (set_parent_id (JStr (id rp)) rc))
    /\ (c = p -> h' !! p =
          Some (set_parent_id (JStr (id rp)) (set_children (children rp ++ [c]) rp))).
Proof.
  intros Hp Hc. unfold add_child. rewrite Hp. simpl.
  assert (Hlp : p < length h) by (eapply lookup_lt_Some; eauto).
  assert (Hlc : c < length h) by (eapply lookup_lt_Some; eauto).
  rewrite (list_lookup_insert_eq h p) by done.
  destruct (decide (c = p)) as [->|Hne].
  - rewrite (list_lookup_insert_eq h p) by done. simpl.
    eexists. split; [reflexivity|].
    rewrite !length_insert. split; [done|].
    split; [|split; [done|split; [done|]]].
    + intros l Hl _. rewrite !list_lookup_insert_ne by done. done.
    + intros _. rewrite list_lookup_insert_eq by (rewrite length_insert; done).
      done.
  - rewrite list_lookup_insert_ne by done. rewrite Hc. simpl.
    eexists. split; [reflexivity|].
    rewrite !length_insert. split; [done|].
    split; [|split; [|split; [|done]]].
    + intros l Hl1 Hl2. rewrite !list_lookup_insert_ne by done. done.
    + intros _. rewrite list_lookup_insert_ne by done.
      rewrite list_lookup_insert_eq by done. done.
    + intros _. rewrite list_lookup_insert_eq by (rewrite length_insert; done).
      done.
Qed.

Lemma occurrences_app c (l1 l2 : list loc) :
  occurrences c (l1 ++ l2) = occurrences c l1 + occurrences c l2.
Proof. apply count_occ_app. Qed.

Lemma occurrences_not_in c (l : list loc) : c ∉ l -> occurrences c l = 0.
Proof.
  intros H. apply count_occ_not_In. rewrite <- list_elem_of_In. done.
Qed.

Lemma occurrences_self c : occurrences c [c] = 1.
Proof. unfold occurrences. simpl. destruct (Nat.eq_dec c c); congruence. Qed.
End AddChild.

Section AddChildMore.
Implicit Types (h : heap) (p c l : loc) (r : Resource).

Lemma add_child_inv h p c h' :
  add_child p c h = Some h' ->
  exists rp rc, h !! p = Some rp /\ h !! c = Some rc.
Proof.
  unfold add_child. destruct (h !! p) as [rp|] eqn:Hp; simpl; [|discriminate].
  assert (Hlp : p < length h) by (eapply lookup_lt_Some; eauto).
  rewrite (list_lookup_insert_eq h p) by done.
  destruct (decide (c = p)) as [->|Hne].
  - intros _. eauto.
  - rewrite list_lookup_insert_ne by done.
    destruct (h !! c) as [rc|] eqn:Hc; simpl; [|discriminate]. eauto.
Qed.


Lemma add_child_pointwise h p c h' :
  add_child p c h = Some h' ->
  exists rp, h !! p = Some rp /\ is_Some (h !! c) /\ length h' = length h
    /\ forall l, h' !! l = touched p c (id rp) l <$> h !! l.
Proof.
  intros Hadd. destruct (add_child_inv _ _ _ _ Hadd) as (rp & rc & Hp & Hc).
  destruct (add_child_lookup h p c rp rc Hp Hc)
    as (h2 & Hadd2 & Hlen & Hother & Hp' & Hc' & Hpc).
  rewrite Hadd in Hadd2. injection Hadd2 as <-.
  exists rp. split; [done|]. split; [eauto|]. split; [done|].
  intros l. unfold touched.
  destruct (decide (l = p)) as [Hlp|Hlp]; destruct (decide (l = c)) as [Hlc|Hlc];
    subst.
  - rewrite Hpc, Hp by done. done.
  - rewrite Hp' by done. rewrite Hp. done.
  - rewrite Hc' by done. rewrite Hc. done.
  - rewrite Hother by done. destruct (h !! l); done.
Qed.

Lemma touched_id p c pid l r : id (touched p c pid l r) = id r.
Proof. unfold touched. repeat case_decide; done. Qed.

Lemma touched_children p c pid l r :
  children (touched p c pid l r) =
  if decide (l = p) then children r ++ [c] else children r.
Proof. unfold touched. repeat case_decide; done. Qed.

Lemma touched_parent_id p c pid l r :
  parent_id (touched p c pid l r) =
  if decide (l = c) then JStr pid else parent_id r.
Proof. unfold touched. repeat case_decide; done. Qed.

Lemma touched_rest p c pid l r :
  set_parent_id (parent_id r) (set_children (children r) (touched p c pid l r)) = r.
Proof. unfold touched. destruct r. repeat case_decide; done. Qed.

Lemma child_of_add_child h p c h' :
  add_child p c h = Some h' ->
  forall p' x, child_of h' p' x <-> child_of h p' x \/ (p' = p /\ x = c).
Proof.
  intros Hadd p' x.
  destruct (add_child_pointwise _ _ _ _ Hadd) as (rp & Hp & Hc & Hlen & Hpt).
  unfold child_of. split.
  - intros (r' & Hr' & Hin). rewrite Hpt in Hr'.
    destruct (h !! p') as [r|] eqn:Hr; simpl in Hr'; [|done].
    injection Hr' as <-. rewrite touched_children in Hin.
    case_decide as Hd.
    + subst p'. apply elem_of_app in Hin as [Hin|Hin].
      * left. eauto.
      * apply list_elem_of_singleton in Hin. auto.
    + left. eauto.
  - intros [(r & Hr & Hin)|[-> ->]].
    + exists (touched p c (id rp) p' r). rewrite Hpt, Hr. split; [done|].
      rewrite touched_children. case_decide; [|done].
      apply elem_of_app. auto.
    + exists (touched p c (id rp) p rp). rewrite Hpt, Hp. split; [done|].
      rewrite touched_children. rewrite decide_True by done.
      apply elem_of_app. right. apply list_elem_of_singleton. done.
Qed.

Lemma add_child_single_owner h p c h' :
  add_child p c h = Some h' -> unattached h c ->
  single_owner h -> single_owner h'.
Proof.
  intros Hadd Hun Hso p1 p2 x H1 H2.
  apply (proj1 (child_of_add_child _ _ _ _ Hadd _ _)) in H1.
  apply (proj1 (child_of_add_child _ _ _ _ Hadd _ _)) in H2.
  destruct H1 as [H1|[? ?]], H2 as [H2|[? ?]]; subst.
  - eauto.
  - destruct (Hun _ H1).
  - destruct (Hun _ H2).
  - done.
Qed.

Lemma add_child_children_once h p c h' :
  add_child p c h = Some h' -> unattached h c ->
  children_once h -> children_once h'.
Proof.
  intros Hadd Hun Hco l r' Hr'.
  destruct (add_child_pointwise _ _ _ _ Hadd) as (rp & Hp & Hc & Hlen & Hpt).
  rewrite Hpt in Hr'. destruct (h !! l) as [r|] eqn:Hr; simpl in Hr'; [|done].
  injection Hr' as <-. rewrite touched_children. case_decide as Hd; [|eauto].
  subst l. apply NoDup_app. split; [eauto|]. split; [|apply NoDup_singleton].
  intros x Hx Hx'. apply list_elem_of_singleton in Hx'. subst x.
  apply (Hun p). exists r. done.
Qed.

Lemma add_child_parent_ids_agree h p c h' :
  add_child p c h = Some h' -> unattached h c ->
  parent_ids_agree h -> parent_ids_agree h'.
Proof.
  intros Hadd Hun Hag p' x rp' rx Hp' Hin Hx.
  assert (Hch : child_of h' p' x) by (exists rp'; done).
  apply (proj1 (child_of_add_child _ _ _ _ Hadd _ _)) in Hch.
  destruct (add_child_pointwise _ _ _ _ Hadd) as (rp & Hp & Hc & Hlen & Hpt).
  rewrite Hpt in Hp', Hx.
  destruct (h !! p') as [r0|] eqn:Hr0; simpl in Hp'; [|done].
  destruct (h !! x) as [x0|] eqn:Hx0; simpl in Hx; [|done].
  injection Hp' as <-. injection Hx as <-.
  rewrite touched_id, touched_parent_id.
  destruct Hch as [(r & Hr & Hin0)|[-> ->]].
  - rewrite decide_False.
    + eapply Hag; eauto. congruence.
    + intros ->. apply (Hun p'). exists r. done.
  - rewrite decide_True by done. congruence.
Qed.

Lemma add_child_closed h p c h' :
  add_child p c h = Some h' -> closed h -> closed h'.
Proof.
  intros Hadd Hcl p' x Hch.
  apply (proj1 (child_of_add_child _ _ _ _ Hadd _ _)) in Hch.
  destruct (add_child_pointwise _ _ _ _ Hadd) as (rp & Hp & Hc & Hlen & Hpt).
  rewrite Hlen. destruct Hch as [Hch|[-> ->]]; [eauto|].
  destruct Hc as [rc Hc]. eapply lookup_lt_Some; eauto.
Qed.

(** A cycle after attaching [c] under [p] needs a path from [c] to [p]
    before. *)
Lemma add_child_acyclic h p c h' :
  add_child p c h = Some h' -> ~ rtc (child_of h) c p ->
  acyclic h -> acyclic h'.
Proof.
  intros Hadd Hnp Hac.
  pose proof (child_of_add_child _ _ _ _ Hadd) as Hiff.
  (* every new path either is an old path or passes through the new edge *)
  assert (Hpath : forall x y, tc (child_of h') x y ->
            tc (child_of h) x y \/ (rtc (child_of h) x p /\ rtc (child_of h) c y)).
  { intros x y Hxy. induction Hxy as [x y Hxy|x y z Hxy Hyz IH].
    - apply Hiff in Hxy as [Hxy|[-> ->]].
      + left. apply tc_once. done.
      + right. split; apply rtc_refl.
    - apply Hiff in Hxy as [Hxy|[-> ->]].
      + destruct IH as [IH|[IH1 IH2]].
        * left. eapply tc_l; eauto.
        * right. split; [|done]. eapply rtc_l; eauto.
      + destruct IH as [IH|[IH1 IH2]].
        * right. split; [apply rtc_refl|]. apply tc_rtc. done.
        * destruct Hnp. done. }
  intros x Hx. apply Hpath in Hx as [Hx|[H1 H2]].
  - eapply Hac; eauto.
  - apply Hnp. etrans; eauto.
Qed.
End AddChildMore.

Section Attach.

(** C3 as stated fails: attaching a resource that is already a child of
    the same parent leaves it twice in [parent.children]. *)
Lemma add_child_again_occurs_twice :
  exists h1 h2 rp,
    add_child 0 1 [res_a; res_b] = Some h1
    /\ add_child 0 1 h1 = Some h2
    /\ h2 !! 0 = Some rp
    /\ occurrences 1 (children rp) = 2.
Proof. do 3 eexists. repeat split. Qed.

(** C3 (amended).  [add_child] always succeeds on two objects; afterwards
    the child's [parent_id] is the parent's [id], the parent's [children]
    is the old list with the child appended, so the child occurs once
    more than before, and exactly once when it was not yet a child of
    that parent. *)
Theorem add_child_sets_parent_and_appends :
  forall (h : heap) (p c : loc) (rp rc : Resource),
    h !! p = Some rp -> h !! c = Some rc ->
    exists h' rp' rc',
      add_child p c h = Some h'
      /\ h' !! p = Some rp' /\ h' !! c = Some rc'
      /\ parent_id rc' = JStr (id rp')
      /\ children rp' = children rp ++ [c]
      /\ occurrences c (children rp') = S (occurrences c (children rp))
      /\ (c ∉ children rp -> occurrences c (children rp') = 1).
Proof.
  intros h p c rp rc Hp Hc.
  destruct (add_child_lookup h p c rp rc Hp Hc)
    as (h' & Hadd & _ & _ & Hp' & Hc' & Hpc).
  assert (Hocc : occurrences c (children rp ++ [c]) = S (occurrences c (children rp)))
    by (rewrite occurrences_app, occurrences_self; lia).
  destruct (decide (c = p)) as [->|Hne].
  - eexists h', _, _. split; [exact Hadd|].
    split; [apply Hpc; done|]. split; [apply Hpc; done|].
    simpl. split; [done|]. split; [done|]. split; [exact Hocc|].
    intros Hnin. rewrite Hocc, occurrences_not_in by done. done.
  - eexists h', _, _. split; [exact Hadd|].
    split; [apply Hp'; done|]. split; [apply Hc'; done|].
    simpl. split; [done|]. split; [done|]. split; [exact Hocc|].
    intros Hnin. rewrite Hocc, occurrences_not_in by done. done.
Qed.

Lemma add_child_sets_parent_and_appends_witness :
  exists h' rp' rc',
    add_child 0 1 [res_a; res_b] = Some h'
    /\ h' !! 0 = Some rp' /\ h' !! 1 = Some rc'
    /\ parent_id rc' = JStr (id rp')
    /\ children rp' = children res_a ++ [1]
    /\ occurrences 1 (children rp') = S (occurrences 1 (children res_a))
    /\ (1 ∉ children res_a -> occurrences 1 (children rp') = 1).
Proof.
  apply (add_child_sets_parent_and_appends [res_a; res_b] 0 1 res_a res_b);
    reflexivity.
Defined.

(** C5 as stated fails when the old parent is the resource itself: a
    resource attached under itself and then under another parent has
    its own [parent_id] overwritten, so a field of the old parent
    changes. *)
Lemma reattach_self_parent_changes_old_parent :
  exists h1 h2 r1 r2,
    add_child 0 0 [res_c; res_b] = Some h1
    /\ h1 !! 0 = Some r1 /\ 0 ∈ children r1
    /\ add_child 1 0 h1 = Some h2
    /\ h2 !! 0 = Some r2
    /\ parent_id r1 = JStr (str "c") /\ parent_id r2 = JStr (str "b").
Proof.
  do 4 eexists. repeat split. simpl. apply list_elem_of_here.
Qed.

(** C5 (amended).  For a resource [c] in the [children] of [p1], with
    [p1] another object than [c]: attaching [c] to a different parent
    [p2] sets [c.parent_id] to [p2.id] and leaves the object [p1] as it
    was, field by field, [c] still in its [children]. *)
Theorem reattach_keeps_old_parent :
  forall (h : heap) (p1 p2 c : loc) (r1 r2 rc : Resource),
    h !! p1 = Some r1 -> h !! p2 = Some r2 -> h !! c = Some rc ->
    c ∈ children r1 -> p2 <> p1 -> c <> p1 ->
    exists h' rc',
      add_child p2 c h = Some h'
      /\ h' !! c = Some rc' /\ parent_id rc' = JStr (id r2)
      /\ h' !! p1 = Some r1 /\ c ∈ children r1.
Proof.
  intros h p1 p2 c r1 r2 rc H1 H2 Hc Hin Hp Hcp.
  destruct (add_child_lookup h p2 c r2 rc H2 Hc)
    as (h' & Hadd & _ & Hother & _ & Hc' & Hpc).
  destruct (decide (c = p2)) as [->|Hne].
  - eexists h', _. split; [exact Hadd|]. split; [apply Hpc; done|].
    split; [done|]. split; [|done].
    rewrite Hother by done. done.
  - eexists h', _. split; [exact Hadd|]. split; [apply Hc'; done|].
    split; [done|]. split; [|done].
    rewrite Hother by done. done.
Qed.
End Attach.

(** ** The hierarchy built by [parse_json] *)

Section FirstPass.
Variable py_str : json -> pystr.
Implicit Types (rs : list Resource) (d : list (pystr * loc)).

Lemma parse_resource_children fuel rec r :
  _parse_resource py_str fuel rec = Ok r -> children r = [] /\ id r = rec_id rec
    /\ parent_id r = r_parentId rec.
Proof.
  unfold _parse_resource.
  destruct (_extract_content_from_documents _ _ _); simpl; try discriminate.
  intros [= <-]. done.
Qed.

Lemma first_pass_spec fuel records h0 d0 h by_id :
  first_pass py_str fuel records (h0, d0) = Ok (h, by_id) ->
  exists rs,
    Forall2 (fun rec r => _parse_resource py_str fuel rec = Ok r) records rs
    /\ h = h0 ++ rs /\ by_id = register rs (length h0) d0.
Proof.
  revert h0 d0. induction records as [|rec records IH]; intros h0 d0; simpl.
  - intros [= <- <-]. exists []. rewrite app_nil_r. done.
  - destruct (_parse_resource py_str fuel rec) as [r| |] eqn:Hr; simpl; try discriminate.
    intros H. apply IH in H as (rs & Hrs & -> & ->).
    exists (r :: rs). split; [constructor; done|].
    rewrite <- app_assoc. simpl. rewrite length_app. simpl.
    replace (length h0 + 1) with (S (length h0)) by lia. done.
Qed.

Lemma first_pass_total fuel records h0 d0 :
  Forall (fun rec => exists r, _parse_resource py_str fuel rec = Ok r) records ->
  exists h by_id, first_pass py_str fuel records (h0, d0) = Ok (h, by_id).
Proof.
  revert h0 d0. induction records as [|rec records IH]; intros h0 d0 Hall; simpl.
  - eauto.
  - apply Forall_cons in Hall as [[r Hr] Hall]. rewrite Hr. simpl. apply IH. done.
Qed.

Lemma register_get_Some rs : forall n d k q,
  dict_get k (register rs n d) = Some q ->
  (dict_get k d = Some q /\ forall r, r ∈ rs -> id r <> k)
  \/ (exists j r, q = n + j /\ rs !! j = Some r /\ id r = k
        /\ forall j' r', j < j' -> rs !! j' = Some r' -> id r' <> k).
Proof.
  induction rs as [|r rs IH]; intros n d k q; simpl.
  - intros H. left. split; [done|]. intros r Hr. apply elem_of_nil in Hr. done.
  - intros H. apply IH in H as [[Hget Hno]|(j & r' & -> & Hj & Hid & Hlast)].
    + destruct (decide (id r = k)) as [Heq|Hne].
      * subst k. rewrite dict_get_set_eq in Hget. injection Hget as <-.
        right. exists 0, r. split; [lia|]. split; [done|]. split; [done|].
        intros [|j'] r' Hlt Hr'; [lia|]. simpl in Hr'.
        apply Hno. eapply list_elem_of_lookup_2. done.
      * rewrite dict_get_set_ne in Hget by done. left. split; [done|].
        intros r' Hr'. apply elem_of_cons in Hr' as [->|Hr']; auto.
    + right. exists (S j), r'. split; [lia|]. split; [done|]. split; [done|].
      intros [|j'] r'' Hlt Hr''; [lia|]. simpl in Hr''. eapply Hlast; [|done]. lia.
Qed.

Lemma register_get_None rs : forall n d k,
  dict_get k (register rs n d) = None ->
  dict_get k d = None /\ forall r, r ∈ rs -> id r <> k.
Proof.
  induction rs as [|r rs IH]; intros n d k; simpl.
  - intros H. split; [done|]. intros r Hr. apply elem_of_nil in Hr. done.
  - intros H. apply IH in H as [Hget Hno].
    destruct (decide (id r = k)) as [Heq|Hne].
    + subst k. rewrite dict_get_set_eq in Hget. done.
    + rewrite dict_get_set_ne in Hget by done. split; [done|].
      intros r' Hr'. apply elem_of_cons in Hr' as [->|Hr']; auto.
Qed.

Lemma register_values rs : forall n d,
  NoDup (dict_values d) -> (forall v, v ∈ dict_values d -> v < n) ->
  NoDup (dict_values (register rs n d))
  /\ forall v, v ∈ dict_values (register rs n d) -> v < n + length rs.
Proof.
  induction rs as [|r rs IH]; intros n d Hnd Hlt; simpl.
  - split; [done|]. intros v Hv. apply Hlt in Hv. lia.
  - destruct (IH (S n) (dict_set (id r) n d)) as [H1 H2].
    + apply dict_values_set_NoDup; [done|]. intros Hin. apply Hlt in Hin. lia.
    + intros v Hv. apply dict_values_set in Hv as [->|Hv]; [lia|].
      apply Hlt in Hv. lia.
    + split; [done|]. intros v Hv. apply H2 in Hv. lia.
Qed.

Lemma register_wf rs : forall n d, wf_dict d -> wf_dict (register rs n d).
Proof.
  induction rs as [|r rs IH]; intros n d Hwf; simpl; [done|].
  apply IH. apply wf_dict_set. done.
Qed.
End FirstPass.

Section SecondPass.
Variable by_id : list (pystr * loc).
Variable h0 : heap.
Hypothesis by_id_sound :
  forall k q, dict_get k by_id = Some q -> exists r, h0 !! q = Some r /\ id r = k.

Lemma set_children_self r : set_children (children r) r = r.
Proof. destruct r. done. Qed.

Lemma set_children_touched cs p c pid l r :
  (l = c -> parent_id r = JStr pid) ->
  set_children cs (touched p c pid l r) = set_children cs r.
Proof.
  intros H. unfold touched. destruct r; simpl in *.
  repeat case_decide; try done; unfold set_children, set_parent_id; simpl;
    rewrite H by done; done.
Qed.

Lemma same_but_children_lookup h l r0 :
  same_but_children h0 h -> h0 !! l = Some r0 ->
  exists r, h !! l = Some r /\ set_children (children r0) r = r0.
Proof.
  intros [Hlen Hsame] H0.
  assert (l < length h) as Hl by (rewrite Hlen; eapply lookup_lt_Some; eauto).
  apply lookup_lt_is_Some in Hl as [r Hr]. exists r. split; [done|].
  destruct (Hsame _ _ Hr) as (r0' & H0' & Heq). congruence.
Qed.

Lemma same_fields r0 r cs :
  set_children cs r = r0 -> id r = id r0 /\ parent_id r = parent_id r0.
Proof. intros <-. done. Qed.

Lemma has_known_parent_same r0 r cs :
  set_children cs r = r0 -> has_known_parent r by_id = has_known_parent r0 by_id.
Proof. intros <-. done. Qed.

Lemma has_known_parent_true r :
  has_known_parent r by_id = Some true ->
  exists k, parent_id r = JStr k /\ nonempty k = true /\ dict_mem k by_id = true.
Proof.
  unfold has_known_parent. destruct (parent_id r) as [|b|z|q|k|l|kvs]; simpl;
    try (destruct (truthy_case _); done); try done.
  - destruct b; done.
  - destruct (negb (Z.eqb z 0)); done.
  - destruct (negb (Z.eqb (Qnum q) 0)); done.
  - destruct (nonempty k) eqn:Hk; [|done]. intros [= Hm]. eauto.
  - destruct l; done.
  - destruct kvs; done.
Qed.

Lemma testable_dec (v : json) : {testable v} + {~ testable v}.
Proof.
  destruct v as [| | | | |[|x xs]|[|kv kvs]]; simpl; (left; exact I) || (right; tauto).
Qed.

Lemma has_known_parent_None r :
  has_known_parent r by_id = None <-> ~ testable (parent_id r).
Proof.
  unfold has_known_parent, testable.
  destruct (parent_id r) as [|b|z|q|k|l|kvs]; simpl; try (split; [done|tauto]).
  - destruct b; split; done || tauto.
  - destruct (negb (Z.eqb z 0)); split; done || tauto.
  - destruct (negb (Z.eqb (Qnum q) 0)); split; done || tauto.
  - destruct (nonempty k); split; done || tauto.
  - destruct l; split; done || tauto.
  - destruct kvs; split; done || tauto.
Qed.

Lemma second_pass_spec values : forall h d seen,
  NoDup values -> (forall l, l ∈ values -> l ∉ seen) ->
  (forall l, l ∈ values -> l < length h0) ->
  hierarchy_inv by_id h0 h d seen ->
  match second_pass values by_id (h, d) with
  | Some (h', d') =>
      hierarchy_inv by_id h0 h' d' (seen ++ values)
      /\ databases d' = databases d /\ metadata d' = metadata d
  | None =>
      exists l r0,
        l ∈ values /\ h0 !! l = Some r0 /\ has_known_parent r0 by_id = None
  end.
Proof.
  induction values as [|l values IH]; intros h d seen Hnd Hfresh Hlt Hinv.
  { cbn [second_pass]. rewrite app_nil_r. done. }
  apply NoDup_cons in Hnd as [Hl Hnd].
  destruct Hinv as (Hsame & Hcl & Hso & Hco & Hag & Hch & Hroots & Hrin & Hpl).
  assert (Hl0 : is_Some (h0 !! l)).
  { apply lookup_lt_is_Some. apply Hlt. apply elem_of_cons. auto. }
  destruct Hl0 as [r0 Hr0].
  destruct (same_but_children_lookup h l r0 Hsame Hr0) as (r & Hr & Heq).
  assert (Hlseen : l ∉ seen) by (apply Hfresh; apply elem_of_cons; auto).
  assert (Hun : unattached h l).
  { intros p Hp. apply Hlseen. eauto. }
  cbn [second_pass fst snd]. rewrite Hr. cbn [mbind option_bind].
  rewrite (has_known_parent_same r0 r _ Heq).
  destruct (same_fields _ _ _ Heq) as [Hid Hpid].
  destruct (has_known_parent r0 by_id) as [[|]|] eqn:Hknown; cbn [mbind option_bind];
    [| |exists l, r0; split; [apply elem_of_cons; auto|done]].
  - (* attached under its parent *)
    pose proof Hknown as Hknown'.
    apply has_known_parent_true in Hknown' as (k & Hk & Hne & Hmem).
    unfold dict_mem in Hmem. rewrite Hpid, Hk. cbn [dict_at].
    destruct (dict_get k by_id) as [q|] eqn:Hq; [|done]. cbn [mbind option_bind].
    destruct (by_id_sound _ _ Hq) as (rq0 & Hrq0 & Hidq).
    destruct (same_but_children_lookup h q rq0 Hsame Hrq0) as (rq & Hrq & Heqq).
    destruct (add_child_lookup h q l rq r Hrq Hr) as (h1 & Hadd & _).
    rewrite Hadd. cbn [mbind option_bind].
    destruct (add_child_pointwise _ _ _ _ Hadd) as (rq' & Hrq' & _ & Hlen & Hpt).
    assert (rq' = rq) by congruence. subst rq'.
    assert (Hidrq : id rq = k).
    { destruct (same_fields _ _ _ Heqq) as [-> _]. done. }
    pose proof (child_of_add_child _ _ _ _ Hadd) as Hiff.
    eassert (IH' : _); [apply (IH h1 d (seen ++ [l]))|].
    + done.
    + intros x Hx Hin. apply elem_of_app in Hin as [Hin|Hin].
      * apply (Hfresh x); [apply elem_of_cons; auto|done].
      * apply list_elem_of_singleton in Hin. subst. done.
    + intros x Hx. apply Hlt. apply elem_of_cons. auto.
    + split; [|split; [|split; [|split; [|split; [|split; [|split; [|split]]]]]]].
      * destruct Hsame as [Hlen0 Hsame]. split; [congruence|].
        intros x rx Hx. rewrite Hpt in Hx.
        destruct (h !! x) as [rx0|] eqn:Hx0; simpl in Hx; [|done].
        injection Hx as <-.
        destruct (Hsame _ _ Hx0) as (r0x & H0x & Heqx).
        exists r0x. split; [done|].
        rewrite set_children_touched; [done|].
        intros ->. rewrite Hidrq. congruence.
      * eapply add_child_closed; eauto.
      * eapply add_child_single_owner; eauto.
      * eapply add_child_children_once; eauto.
      * eapply add_child_parent_ids_agree; eauto.
      * intros p c Hpc. apply Hiff in Hpc as [Hpc|[-> ->]].
        -- apply elem_of_app. left. eauto.
        -- apply elem_of_app. right. apply list_elem_of_singleton. done.
      * done.
      * intros c Hc. destruct (Hrin c Hc) as [Hcs Hcu].
        split; [apply elem_of_app; auto|].
        intros p Hp. apply Hiff in Hp as [Hp|[-> ->]]; [eapply Hcu; eauto|].
        done.
      * intros x Hx. apply elem_of_app in Hx as [Hx|Hx].
        -- intros rx0 Hrx0. specialize (Hpl x Hx rx0 Hrx0).
           destruct (has_known_parent rx0 by_id) as [[|]|]; [| |done].
           ++ destruct Hpl as (qx & Hqx & Hcx & Hnr). exists qx.
              split; [done|]. split; [|done]. apply Hiff. auto.
           ++ destruct Hpl as [Hxr Hxu]. split; [done|].
              intros p Hp. apply Hiff in Hp as [Hp|[-> ->]]; [eapply Hxu; eauto|].
              done.
        -- apply list_elem_of_singleton in Hx. subst x.
           intros rx0 Hrx0. assert (rx0 = r0) by congruence. subst rx0.
           rewrite Hknown, Hk. cbn [dict_at].
           exists q. split; [done|]. split; [apply Hiff; auto|].
           intros Hin. apply Hrin in Hin as [Hin _]. done.
    + destruct (second_pass values by_id (h1, d)) as [[h' d']|].
      * destruct IH' as (Hinv' & Hdb & Hmd). rewrite <- app_assoc in Hinv'. done.
      * destruct IH' as (l' & r' & Hl' & Hr' & Hn'). exists l', r'.
        split; [apply elem_of_cons; auto|done].
  - (* a root *)
    eassert (IH' : _); [apply (IH h (add_resource l d) (seen ++ [l]))|].
    + done.
    + intros x Hx Hin. apply elem_of_app in Hin as [Hin|Hin].
      * apply (Hfresh x); [apply elem_of_cons; auto|done].
      * apply list_elem_of_singleton in Hin. subst. done.
    + intros x Hx. apply Hlt. apply elem_of_cons. auto.
    + split; [done|]. split; [done|]. split; [done|]. split; [done|].
      split; [done|]. split; [|split; [|split]].
      * intros p c Hpc. apply elem_of_app. left. eauto.
      * simpl. apply NoDup_app. split; [done|]. split; [|apply NoDup_singleton].
        intros x Hx Hx'. apply list_elem_of_singleton in Hx'. subst x.
        apply Hrin in Hx as [Hx _]. done.
      * simpl. intros c Hc. apply elem_of_app in Hc as [Hc|Hc].
        -- destruct (Hrin c Hc). split; [apply elem_of_app; auto|done].
        -- apply list_elem_of_singleton in Hc. subst c.
           split; [|done]. apply elem_of_app. right.
           apply list_elem_of_singleton. done.
      * intros x Hx. apply elem_of_app in Hx as [Hx|Hx].
        -- intros rx0 Hrx0. specialize (Hpl x Hx rx0 Hrx0).
           destruct (has_known_parent rx0 by_id) as [[|]|]; [| |done].
           ++ destruct Hpl as (qx & Hqx & Hcx & Hnr). exists qx.
              split; [done|]. split; [done|]. simpl.
              intros Hin. apply elem_of_app in Hin as [Hin|Hin]; [done|].
              apply list_elem_of_singleton in Hin. subst. done.
           ++ destruct Hpl as [Hxr Hxu]. split; [|done].
              simpl. apply elem_of_app. auto.
        -- apply list_elem_of_singleton in Hx. subst x.
           intros rx0 Hrx0. assert (rx0 = r0) by congruence. subst rx0.
           rewrite Hknown. split; [|done]. simpl. apply elem_of_app. right.
           apply list_elem_of_singleton. done.
    + destruct (second_pass values by_id (h, add_resource l d)) as [[h' d']|].
      * destruct IH' as (Hinv' & Hdb & Hmd). rewrite <- app_assoc in Hinv'. done.
      * destruct IH' as (l' & r' & Hl' & Hr' & Hn'). exists l', r'.
        split; [apply elem_of_cons; auto|done].
Qed.
End SecondPass.

Section Assembled.
Implicit Types (h : heap) (d : ConversionData).

Lemma child_of_alloc h r p c :
  children r = [] -> child_of (h ++ [r]) p c <-> child_of h p c.
Proof.
  intros Hr. unfold child_of. split.
  - intros (r' & Hr' & Hin). apply lookup_app_Some in Hr' as [Hr'|[Hge Hr']].
    + eauto.
    + apply list_lookup_singleton_Some in Hr' as [_ <-].
      rewrite Hr in Hin. apply elem_of_nil in Hin. done.
  - intros (r' & Hr' & Hin). exists r'. split; [|done].
    apply lookup_app_l_Some. done.
Qed.

Lemma tc_child_of_alloc h r x y :
  children r = [] -> tc (child_of (h ++ [r])) x y -> tc (child_of h) x y.
Proof.
  intros Hr Hxy. induction Hxy as [x y Hxy|x y z Hxy Hyz IH].
  - apply tc_once. apply (child_of_alloc h r); done.
  - eapply tc_l; [|done]. apply (child_of_alloc h r); done.
Qed.

Lemma no_children_invariants h :
  Forall (fun r => children r = []) h ->
  closed h /\ acyclic h /\ single_owner h /\ children_once h /\ parent_ids_agree h
  /\ forall p c, ~ child_of h p c.
Proof.
  intros Hall. rewrite Forall_forall in Hall.
  assert (Hno : forall p c, ~ child_of h p c).
  { intros p c (r & Hr & Hin).
    rewrite (Hall r) in Hin; [apply elem_of_nil in Hin; done|].
    eapply list_elem_of_lookup_2. done. }
  split; [intros p c H; destruct (Hno _ _ H)|].
  split; [|split; [|split; [|split]]]; [| | | |done].
  - intros x Hx. inversion Hx; subst; eapply Hno; eauto.
  - intros p1 p2 c H. destruct (Hno _ _ H).
  - intros p r Hr. rewrite (Hall r).
    + apply NoDup_nil. done.
    + eapply list_elem_of_lookup_2. done.
  - intros p c rp rc Hp Hin. destruct (Hno p c). exists rp. done.
Qed.

Lemma assembled_invariants h d :
  assembled h d ->
  closed h /\ acyclic h /\ single_owner h /\ children_once h /\ parent_ids_agree h.
Proof.
  induction 1 as [|h d r Hasm IH Hr|h d p c h' Hasm IH Hun Hnp Hadd|h d c Hasm IH Hc].
  - destruct (no_children_invariants []) as (?&?&?&?&?&_); [constructor|done].
  - destruct IH as (Hcl & Hac & Hso & Hco & Hag).
    pose proof (child_of_alloc h r) as Hiff.
    split; [|split; [|split; [|split]]].
    + intros p c Hpc. apply Hiff in Hpc; [|done]. apply Hcl in Hpc.
      rewrite length_app. lia.
    + intros x Hx. apply tc_child_of_alloc in Hx; [|done]. eapply Hac; eauto.
    + intros p1 p2 c H1 H2. apply Hiff in H1; [|done]. apply Hiff in H2; [|done].
      eauto.
    + intros p r' Hr'. apply lookup_app_Some in Hr' as [Hr'|[Hge Hr']]; [eauto|].
      apply list_lookup_singleton_Some in Hr' as [_ <-]. rewrite Hr.
      apply NoDup_nil. done.
    + intros p c rp rc Hp Hin Hc.
      assert (Hpc : child_of h p c).
      { apply Hiff; [done|]. exists rp. done. }
      destruct Hpc as (rp0 & Hp0 & Hin0).
      assert (Hlc : c < length h) by (apply (Hcl p); exists rp0; done).
      rewrite lookup_app_l in Hc by done.
      rewrite (lookup_app_l_Some _ _ _ _ Hp0) in Hp. injection Hp as <-.
      eapply Hag; eauto.
  - destruct IH as (Hcl & Hac & Hso & Hco & Hag).
    split; [eapply add_child_closed; eauto|].
    split; [eapply add_child_acyclic; eauto|].
    split; [eapply add_child_single_owner; eauto|].
    split; [eapply add_child_children_once; eauto|].
    eapply add_child_parent_ids_agree; eauto.
  - done.
Qed.
End Assembled.

Section ParseJson.
Variable py_str : json -> pystr.

Lemma register_sound rs k q :
  dict_get k (register rs 0 []) = Some q ->
  exists r, rs !! q = Some r /\ id r = k
    /\ forall j' r', q < j' -> rs !! j' = Some r' -> id r' <> k.
Proof.
  intros H. apply register_get_Some in H as [[H _]|(j & r & -> & Hj & Hid & Hlast)].
  - done.
  - exists r. done.
Qed.

Lemma register_last rs l r :
  rs !! l = Some r ->
  (forall j' r', l < j' -> rs !! j' = Some r' -> id r' <> id r) ->
  dict_get (id r) (register rs 0 []) = Some l.
Proof.
  intros Hl Hlast.
  destruct (dict_get (id r) (register rs 0 [])) as [q|] eqn:Hq.
  - apply register_sound in Hq as (rq & Hrq & Hid & Hqlast).
    destruct (Nat.lt_trichotomy l q) as [Hlt|[->|Hlt]].
    + destruct (Hlast _ _ Hlt Hrq). done.
    + done.
    + destruct (Hqlast _ _ Hlt Hl). done.
  - apply register_get_None in Hq as [_ Hno].
    destruct (Hno r); [|done]. eapply list_elem_of_lookup_2. done.
Qed.

Lemma register_mem rs k :
  dict_mem k (register rs 0 []) = true <-> exists l r, rs !! l = Some r /\ id r = k.
Proof.
  unfold dict_mem. destruct (dict_get k (register rs 0 [])) as [q|] eqn:Hq.
  - apply register_sound in Hq as (r & Hr & Hid & _). split; [eauto|done].
  - apply register_get_None in Hq as [_ Hno]. split; [done|].
    intros (l & r & Hr & Hid). destruct (Hno r); [|done].
    eapply list_elem_of_lookup_2. done.
Qed.

Lemma parsed_no_children fuel recs rs :
  Forall2 (fun rec r => _parse_resource py_str fuel rec = Ok r) recs rs ->
  Forall (fun r => children r = []) rs.
Proof.
  induction 1 as [|rec r recs rs Hr _ IH]; constructor; [|done].
  apply parse_resource_children in Hr as [? _]. done.
Qed.

(** The second pass on what the first pass made of the records. *)
Lemma second_pass_registered rs d :
  Forall (fun r => children r = []) rs -> resources d = [] ->
  match second_pass (dict_values (register rs 0 [])) (register rs 0 []) (rs, d) with
  | Some (h', d') =>
      hierarchy_inv (register rs 0 []) rs h' d' (dict_values (register rs 0 []))
  | None =>
      exists l r0,
        l ∈ dict_values (register rs 0 []) /\ rs !! l = Some r0
        /\ has_known_parent r0 (register rs 0 []) = None
  end.
Proof.
  intros Hall Hd.
  destruct (no_children_invariants rs Hall) as (Hcl & _ & Hso & Hco & Hag & Hno).
  destruct (register_values rs 0 []) as [Hnd Hlt];
    [apply NoDup_nil; done|intros v Hv; apply elem_of_nil in Hv; done|].
  eassert (Hspec : _);
    [apply (second_pass_spec (register rs 0 []) rs) with
       (values := dict_values (register rs 0 [])) (h := rs) (d := d) (seen := [])|].
  - intros k q Hq. apply register_sound in Hq as (r & ? & ? & _). eauto.
  - exact Hnd.
  - intros l _ Hl. apply elem_of_nil in Hl. done.
  - intros l Hl. apply Hlt in Hl. simpl in Hl. exact Hl.
  - split; [|split; [|split; [|split; [|split; [|split; [|split; [|split]]]]]]];
      [| exact Hcl | exact Hso | exact Hco | exact Hag | | | | ].
    + split; [done|]. intros l r Hr. exists r. split; [done|]. destruct r; done.
    + intros p c Hpc. destruct (Hno _ _ Hpc).
    + rewrite Hd. apply NoDup_nil. done.
    + rewrite Hd. intros c Hc. apply elem_of_nil in Hc. done.
    + intros l Hl. apply elem_of_nil in Hl. done.
  - destruct (second_pass _ _ _) as [[h' d']|]; [|exact Hspec].
    destruct Hspec as (Hinv & _). exact Hinv.
Qed.

(** The hierarchy [parse_json] returns, in terms of the resources [rs]
    the first pass created. *)
Lemma parse_json_inv fuel lk_data h d :
  parse_json py_str fuel lk_data = Ok (h, d) ->
  exists rs,
    Forall2 (fun rec r => _parse_resource py_str fuel rec = Ok r)
      (default [] (e_resources lk_data)) rs
    /\ hierarchy_inv (register rs 0 []) rs h d (dict_values (register rs 0 [])).
Proof.
  unfold parse_json.
  destruct (first_pass py_str fuel (default [] (e_resources lk_data)) ([], []))
    as [[h0 by_id]| |] eqn:Hfp; simpl; try discriminate.
  apply first_pass_spec in Hfp as (rs & Hrs & -> & ->). simpl.
  intros Hsp. exists rs. split; [done|].
  match type of Hsp with
  | of_option (second_pass _ _ (_, ?d0)) = _ =>
      pose proof (second_pass_registered rs d0
                    ltac:(eapply parsed_no_children; eauto) eq_refl) as Hreg
  end.
  destruct (second_pass _ _ _) as [[h' d']|]; [|discriminate Hsp].
  simpl in Hsp. injection Hsp as <- <-. exact Hreg.
Qed.

Lemma parse_json_total fuel lk_data :
  Forall (fun rec => exists r, _parse_resource py_str fuel rec = Ok r)
    (default [] (e_resources lk_data)) ->
  Forall (fun rec => testable (r_parentId rec)) (default [] (e_resources lk_data)) ->
  exists h d, parse_json py_str fuel lk_data = Ok (h, d).
Proof.
  intros Hall Htest. unfold parse_json.
  destruct (first_pass_total py_str fuel _ [] [] Hall) as (h0 & by_id & Hfp).
  rewrite Hfp. simpl.
  apply first_pass_spec in Hfp as (rs & Hrs & -> & ->). simpl.
  match goal with
  | |- context [second_pass _ _ (_, ?d0)] =>
      pose proof (second_pass_registered rs d0
                    ltac:(eapply parsed_no_children; eauto) eq_refl) as Hreg
  end.
  destruct (second_pass _ _ _) as [[h' d']|]; [simpl; eauto|].
  destruct Hreg as (l & r0 & _ & Hr0 & Hnone).
  destruct (Forall2_lookup_r _ _ _ _ _ Hrs Hr0) as (rec & Hrec & Hparse).
  apply parse_resource_children in Hparse as (_ & _ & Hpid).
  apply has_known_parent_None in Hnone. destruct Hnone. rewrite Hpid.
  rewrite Forall_forall in Htest. apply Htest.
  eapply list_elem_of_lookup_2. exact Hrec.
Qed.

(** When every record parses, [parse_json] returns or raises: the
    recursion bound is not what stops it. *)
Lemma parse_json_outcome fuel lk_data :
  Forall (fun rec => exists r, _parse_resource py_str fuel rec = Ok r)
    (default [] (e_resources lk_data)) ->
  (exists h d, parse_json py_str fuel lk_data = Ok (h, d))
  \/ parse_json py_str fuel lk_data = Raise.
Proof.
  intros Hall. unfold parse_json.
  destruct (first_pass_total py_str fuel _ [] [] Hall) as (h0 & by_id & Hfp).
  rewrite Hfp. simpl.
  destruct (second_pass _ _ _) as [[h' d']|]; [left; simpl; eauto|right; done].
Qed.

(** The resources the second pass visits are those of the last record
    of each [id]. *)
Lemma visited_last fuel records rs l :
  Forall2 (fun rec r => _parse_resource py_str fuel rec = Ok r) records rs ->
  l ∈ dict_values (register rs 0 []) -> last_with_id records l.
Proof.
  intros Hrs Hl.
  apply dict_values_in_get in Hl as [k Hk]; [|apply register_wf; apply NoDup_nil; done].
  apply register_sound in Hk as (r & Hr & Hid & Hlast).
  destruct (Forall2_lookup_r _ _ _ _ _ Hrs Hr) as (rec & Hrec & Hp).
  apply parse_resource_children in Hp as (_ & Hidr & _).
  exists rec. split; [done|].
  intros l' rec' Hlt Hrec'.
  destruct (Forall2_lookup_l _ _ _ _ _ Hrs Hrec') as (r' & Hr' & Hp').
  apply parse_resource_children in Hp' as (_ & Hidr' & _).
  rewrite <- Hidr, <- Hidr', Hid. eapply Hlast; eauto.
Qed.
End ParseJson.

Section HierarchyClaims.

(** C4 as stated fails.  A resource attached to a second parent is in
    two [children] lists and its [parent_id] differs from the [id] of
    the first parent; and [parse_json] turns two records that name each
    other as parent into a cycle. *)
Lemma hierarchy_not_always_forest :
  (exists h1 h2,
      add_child 0 2 [res_a; res_b; res_c] = Some h1
      /\ add_child 1 2 h1 = Some h2
      /\ ~ single_owner h2 /\ ~ parent_ids_agree h2)
  /\ (exists h d,
        parse_json no_str 1
          (export_of [rec_of "a" (Some "b"%string); rec_of "b" (Some "a"%string)]) = Ok (h, d)
        /\ ~ acyclic h).
Proof.
  split.
  - do 2 eexists. split; [reflexivity|]. split; [reflexivity|]. split.
    + intros Hso. specialize (Hso 0 1 2). discriminate Hso.
      * eexists. split; [reflexivity|]. apply list_elem_of_here.
      * eexists. split; [reflexivity|]. apply list_elem_of_here.
    + intros Hag. specialize (Hag 0 2 _ _ eq_refl (list_elem_of_here _ _) eq_refl).
      discriminate Hag.
  - do 2 eexists. split; [reflexivity|]. intros Hac. apply (Hac 0).
    eapply tc_l; [|apply tc_once].
    + exists (set_children [1] (set_parent_id (JStr (str "b")) (new_resource (str "a") (str "a") (JStr (str "b")) []))).
      split; [reflexivity|]. apply list_elem_of_here.
    + eexists. split; [reflexivity|]. apply list_elem_of_here.
Qed.

(** C4 (amended).  In every state built by creating resources,
    [add_child] and [add_resource] in which [add_child] is only applied
    to a child that is in no [children] list yet and is neither the
    parent nor one of its ancestors, the resources form a forest: no
    cycle, each resource in at most one [children] list and at most
    once, every child's [parent_id] equal to its parent's [id].  The
    hierarchy [parse_json] builds has each resource in at most one
    [children] list, at most once and never also among the roots, and
    every child's [parent_id] equal to its parent's [id]. *)
Theorem hierarchy_forest_when_attached_once :
  (forall h d, assembled h d ->
     acyclic h /\ single_owner h /\ children_once h /\ parent_ids_agree h)
  /\ (forall py_str fuel lk_data h d,
        parse_json py_str fuel lk_data = Ok (h, d) ->
        single_owner h /\ children_once h /\ parent_ids_agree h
        /\ NoDup (resources d)
        /\ forall c, c ∈ resources d -> unattached h c).
Proof.
  split.
  - intros h d Hasm. apply assembled_invariants in Hasm. tauto.
  - intros py_str fuel lk_data h d Hpj.
    apply parse_json_inv in Hpj as (rs & _ & Hinv).
    destruct Hinv as (_ & _ & Hso & Hco & Hag & _ & Hnd & Hroots & _).
    split; [done|]. split; [done|]. split; [done|]. split; [done|].
    intros c Hc. apply Hroots in Hc as [_ Hc]. done.
Qed.

Lemma sample_assembled :
  exists h, add_child 0 2 [res_a; res_b; res_c] = Some h
    /\ assembled h (add_resource 0 new_data).
Proof.
  eexists. split; [reflexivity|].
  apply assembled_root; [|simpl; lia].
  eapply (assembled_attach [res_a; res_b; res_c] new_data 0 2).
  - apply (assembled_new [res_a; res_b]); [|done].
    apply (assembled_new [res_a]); [|done].
    apply (assembled_new []); [|done].
    apply assembled_start.
  - intros p Hp.
    destruct (no_children_invariants [res_a; res_b; res_c]) as (_&_&_&_&_&Hno).
    + repeat constructor.
    + destruct (Hno _ _ Hp).
  - intros Hrtc. apply rtc_inv in Hrtc as [Heq|(y & Hy & _)]; [done|].
    destruct (no_children_invariants [res_a; res_b; res_c]) as (_&_&_&_&_&Hno).
    + repeat constructor.
    + destruct (Hno _ _ Hy).
  - reflexivity.
Qed.

Lemma hierarchy_forest_when_attached_once_witness :
  (exists h, add_child 0 2 [res_a; res_b; res_c] = Some h
     /\ acyclic h /\ single_owner h /\ children_once h /\ parent_ids_agree h)
  /\ (exists h d,
        parse_json no_str 1
          (export_of [rec_of "a" None; rec_of "b" (Some "a"%string)]) = Ok (h, d)
        /\ single_owner h /\ children_once h /\ parent_ids_agree h
        /\ NoDup (resources d)
        /\ forall c, c ∈ resources d -> unattached h c).
Proof.
  split.
  - destruct sample_assembled as (h & Hh & Hasm). exists h. split; [exact Hh|].
    exact (proj1 hierarchy_forest_when_attached_once h _ Hasm).
  - do 2 eexists. split; [reflexivity|].
    apply (proj2 hierarchy_forest_when_attached_once no_str 1
             (export_of [rec_of "a" None; rec_of "b" (Some "a"%string)])).
    reflexivity.
Defined.

(** C9 as stated fails.  A record whose [id] a later record carries as
    well is dropped by the first pass, so it does not become a root
    although its parent reference is absent; an empty [parentId] is
    never looked up, so its record becomes a root although a record with
    the empty [id] exists; and a [parentId] that is a non-empty list
    cannot be resolved, yet it is not treated as a root: the test
    [resource.parent_id in resources_by_id] raises a TypeError. *)
Lemma parse_json_drops_and_skips :
  (exists h d,
      parse_json no_str 1 (export_of [rec_of "a" None; rec_of "a" None]) = Ok (h, d)
      /\ (0 ∉ resources d) /\ unattached h 0)
  /\ (exists h d,
        parse_json no_str 1 (export_of [rec_of "" None; rec_of "x" (Some ""%string)])
          = Ok (h, d)
        /\ 1 ∈ resources d /\ ~ child_of h 0 1)
  /\ parse_json no_str 1 (export_of [rec_with "x" (JArr [JStr (str "a")])]) = Raise.
Proof.
  split; [|split; [|reflexivity]].
  - do 2 eexists. split; [reflexivity|]. split.
    + simpl. intros H. apply list_elem_of_singleton in H. discriminate H.
    + intros p Hp.
      destruct (no_children_invariants
                  [new_resource (str "a") (str "a") JNull [];
                   new_resource (str "a") (str "a") JNull []]) as (_&_&_&_&_&Hno).
      * repeat constructor.
      * destruct (Hno _ _ Hp).
  - do 2 eexists. split; [reflexivity|]. split.
    + simpl. apply elem_of_cons. right. apply list_elem_of_here.
    + intros (r & Hr & Hin). simpl in Hr. injection Hr as <-. simpl in Hin.
      apply elem_of_nil in Hin. done.
Qed.

(** C9 (amended), for records that are dicts whose [id] is a string or
    absent.  Let every record parse on its own.  [parse_json] returns
    when no parent reference is a non-empty list or dict, and raises
    when the parent reference of the last record of an [id] is one (the
    test [in resources_by_id] cannot hash it).  When it returns: a
    record whose [id] a later record carries as well is left out, it is
    neither a root nor a child nor a parent; the last record of an [id]
    is kept; a kept record whose [parentId] names no record ([None], a
    number or boolean, empty, or a string that is the [id] of no
    record) is added to [ConversionData.resources] and to no [children]
    list; a kept record whose [parentId] is the non-empty [id] of some
    record is attached as a child of the kept record with that [id] and
    is not a root. *)
Theorem parse_json_roots_and_children :
  forall py_str fuel lk_data,
    Forall (fun rec => exists r, _parse_resource py_str fuel rec = Ok r)
      (default [] (e_resources lk_data)) ->
    (Forall (fun rec => testable (r_parentId rec))
       (default [] (e_resources lk_data)) ->
     exists h d, parse_json py_str fuel lk_data = Ok (h, d))
    /\ (forall l rec,
          default [] (e_resources lk_data) !! l = Some rec ->
          last_with_id (default [] (e_resources lk_data)) l ->
          ~ testable (r_parentId rec) ->
          parse_json py_str fuel lk_data = Raise)
    /\ forall h d,
         parse_json py_str fuel lk_data = Ok (h, d) ->
         forall l rec,
           default [] (e_resources lk_data) !! l = Some rec ->
           (~ last_with_id (default [] (e_resources lk_data)) l ->
            (l ∉ resources d) /\ unattached h l /\ forall c, ~ child_of h l c)
           /\ (last_with_id (default [] (e_resources lk_data)) l ->
               (exists r, h !! l = Some r /\ id r = rec_id rec)
               /\ (unresolved (default [] (e_resources lk_data)) (r_parentId rec) ->
                   l ∈ resources d /\ unattached h l)
               /\ (forall p, r_parentId rec = JStr p -> p <> [] ->
                     id_present (default [] (e_resources lk_data)) p ->
                     exists q recq,
                       default [] (e_resources lk_data) !! q = Some recq
                       /\ rec_id recq = p
                       /\ last_with_id (default [] (e_resources lk_data)) q
                       /\ child_of h q l /\ l ∉ resources d)).
Proof.
  intros py_str fuel lk_data Hall.
  set (records := default [] (e_resources lk_data)) in *.
  (* what a returned hierarchy says of a record *)
  assert (Hreturned : forall h d,
    parse_json py_str fuel lk_data = Ok (h, d) ->
    forall l rec,
      records !! l = Some rec ->
      (~ last_with_id records l ->
       (l ∉ resources d) /\ unattached h l /\ forall c, ~ child_of h l c)
      /\ (last_with_id records l ->
          testable (r_parentId rec)
          /\ (exists r, h !! l = Some r /\ id r = rec_id rec)
          /\ (unresolved records (r_parentId rec) ->
              l ∈ resources d /\ unattached h l)
          /\ (forall p, r_parentId rec = JStr p -> p <> [] ->
                id_present records p ->
                exists q recq,
                  records !! q = Some recq /\ rec_id recq = p
                  /\ last_with_id records q
                  /\ child_of h q l /\ l ∉ resources d))).
  { intros h d Hpj.
    apply parse_json_inv in Hpj as (rs & Hrs & Hinv). fold records in Hrs.
    destruct Hinv as (Hsame & _ & Hso & _ & _ & Hch & _ & Hrin & Hpl).
    (* records and resources, index by index *)
    assert (Hat : forall j recj, records !! j = Some recj ->
              exists rj, rs !! j = Some rj /\ id rj = rec_id recj
                         /\ parent_id rj = r_parentId recj).
    { intros j recj Hj. destruct (Forall2_lookup_l _ _ _ _ _ Hrs Hj) as (rj & Hrj & Hp).
      apply parse_resource_children in Hp as (_ & ? & ?). eauto. }
    assert (Hback : forall j rj, rs !! j = Some rj ->
              exists recj, records !! j = Some recj /\ id rj = rec_id recj).
    { intros j rj Hj. destruct (Forall2_lookup_r _ _ _ _ _ Hrs Hj) as (recj & Hrecj & Hp).
      apply parse_resource_children in Hp as (_ & ? & ?). eauto. }
    assert (Hkept : forall j recj rj, records !! j = Some recj -> rs !! j = Some rj ->
              last_with_id records j -> dict_get (id rj) (register rs 0 []) = Some j).
    { intros j recj rj Hj Hrj (recj' & Hj' & Hlast). apply register_last; [done|].
      intros j' r' Hlt Hr'. destruct (Hback _ _ Hr') as (rec' & Hrec' & Hid').
      destruct (Hat _ _ Hj) as (rj' & Hrj' & Hidj & _).
      assert (rj' = rj) by congruence. subst rj'.
      assert (recj' = recj) by congruence. subst recj'.
      rewrite Hid', Hidj. eapply Hlast; eauto. }
    assert (Hvisited : forall j, j ∈ dict_values (register rs 0 []) ->
              last_with_id records j).
    { intros j Hj. eapply visited_last; eauto. }
    intros l rec Hl. split.
    - (* a record that is overwritten *)
      intros Hnot. split; [|split].
      + intros Hin. apply Hrin in Hin as [Hin _]. auto.
      + intros q Hq. apply Hch in Hq. auto.
      + intros c Hc. pose proof (Hch _ _ Hc) as Hseen.
        assert (Hc0 : exists rc0, rs !! c = Some rc0).
        { destruct Hc as (rl & Hrl & Hin). destruct Hsame as [Hlen Hsame].
          destruct (Hvisited c Hseen) as (recc & Hrecc & _).
          destruct (Hat _ _ Hrecc) as (rc0 & Hrc0 & _). eauto. }
        destruct Hc0 as [rc0 Hrc0]. specialize (Hpl c Hseen rc0 Hrc0).
        destruct (has_known_parent rc0 (register rs 0 [])) as [[|]|]; [| |done].
        * destruct Hpl as (q & Hq & Hqc & _).
          assert (q = l) by (eapply Hso; eauto). subst q.
          unfold dict_at in Hq. destruct (parent_id rc0); try discriminate Hq.
          apply dict_get_Some_in in Hq. auto.
        * destruct Hpl as [_ Hun]. destruct (Hun _ Hc).
    - (* the last record of its id *)
      intros Hlastl.
      destruct (Hat _ _ Hl) as (r0 & Hr0 & Hid0 & Hpid0).
      pose proof (Hkept _ _ _ Hl Hr0 Hlastl) as Hget.
      assert (Hseen : l ∈ dict_values (register rs 0 [])).
      { eapply dict_get_Some_in. exact Hget. }
      specialize (Hpl l Hseen r0 Hr0).
      destruct (same_but_children_lookup rs h l r0 Hsame Hr0) as (r & Hr & Heq).
      split; [|split; [|split]].
      + destruct (has_known_parent r0 (register rs 0 [])) as [b|] eqn:Hk; [|done].
        rewrite <- Hpid0. destruct (testable_dec (parent_id r0)) as [Ht|Ht]; [done|].
        apply (has_known_parent_None (register rs 0 [])) in Ht. congruence.
      + exists r. split; [done|]. destruct (same_fields _ _ _ Heq) as [-> _]. done.
      + intros Hunres.
        assert (Hk : has_known_parent r0 (register rs 0 []) = Some false).
        { unfold has_known_parent, unresolved in *. rewrite Hpid0.
          destruct (r_parentId rec) as [|b|z|q|p|[|x xs]|[|kv kvs]]; simpl; try done.
          - destruct b; done.
          - destruct (negb (Z.eqb z 0)); done.
          - destruct (negb (Z.eqb (Qnum q) 0)); done.
          - destruct Hunres as [->|Hnp]; [done|].
            destruct (nonempty p); [|done]. f_equal.
            destruct (dict_mem p (register rs 0 [])) eqn:Hmem; [|done].
            apply register_mem in Hmem as (j & rj & Hj & Hidj).
            destruct Hnp. destruct (Hback _ _ Hj) as (recj & Hrecj & Hidr).
            exists j, recj. split; [done|]. congruence. }
        rewrite Hk in Hpl. exact Hpl.
      + intros p Hp Hne (j & recj & Hj & Hidj).
        assert (Hk : has_known_parent r0 (register rs 0 []) = Some true).
        { unfold has_known_parent. rewrite Hpid0, Hp. cbn [truthy in_dict].
          assert (Hnep : nonempty p = true) by (destruct p; done).
          rewrite Hnep. f_equal.
          apply register_mem. destruct (Hat _ _ Hj) as (rj & Hrj & Hidr & _).
          exists j, rj. split; [done|]. congruence. }
        rewrite Hk in Hpl. destruct Hpl as (q & Hq & Hchild & Hnr).
        rewrite Hpid0, Hp in Hq. cbn [dict_at] in Hq.
        pose proof (dict_get_Some_in _ _ _ Hq) as Hqseen.
        apply register_sound in Hq as (rq & Hrq & Hidq & Hqlast).
        destruct (Hback _ _ Hrq) as (recq & Hrecq & Hidrq).
        exists q, recq. split; [done|]. split; [congruence|]. split; [|done].
        apply Hvisited. exact Hqseen. }
  split; [|split].
  - intros Htest. apply parse_json_total; done.
  - intros l rec Hl Hlast Hno.
    destruct (parse_json_outcome py_str fuel lk_data Hall) as [(h & d & Hpj)|Hraise];
      [|exact Hraise].
    destruct (Hreturned h d Hpj l rec Hl) as [_ Hkept].
    destruct (Hkept Hlast) as [Ht _]. destruct (Hno Ht).
  - intros h d Hpj l rec Hl.
    destruct (Hreturned h d Hpj l rec Hl) as [Hdropped Hkept].
    split; [exact Hdropped|].
    intros Hlast. destruct (Hkept Hlast) as (_ & H1 & H2 & H3). done.
Qed.
End HierarchyClaims.

Section Forest.
Variable h : heap.

Lemma rtree_ind' (P : rtree -> Prop) :
  (forall l ks, Forall P ks -> P (RNode l ks)) -> forall t, P t.
Proof.
  intros H. fix IH 1. intros [l ks]. apply H.
  induction ks as [|k ks IHks]; constructor; [apply IH|exact IHks].
Qed.

Lemma shape_node l ks :
  shape h (RNode l ks) <->
  (exists r, h !! l = Some r /\ children r = map rroot ks) /\ Forall (shape h) ks.
Proof.
  simpl.
  assert (Hall : (fix all (ks : list rtree) : Prop :=
                    match ks with
                    | [] => True
                    | k :: ks' => shape h k /\ all ks'
                    end) ks <-> Forall (shape h) ks).
  { induction ks as [|k ks IH]; [split; [constructor|done]|].
    rewrite Forall_cons, <- IH. done. }
  rewrite Hall. done.
Qed.

Lemma rroot_in_preorder t : rroot t ∈ preorder t.
Proof. destruct t. simpl. apply list_elem_of_here. Qed.

Lemma elem_of_flat_map {A B} (f : A -> list B) (l : list A) (y : B) :
  y ∈ flat_map f l <-> exists x, x ∈ l /\ y ∈ f x.
Proof.
  rewrite list_elem_of_In, in_flat_map. split; intros (x & Hx & Hy); exists x.
  - rewrite !list_elem_of_In. done.
  - rewrite <- !list_elem_of_In. done.
Qed.

Lemma length_preorder t : length (preorder t) = size t.
Proof.
  induction t as [l ks IH] using rtree_ind'. simpl. f_equal.
  induction IH as [|k ks Hk _ IHks]; [done|].
  simpl. rewrite length_app, Hk, IHks. done.
Qed.

Lemma length_flat_preorder ts :
  length (flat_map preorder ts) = list_sum (map size ts).
Proof.
  induction ts as [|t ts IH]; [done|].
  simpl. rewrite length_app, length_preorder, IH. done.
Qed.

(** [collect] on a forest. *)
Lemma collect_loop_forest recur ts : forall result,
  Forall (shape h) ts ->
  (forall t, t ∈ ts -> recur (map rroot (rkids t)) = Ok (flat_map preorder (rkids t))) ->
  collect_loop recur h (map rroot ts) result = Ok (result ++ flat_map preorder ts).
Proof.
  induction ts as [|t ts IH]; intros result Hsh Hrec; simpl.
  - rewrite app_nil_r. done.
  - apply Forall_cons in Hsh as [Ht Hts].
    pose proof (Hrec t (list_elem_of_here _ _)) as Hrt.
    destruct t as [l ks]. apply shape_node in Ht as [(r & Hr & Hch) Hks].
    simpl in *. rewrite Hr. simpl. rewrite Hch, Hrt. simpl.
    rewrite IH; [|done|].
    + f_equal. rewrite <- !app_assoc. done.
    + intros t' Ht'. apply Hrec. apply elem_of_cons. auto.
Qed.

Lemma collect_forest : forall fuel ts,
  Forall (shape h) ts -> list_max (map height ts) < fuel ->
  collect fuel h (map rroot ts) = Ok (flat_map preorder ts).
Proof.
  induction fuel as [|fuel IH]; intros ts Hsh Hlt; [lia|].
  simpl. rewrite (collect_loop_forest _ ts []); [done|done|].
  intros [l ks] Ht. simpl. apply IH.
  - rewrite Forall_forall in Hsh. specialize (Hsh _ Ht).
    apply shape_node in Hsh as [_ Hks]. done.
  - assert (height (RNode l ks) <= list_max (map height ts)) as Hle.
    { clear -Ht. induction ts as [|t ts IHts]; [apply elem_of_nil in Ht; done|].
      apply elem_of_cons in Ht as [<-|Ht]; simpl; [lia|].
      specialize (IHts Ht). simpl in IHts. lia. }
    simpl in Hle. lia.
Qed.

(** Every resource of the forest is the root of a subtree that lies in
    the pre-order as one block. *)
Lemma preorder_block_tree t :
  forall a, a ∈ preorder t ->
    exists pre t' post,
      preorder t = pre ++ preorder t' ++ post /\ rroot t' = a
      /\ (shape h t -> shape h t').
Proof.
  induction t as [l ks IH] using rtree_ind'. intros a Ha. simpl in Ha.
  apply elem_of_cons in Ha as [->|Ha].
  - exists [], (RNode l ks), []. rewrite app_nil_r. done.
  - apply elem_of_flat_map in Ha as (k & Hk & Ha).
    rewrite Forall_forall in IH.
    destruct (IH k Hk a Ha) as (pre & t' & post & Heq & Hroot & Hsh).
    apply list_elem_of_split in Hk as (ks1 & ks2 & ->).
    exists (l :: flat_map preorder ks1 ++ pre), t', (post ++ flat_map preorder ks2).
    split; [|split; [done|]].
    + simpl. rewrite flat_map_app. simpl. rewrite Heq.
      rewrite <- !app_assoc. done.
    + intros Hs. apply shape_node in Hs as [_ Hs]. apply Hsh.
      rewrite Forall_forall in Hs. apply Hs.
      apply elem_of_app. right. apply list_elem_of_here.
Qed.

Lemma preorder_block ts :
  forall a, a ∈ flat_map preorder ts ->
    exists pre t' post,
      flat_map preorder ts = pre ++ preorder t' ++ post /\ rroot t' = a
      /\ (Forall (shape h) ts -> shape h t').
Proof.
  intros a Ha. apply elem_of_flat_map in Ha as (k & Hk & Ha).
  destruct (preorder_block_tree k a Ha) as (pre & t' & post & Heq & Hroot & Hsh).
  apply list_elem_of_split in Hk as (ks1 & ks2 & ->).
  exists (flat_map preorder ks1 ++ pre), t', (post ++ flat_map preorder ks2).
  split; [|split; [done|]].
  - rewrite flat_map_app. simpl. rewrite Heq. rewrite <- !app_assoc. done.
  - intros Hs. apply Hsh. rewrite Forall_forall in Hs. apply Hs.
    apply elem_of_app. right. apply list_elem_of_here.
Qed.

(** The children of a resource of the tree lie strictly below its root. *)
Lemma child_below t :
  shape h t -> forall x b, x ∈ preorder t -> child_of h x b ->
  b ∈ flat_map preorder (rkids t).
Proof.
  induction t as [l ks IH] using rtree_ind'. intros Hsh x b Hx Hxb.
  apply shape_node in Hsh as [(r & Hr & Hch) Hks]. simpl in *.
  apply elem_of_cons in Hx as [->|Hx].
  - destruct Hxb as (r' & Hr' & Hin). assert (r' = r) by congruence. subst r'.
    rewrite Hch in Hin. apply list_elem_of_fmap in Hin as (k & -> & Hk).
    apply elem_of_flat_map. exists k. split; [done|]. apply rroot_in_preorder.
  - apply elem_of_flat_map in Hx as (k & Hk & Hx).
    rewrite Forall_forall in IH, Hks.
    specialize (IH k Hk (Hks k Hk) x b Hx Hxb).
    apply elem_of_flat_map. exists k. split; [done|].
    destruct k as [lk kks]. simpl in *. apply elem_of_cons. auto.
Qed.

Lemma descendant_below t b :
  shape h t -> tc (child_of h) (rroot t) b -> b ∈ flat_map preorder (rkids t).
Proof.
  intros Hsh Htc.
  assert (Hsub : forall y, y ∈ flat_map preorder (rkids t) -> y ∈ preorder t).
  { intros y Hy. destruct t. simpl in *. apply elem_of_cons. auto. }
  revert b Htc. apply tc_ind_r.
  - intros b Hb. eapply child_below; [done| |done]. apply rroot_in_preorder.
  - intros y b _ Hyb IH. eapply child_below; [done| |done]. auto.
Qed.

Lemma flat_map_lookup_split {A B} (f : A -> list B) (l : list A) i x :
  l !! i = Some x ->
  flat_map f l = flat_map f (take i l) ++ f x ++ flat_map f (drop (S i) l).
Proof.
  intros Hi. rewrite <- (take_drop_middle l i x Hi) at 1.
  rewrite flat_map_app. done.
Qed.
End Forest.

(** C8.  For a forest held in the heap, its roots being
    [ConversionData.resources], in which no resource occurs twice,
    [get_all_resources] returns (for every recursion bound above the
    height of the forest) the pre-order of the forest: as many entries as
    the forest has resources, none twice, every resource before each of
    its descendants, and the children of a resource in the order of its
    [children] list. *)
Theorem get_all_resources_preorder :
  forall (h : heap) (d : ConversionData) (ts : list rtree),
    resources d = map rroot ts ->
    Forall (shape h) ts ->
    NoDup (flat_map preorder ts) ->
    exists out,
      (forall fuel, list_max (map height ts) < fuel ->
         get_all_resources fuel h d = Ok out)
      /\ out = flat_map preorder ts
      /\ length out = list_sum (map size ts)
      /\ NoDup out
      /\ (forall i j a b,
            out !! i = Some a -> out !! j = Some b ->
            tc (child_of h) a b -> i < j)
      /\ (forall p r i j a b ia ib,
            p ∈ out -> h !! p = Some r ->
            children r !! i = Some a -> children r !! j = Some b -> i < j ->
            out !! ia = Some a -> out !! ib = Some b -> ia < ib).
Proof.
  intros h d ts Hroots Hsh Hnd. exists (flat_map preorder ts).
  split; [|split; [done|split; [apply length_flat_preorder|split; [done|split]]]].
  - intros fuel Hfuel. unfold get_all_resources. rewrite Hroots.
    apply collect_forest; done.
  - intros i j a b Hi Hj Hab.
    assert (Ha : a ∈ flat_map preorder ts) by (eapply list_elem_of_lookup_2; eauto).
    destruct (preorder_block h ts a Ha) as (pre & t & post & Heq & Hroot & Ht).
    specialize (Ht Hsh). subst a.
    pose proof (descendant_below h t b Ht Hab) as Hb.
    apply list_elem_of_lookup_1 in Hb as [k Hk].
    destruct t as [l ks]. simpl in *.
    assert (Hi' : flat_map preorder ts !! length pre = Some l).
    { rewrite Heq. rewrite lookup_app_r by lia. rewrite Nat.sub_diag. done. }
    assert (Hj' : flat_map preorder ts !! (length pre + S k) = Some b).
    { rewrite Heq. rewrite lookup_app_r by lia.
      replace (length pre + S k - length pre) with (S k) by lia. simpl.
      apply lookup_app_l_Some. done. }
    rewrite (NoDup_lookup _ _ _ _ Hnd Hi Hi').
    rewrite (NoDup_lookup _ _ _ _ Hnd Hj Hj'). lia.
  - intros p r i j a b ia ib Hp Hr Hi Hj Hij Hia Hib.
    destruct (preorder_block h ts p Hp) as (pre & t & post & Heq & Hroot & Ht).
    specialize (Ht Hsh). destruct t as [l ks]. simpl in Hroot. subst l.
    apply shape_node in Ht as [(r' & Hr' & Hch) Hks].
    assert (r' = r) by congruence. subst r'. rewrite Hch in Hi, Hj.
    apply list_lookup_fmap_Some in Hi as (ta & -> & Hta).
    apply list_lookup_fmap_Some in Hj as (tb & -> & Htb).
    (* the block of [ta] precedes the block of [tb] among the subtrees *)
    assert (Hdrop : drop (S i) ks !! (j - S i) = Some tb).
    { rewrite lookup_drop. replace (S i + (j - S i)) with j by lia. done. }
    simpl in Heq.
    rewrite (flat_map_lookup_split preorder ks i ta Hta) in Heq.
    rewrite (flat_map_lookup_split preorder (drop (S i) ks) (j - S i) tb Hdrop) in Heq.
    set (x := flat_map preorder (take i ks)) in *.
    set (y := flat_map preorder (take (j - S i) (drop (S i) ks))) in *.
    set (z := flat_map preorder (drop (S (j - S i)) (drop (S i) ks))) in *.
    destruct ta as [la ka], tb as [lb kb]. simpl in *.
    assert (Hia' : flat_map preorder ts !! (length pre + S (length x)) = Some la).
    { rewrite Heq. rewrite lookup_app_r by lia.
      replace (length pre + S (length x) - length pre) with (S (length x)) by lia.
      simpl. rewrite lookup_app_l.
      - rewrite lookup_app_r by lia. rewrite Nat.sub_diag. done.
      - rewrite !length_app. simpl. lia. }
    assert (Hib' : flat_map preorder ts !!
                     (length pre + S (length x + S (length (flat_map preorder ka)) + length y))
                   = Some lb).
    { rewrite Heq. rewrite lookup_app_r by lia.
      match goal with |- _ !! ?n = _ =>
        replace n with (S (length x + S (length (flat_map preorder ka)) + length y)) by lia end.
      simpl. rewrite lookup_app_l.
      - rewrite lookup_app_r by lia.
        replace (length x + S (length (flat_map preorder ka)) + length y - length x)
          with (S (length (flat_map preorder ka) + length y)) by lia.
        simpl. rewrite lookup_app_r by lia.
        replace (length (flat_map preorder ka) + length y - length (flat_map preorder ka))
          with (length y) by lia.
        rewrite lookup_app_r by lia. rewrite Nat.sub_diag. done.
      - rewrite !length_app. simpl. rewrite !length_app. simpl. lia. }
    rewrite (NoDup_lookup _ _ _ _ Hnd Hia Hia').
    rewrite (NoDup_lookup _ _ _ _ Hnd Hib Hib'). lia.
Qed.

Section Witnesses.

Lemma reattach_keeps_old_parent_witness :
  exists h' rc',
    add_child 1 2 family = Some h'
    /\ h' !! 2 = Some rc' /\ parent_id rc' = JStr (str "b")
    /\ h' !! 0 = family !! 0.
Proof.
  destruct (reattach_keeps_old_parent family 0 1 2
              (set_children [1; 2] res_a)
              (set_parent_id (JStr (str "a")) res_b)
              (set_parent_id (JStr (str "a")) res_c))
    as (h' & rc' & H1 & H2 & H3 & H4 & _).
  - reflexivity.
  - reflexivity.
  - reflexivity.
  - simpl. apply elem_of_cons. right. apply list_elem_of_here.
  - lia.
  - lia.
  - exists h', rc'. split; [exact H1|]. split; [exact H2|]. split; [exact H3|].
    exact H4.
Defined.

Lemma family_shape : Forall (shape family) family_forest.
Proof.
  repeat constructor; simpl; eexists; split; reflexivity.
Qed.

Lemma family_NoDup : NoDup (flat_map preorder family_forest).
Proof.
  simpl. apply NoDup_ListNoDup. repeat constructor; simpl; intuition lia.
Qed.

Lemma get_all_resources_preorder_witness :
  exists out,
    get_all_resources 3 family family_data = Ok out
    /\ out = [0; 1; 2] /\ length out = 3.
Proof.
  destruct (get_all_resources_preorder family family_data family_forest)
    as (out & Hrun & Heq & Hlen & _).
  - reflexivity.
  - exact family_shape.
  - exact family_NoDup.
  - exists out. split; [apply Hrun; simpl; lia|]. split; [exact Heq|exact Hlen].
Defined.

Lemma parse_json_roots_and_children_witness :
  exists h d,
    parse_json no_str 1
      (export_of [rec_of "a" None; rec_of "b" (Some "a"%string);
                  rec_of "c" (Some "zz"%string)]) = Ok (h, d)
    /\ 0 ∈ resources d /\ 2 ∈ resources d /\ child_of h 0 1.
Proof.
  destruct (parse_json_roots_and_children no_str 1
              (export_of [rec_of "a" None; rec_of "b" (Some "a"%string);
                          rec_of "c" (Some "zz"%string)]))
    as (Hruns & _ & Hall).
  - repeat constructor; eexists; reflexivity.
  - destruct Hruns as (h & d & Hpj); [repeat constructor|].
    exists h, d. split; [exact Hpj|].
    specialize (Hall h d Hpj). simpl in Hall.
    assert (Hlast : forall l rec,
              [rec_of "a" None; rec_of "b" (Some "a"%string);
               rec_of "c" (Some "zz"%string)] !! l = Some rec ->
              last_with_id [rec_of "a" None; rec_of "b" (Some "a"%string);
                            rec_of "c" (Some "zz"%string)] l).
    { intros l rec Hl. exists rec. split; [exact Hl|].
      intros l' rec' Hlt Hl'.
      destruct l as [|[|[|l]]]; simpl in Hl; try discriminate;
        injection Hl as <-;
        destruct l' as [|[|[|l']]]; simpl in Hl'; try discriminate; try lia;
        injection Hl' as <-; discriminate. }
    split; [|split].
    + destruct (Hall 0 (rec_of "a" None) eq_refl) as [_ Hkept].
      destruct (Hkept (Hlast 0 (rec_of "a" None) eq_refl)) as (_ & Hroot & _).
      destruct Hroot as [Hin _]; [exact I|exact Hin].
    + destruct (Hall 2 (rec_of "c" (Some "zz"%string)) eq_refl) as [_ Hkept].
      destruct (Hkept (Hlast 2 (rec_of "c" (Some "zz"%string)) eq_refl))
        as (_ & Hroot & _).
      destruct Hroot as [Hin _]; [|exact Hin].
      right. intros (l & rec & Hl & Hid).
      destruct l as [|[|[|l]]]; simpl in Hl; try discriminate;
        injection Hl as <-; discriminate.
    + destruct (Hall 1 (rec_of "b" (Some "a"%string)) eq_refl) as [_ Hkept].
      destruct (Hkept (Hlast 1 (rec_of "b" (Some "a"%string)) eq_refl))
        as (_ & _ & Hch).
      destruct (Hch (str "a")) as (q & recq & Hq & Hidq & _ & Hchild & _).
      * reflexivity.
      * discriminate.
      * exists 0, (rec_of "a" None). split; reflexivity.
      * destruct q as [|[|[|q]]]; simpl in Hq; try discriminate;
          injection Hq as <-; try discriminate. exact Hchild.
Defined.
End Witnesses.

(** ** Names and identifiers *)

Section ReFacts.
Implicit Types (f : ascii -> bool) (s m r acc : pystr).

Lemma take_times_Some f n s m r :
  take_times f n s = Some (m, r) ->
  s = m ++ r /\ length m = n /\ forallb f m = true.
Proof.
  revert s m r. induction n as [|n IH]; intros s m r; simpl.
  - intros [= <- <-]. done.
  - destruct s as [|c s]; [done|]. destruct (f c) eqn:Hc; [|done].
    destruct (take_times f n s) as [[m' r']|] eqn:Ht; [|done].
    intros [= <- <-]. destruct (IH _ _ _ Ht) as (-> & <- & Hall).
    simpl. rewrite Hc, Hall. done.
Qed.

Lemma take_times_app f m r :
  forallb f m = true -> take_times f (length m) (m ++ r) = Some (m, r).
Proof.
  induction m as [|c m IH]; simpl; [done|].
  intros H. apply andb_true_iff in H as [-> H]. rewrite IH by done. done.
Qed.

Lemma take_times_None_head f n c s :
  f c = false -> take_times f (S n) (c :: s) = None.
Proof. simpl. intros ->. done. Qed.

Section Rep.
Variable f : ascii -> bool.
Variable k : pystr -> option (list pystr).

Lemma lazy_rep_sound s : forall min acc parts,
  lazy_rep f k min acc s = Some parts ->
  exists m r ps,
    s = m ++ r /\ forallb f m = true /\ min <= length m
    /\ k r = Some ps /\ parts = (rev acc ++ m) :: ps.
Proof.
  induction s as [|c s IH]; intros min acc parts; simpl.
  - unfold stop. destruct min; [|done].
    destruct (k []) as [ps|] eqn:Hk; simpl; [|done].
    intros [= <-]. exists [], [], ps. rewrite (app_nil_r (rev acc)). repeat split; auto; simpl; lia.
  - unfold stop. destruct min as [|min].
    + destruct (k (c :: s)) as [ps|] eqn:Hk; simpl.
      * intros [= <-]. exists [], (c :: s), ps. rewrite (app_nil_r (rev acc)). repeat split; auto; simpl; lia.
      * destruct (f c) eqn:Hc; [|done]. intros H.
        apply IH in H as (m & r & ps & -> & Hall & _ & Hk' & ->).
        exists (c :: m), r, ps. simpl. rewrite Hc, Hall.
        rewrite <- app_assoc. simpl. split; [done|]. split; [done|].
        split; [lia|]. done.
    + destruct (f c) eqn:Hc; [|done]. intros H. simpl in H.
      apply IH in H as (m & r & ps & -> & Hall & Hmin & Hk' & ->).
      exists (c :: m), r, ps. simpl. rewrite Hc, Hall.
      rewrite <- app_assoc. simpl. split; [done|]. split; [done|].
      split; [lia|]. done.
Qed.

Lemma greedy_rep_sound s : forall min acc parts,
  greedy_rep f k min acc s = Some parts ->
  exists m r ps,
    s = m ++ r /\ forallb f m = true /\ min <= length m
    /\ k r = Some ps /\ parts = (rev acc ++ m) :: ps.
Proof.
  assert (Hstop : forall min acc s parts, stop k min acc s = Some parts ->
            exists ps, min = 0 /\ k s = Some ps /\ parts = rev acc :: ps).
  { intros min acc s' parts. unfold stop. destruct min; [|done].
    destruct (k s') as [ps|]; simpl; [|done]. intros [= <-]. eauto. }
  induction s as [|c s IH]; intros min acc parts; simpl.
  - intros H. apply Hstop in H as (ps & -> & Hk & ->).
    exists [], [], ps. rewrite (app_nil_r (rev acc)). repeat split; auto; simpl; lia.
  - destruct (f c) eqn:Hc.
    + destruct (greedy_rep f k (pred min) (c :: acc) s) as [r0|] eqn:Hg.
      * intros [= <-].
        apply IH in Hg as (m & r & ps & -> & Hall & Hmin & Hk' & ->).
        exists (c :: m), r, ps. simpl. rewrite Hc, Hall.
        rewrite <- app_assoc. simpl. split; [done|]. split; [done|].
        split; [lia|]. done.
      * intros H. apply Hstop in H as (ps & -> & Hk & ->).
        exists [], (c :: s), ps. rewrite (app_nil_r (rev acc)). repeat split; auto; simpl; lia.
    + intros H. apply Hstop in H as (ps & -> & Hk & ->).
      exists [], (c :: s), ps. rewrite (app_nil_r (rev acc)). repeat split; auto; simpl; lia.
Qed.

(** A greedy item followed by a character outside its class (or the
    end) takes the whole run at once when the rest matches there. *)
Lemma greedy_rep_run m : forall min acc r ps,
  forallb f m = true -> min <= length m ->
  match r with [] => True | c :: _ => f c = false end ->
  k r = Some ps ->
  greedy_rep f k min acc (m ++ r) = Some ((rev acc ++ m) :: ps).
Proof.
  induction m as [|c m IH]; intros min acc r ps Hall Hmin Hr Hk; simpl.
  - rewrite app_nil_r. assert (min = 0) as -> by (simpl in Hmin; lia).
    destruct r as [|c r]; simpl.
    + rewrite Hk. done.
    + rewrite Hr. simpl. rewrite Hk. done.
  - simpl in Hall. apply andb_true_iff in Hall as [Hc Hall]. rewrite Hc.
    rewrite (IH (pred min) (c :: acc) r ps); [|done|simpl in Hmin; lia|done|done].
    simpl. rewrite <- app_assoc. done.
Qed.

(** A greedy item fails when the rest fails after every prefix of the
    run. *)
Lemma greedy_rep_None s : forall min acc,
  (forall m r, s = m ++ r -> forallb f m = true -> min <= length m -> k r = None) ->
  greedy_rep f k min acc s = None.
Proof.
  intros min acc H.
  destruct (greedy_rep f k min acc s) as [parts|] eqn:Hg; [|done].
  apply greedy_rep_sound in Hg as (m & r & ps & Hs & Hall & Hmin & Hk & _).
  rewrite (H m r Hs Hall Hmin) in Hk. done.
Qed.
End Rep.

Lemma at_dollar_cases s : at_dollar s = true <-> s = [] \/ s = [nl].
Proof.
  destruct s as [|c [|c' s]]; simpl.
  - split; auto.
  - rewrite ch_eqb_eq. split; [intros ->; auto|]. intros [?|[= ->]]; done.
  - split; [done|]. intros [?|?]; done.
Qed.

Lemma forallb_Forall f s : forallb f s = true <-> Forall (fun c => f c = true) s.
Proof.
  induction s as [|c s IH]; simpl; [split; [constructor|done]|].
  rewrite andb_true_iff, Forall_cons, IH. done.
Qed.

Lemma hex_not_ws c : hex c = true -> ws c = false.
Proof.
  unfold hex, digit, ws, isspace, in_range. intros H.
  destruct (Nat.leb_spec 97 (code c)), (Nat.leb_spec (code c) 102),
    (Nat.leb_spec 48 (code c)), (Nat.leb_spec (code c) 57); simpl in H; try done;
    repeat match goal with
           | |- context [Nat.leb ?a ?b] => destruct (Nat.leb_spec a b); try lia
           | |- context [Nat.eqb ?a ?b] => destruct (Nat.eqb_spec a b); try lia
           end; done.
Qed.

Lemma hex_not_nl c : hex c = true -> c <> nl.
Proof. intros H ->. vm_compute in H. done. Qed.
End ReFacts.

Section StripFacts.
Implicit Types (s t : pystr).

Lemma rstrip_ws s : forallb isspace s = true -> rstrip s = [].
Proof.
  induction s as [|c s IH]; simpl; [done|].
  intros H. apply andb_true_iff in H as [Hc H]. rewrite IH, Hc by done. done.
Qed.

Lemma rstrip_app_ws s t : forallb isspace t = true -> rstrip (s ++ t) = rstrip s.
Proof.
  intros Ht. induction s as [|c s IH]; simpl.
  - apply rstrip_ws. done.
  - rewrite IH. done.
Qed.

Lemma lstrip_ws s : forallb isspace s = true -> lstrip s = [].
Proof.
  induction s as [|c s IH]; simpl; [done|].
  intros H. apply andb_true_iff in H as [-> H]. auto.
Qed.

Lemma lstrip_app s t :
  lstrip (s ++ t) = if forallb isspace s then lstrip t else lstrip s ++ t.
Proof.
  induction s as [|c s IH]; simpl; [done|].
  destruct (isspace c); simpl; done.
Qed.

Lemma strip_app_ws s t : forallb isspace t = true -> strip (s ++ t) = strip s.
Proof.
  intros Ht. unfold strip. rewrite lstrip_app.
  destruct (forallb isspace s) eqn:Hs.
  - rewrite !lstrip_ws by done. done.
  - apply rstrip_app_ws. done.
Qed.

Lemma forallb_app' {A} (f : A -> bool) (l1 l2 : list A) :
  forallb f (l1 ++ l2) = forallb f l1 && forallb f l2.
Proof. induction l1 as [|x l1 IH]; simpl; [done|]. rewrite IH, andb_assoc. done. Qed.
End StripFacts.

Section Token.
Implicit Types (s p w tok : pystr).


Lemma is_token_forallb tok : is_token tok -> length tok = 32 /\ forallb hex tok = true.
Proof. intros [H1 H2]. split; [done|]. apply forallb_Forall. done. Qed.

Lemma token_here_sound s ps :
  token_here s = Some ps ->
  exists tok e, s = tok ++ e /\ is_token tok /\ (e = [] \/ e = [nl]) /\ ps = [tok].
Proof.
  unfold token_here. cbn [match_items qnt cls].
  destruct (take_times hex 32 s) as [[m r]|] eqn:Ht; [|done].
  apply take_times_Some in Ht as (-> & Hlen & Hall).
  destruct (at_dollar r) eqn:Hd; simpl; [|done]. intros [= <-].
  exists m, r. split; [done|]. split; [|split; [|done]].
  - split; [done|]. apply forallb_Forall. done.
  - apply at_dollar_cases. done.
Qed.

Lemma token_here_complete tok e :
  is_token tok -> at_dollar e = true -> token_here (tok ++ e) = Some [tok].
Proof.
  intros Htok He. apply is_token_forallb in Htok as [Hlen Hall].
  unfold token_here. cbn [match_items qnt cls].
  rewrite <- Hlen, take_times_app by done.
  rewrite He. done.
Qed.

Lemma after_name_sound s ps :
  after_name s = Some ps ->
  exists w tok e,
    s = w ++ tok ++ e /\ w <> [] /\ forallb isspace w = true /\ is_token tok
    /\ (e = [] \/ e = [nl]) /\ ps = [w; tok].
Proof.
  unfold after_name. cbn [match_items qnt cls]. intros H.
  apply greedy_rep_sound in H as (m & r & ps' & -> & Hall & Hmin & Hk & ->).
  apply token_here_sound in Hk as (tok & e & -> & Htok & He & ->).
  exists m, tok, e. split; [done|]. split; [|done].
  intros ->. simpl in Hmin. lia.
Qed.

Lemma token_head_not_ws tok e :
  is_token tok -> match tok ++ e with [] => True | c :: _ => ws c = false end.
Proof.
  intros [Hlen Hall]. destruct tok as [|c tok]; [done|]. simpl.
  apply Forall_cons in Hall as [Hc _]. apply hex_not_ws. done.
Qed.

Lemma after_name_complete w tok e :
  w <> [] -> forallb isspace w = true -> is_token tok -> at_dollar e = true ->
  after_name (w ++ tok ++ e) = Some [w; tok].
Proof.
  intros Hw Hall Htok He. unfold after_name. cbn [match_items qnt cls].
  rewrite (greedy_rep_run ws _ w 1 [] (tok ++ e) [tok]).
  - done.
  - done.
  - destruct w; [done|simpl; lia].
  - apply token_head_not_ws. done.
  - apply token_here_complete; done.
Qed.

(** A token at the very end is the one found, whatever the decomposition. *)
Lemma token_at_end_unique x tok y tok' e :
  is_token tok -> is_token tok' -> (e = [] \/ e = [nl]) ->
  x ++ tok = y ++ tok' ++ e -> e = [] /\ x = y /\ tok = tok'.
Proof.
  intros [Hlen Hall] [Hlen' Hall'] He Heq.
  destruct He as [->| ->].
  - rewrite app_nil_r in Heq. apply app_inj_2 in Heq as [-> ->]; [done|congruence].
  - exfalso.
    assert (Hlast : last (x ++ tok) = Some nl).
    { rewrite Heq, !app_assoc. apply last_snoc. }
    destruct tok as [|c tok0 _] using rev_ind; [done|].
    rewrite app_assoc, last_snoc in Hlast. injection Hlast as ->.
    apply Forall_app in Hall as [_ Hc]. apply Forall_cons in Hc as [Hc _].
    vm_compute in Hc. discriminate Hc.
Qed.
End Token.

Section Names.
Implicit Types (s p w tok : pystr).

Lemma lazy_rep_unfold f k min acc s :
  lazy_rep f k min acc s =
  match stop k min acc s with
  | Some r => Some r
  | None =>
      match s with
      | c :: s' => if f c then lazy_rep f k (pred min) (c :: acc) s' else None
      | [] => None
      end
  end.
Proof. destruct s; reflexivity. Qed.

Lemma name_items_eq s :
  match_items (at_end name_pattern) (items name_pattern) s
  = lazy_rep dot after_name 1 [] s.
Proof. reflexivity. Qed.

Lemma lazy_name w tok :
  w <> [] -> forallb isspace w = true -> is_token tok ->
  forall p acc min,
    (min = 0 \/ (min = 1 /\ p <> [])) -> nl ∉ p ->
    exists g s',
      p = g ++ s' /\ forallb isspace s' = true
      /\ lazy_rep dot after_name min acc (p ++ w ++ tok)
         = Some [rev acc ++ g; s' ++ w; tok].
Proof.
  intros Hw Hws Htok. induction p as [|c p IH]; intros acc min Hmin Hnl.
  - destruct Hmin as [->|[_ ?]]; [|done].
    exists [], []. split; [done|]. split; [done|].
    rewrite lazy_rep_unfold. unfold stop. simpl.
    rewrite <- (app_nil_r tok) at 1. rewrite after_name_complete by done.
    simpl. rewrite app_nil_r. done.
  - apply not_elem_of_cons in Hnl as [Hc Hnl].
    assert (Hdot : dot c = true).
    { unfold dot. apply negb_true_iff. destruct (ch_eqb c nl) eqn:E; [|done].
      apply ch_eqb_eq in E. done. }
    assert (Hnext : if dot c then lazy_rep dot after_name 0 (c :: acc) (p ++ w ++ tok)
                    = lazy_rep dot after_name 0 (c :: acc) (p ++ w ++ tok) else True)
      by (rewrite Hdot; done).
    destruct (IH (c :: acc) 0) as (g & s' & -> & Hs' & Hrun); [auto|done|].
    assert (Hcont : lazy_rep dot after_name 0 (c :: acc) ((g ++ s') ++ w ++ tok)
                    = Some [rev acc ++ c :: g; s' ++ w; tok]).
    { rewrite Hrun. simpl. rewrite <- app_assoc. done. }
    rewrite lazy_rep_unfold. unfold stop.
    destruct Hmin as [->|[-> _]].
    + destruct (after_name ((c :: g ++ s') ++ w ++ tok)) as [ps|] eqn:Hk.
      * apply after_name_sound in Hk as (w' & tok' & e & Heq & Hw' & Hws' & Htok' & He & ->).
        rewrite (app_assoc _ w tok) in Heq.
        apply token_at_end_unique in Heq as (-> & <- & <-); [|done..].
        rewrite forallb_app' in Hws'. apply andb_true_iff in Hws' as [Hcg _].
        exists [], (c :: g ++ s'). split; [done|]. split; [done|].
        simpl. rewrite app_nil_r. done.
      * simpl. rewrite Hdot. exists (c :: g), s'. split; [done|]. split; [done|].
        exact Hcont.
    + simpl. rewrite Hdot. exists (c :: g), s'. split; [done|]. split; [done|].
      exact Hcont.
Qed.

Lemma extract_name_token p w tok :
  p <> [] -> nl ∉ p -> w <> [] -> Forall (fun c => isspace c = true) w ->
  is_token tok ->
  _extract_name_from_filename (p ++ w ++ tok) = strip p.
Proof.
  intros Hp Hnl Hw Hws Htok. apply forallb_Forall in Hws.
  destruct (lazy_name w tok Hw Hws Htok p [] 1) as (g & s' & -> & Hs' & Hrun);
    [auto|done|].
  unfold _extract_name_from_filename, re_match. rewrite name_items_eq, Hrun.
  simpl. unfold group. simpl. rewrite app_nil_r. rewrite strip_app_ws by done. done.
Qed.

Lemma search_token_end pre tok :
  is_token tok ->
  re_search id_pattern (pre ++ tok) = Some (Matched id_pattern [tok]).
Proof.
  intros Htok. induction pre as [|c pre IH].
  - simpl. destruct tok as [|c tok]; [destruct Htok; done|].
    assert (Hm : re_match id_pattern (c :: tok) = Some (Matched id_pattern [c :: tok])).
    { unfold re_match. change (match_items (at_end id_pattern) (items id_pattern))
        with token_here.
      rewrite <- (app_nil_r (c :: tok)) at 1. rewrite token_here_complete by done.
      done. }
    cbn [re_search]. rewrite Hm. done.
  - assert (Hm : re_match id_pattern ((c :: pre) ++ tok) = None).
    { unfold re_match. change (match_items (at_end id_pattern) (items id_pattern))
        with token_here.
      destruct (token_here ((c :: pre) ++ tok)) as [ps|] eqn:Hk; [|done].
      apply token_here_sound in Hk as (tok' & e & Heq & Htok' & He & _).
      apply (token_at_end_unique (c :: pre) tok [] tok' e) in Heq as (_ & ? & _);
        done. }
    change ((c :: pre) ++ tok) with (c :: (pre ++ tok)) in *.
    cbn [re_search]. rewrite Hm. exact IH.
Qed.

Lemma extract_id_token pre tok :
  is_token tok -> _extract_id_from_filename (pre ++ tok) = tok.
Proof.
  intros Htok. unfold _extract_id_from_filename.
  rewrite search_token_end by done. unfold group0. simpl. apply app_nil_r.
Qed.

Lemma search_sound s m :
  re_search id_pattern s = Some m -> ends_with_token s.
Proof.
  induction s as [|c s IH]; cbn [re_search]; unfold re_match;
    change (match_items (at_end id_pattern) (items id_pattern)) with token_here.
  - destruct (token_here []) as [ps|] eqn:Hk; simpl; [|done]. intros _.
    apply token_here_sound in Hk as (tok & e & Heq & Htok & He & _).
    exists [], tok, e. done.
  - destruct (token_here (c :: s)) as [ps|] eqn:Hk; simpl.
    + intros _. apply token_here_sound in Hk as (tok & e & Heq & Htok & He & _).
      exists [], tok, e. done.
    + intros H. apply IH in H as (pre & tok & e & -> & Htok & He).
      exists (c :: pre), tok, e. done.
Qed.

Lemma no_token_absent s : ~ ends_with_token s -> token_absent s.
Proof.
  intros Hno. unfold token_absent.
  destruct (re_search id_pattern s) as [m|] eqn:Hs; [|done].
  destruct Hno. eapply search_sound. done.
Qed.

(** Without whitespace before the token the name pattern does not
    match. *)
Lemma token_unseparated_name pre tok :
  is_token tok ->
  match last pre with Some c => isspace c = false | None => True end ->
  _extract_name_from_filename (pre ++ tok) = pre ++ tok.
Proof.
  intros Htok Hlast. unfold _extract_name_from_filename, re_match.
  rewrite name_items_eq.
  destruct (lazy_rep dot after_name 1 [] (pre ++ tok)) as [parts|] eqn:Hl; [|done].
  exfalso.
  apply lazy_rep_sound in Hl as (m & r & ps & Heq & _ & _ & Hk & _).
  apply after_name_sound in Hk as (w & tok' & e & -> & Hw & Hws & Htok' & He & _).
  rewrite app_assoc in Heq.
  apply (token_at_end_unique pre tok (m ++ w) tok' e Htok Htok' He) in Heq
    as (_ & -> & _).
  destruct w as [|c w0 _] using rev_ind; [done|].
  rewrite app_assoc, last_snoc in Hlast.
  rewrite forallb_app in Hws. apply andb_true_iff in Hws as [_ Hc].
  cbn [forallb] in Hc. rewrite Hlast in Hc. discriminate Hc.
Qed.

Lemma no_token_name s :
  ~ ends_with_token s -> _extract_name_from_filename s = s.
Proof.
  intros Hno. unfold _extract_name_from_filename, re_match.
  rewrite name_items_eq.
  destruct (lazy_rep dot after_name 1 [] s) as [parts|] eqn:Hl; [|done].
  apply lazy_rep_sound in Hl as (m & r & ps & -> & _ & _ & Hk & _).
  apply after_name_sound in Hk as (w & tok & e & -> & _ & _ & Htok & He & _).
  destruct Hno. exists (m ++ w), tok, e. rewrite <- app_assoc. done.
Qed.
End Names.

Section NameClaims.

Lemma sample_token_ok : is_token sample_token.
Proof. split; [reflexivity|]. repeat constructor. Qed.

(** C6 as stated fails.  A name that ends in a token not preceded by
    whitespace is returned in full, but the ID extraction still returns
    the token instead of an ID synthesized from the name; and a token
    written with capital letters is not recognized at all. *)
Lemma token_taken_without_whitespace :
  (~ (exists p w tok,
        str "Page_" ++ sample_token = p ++ w ++ tok
        /\ w <> [] /\ Forall (fun c => isspace c = true) w /\ is_token tok)
   /\ _extract_name_from_filename (str "Page_" ++ sample_token)
      = str "Page_" ++ sample_token
   /\ _extract_id_from_filename (str "Page_" ++ sample_token) = sample_token
   /\ ~ token_absent (str "Page_" ++ sample_token))
  /\ (_extract_name_from_filename (str "Page Name " ++ upper_token)
      = str "Page Name " ++ upper_token
      /\ token_absent (str "Page Name " ++ upper_token)).
Proof.
  split; [split; [|split; [|split]]|split].
  - intros (p & w & tok & Heq & Hw & Hws & [Hlen _]).
    rewrite app_assoc in Heq. apply app_inj_2 in Heq as [Heq _]; [|done].
    assert (Hlast : last (p ++ w) = Some "_"%char) by (rewrite <- Heq; reflexivity).
    destruct w as [|c w0 _] using rev_ind; [done|].
    rewrite app_assoc, last_snoc in Hlast. injection Hlast as ->.
    apply Forall_app in Hws as [_ Hc]. apply Forall_cons in Hc as [Hc _].
    vm_compute in Hc. discriminate Hc.
  - vm_compute. reflexivity.
  - vm_compute. reflexivity.
  - vm_compute. discriminate.
  - vm_compute. reflexivity.
  - vm_compute. reflexivity.
Qed.

(** C6 (amended).  A token is 32 characters of 0-9 and a-f.  For a name
    made of a non-empty prefix without line feed, a run of whitespace
    and a token, the name extraction returns the prefix stripped and the
    ID extraction the token.  The ID extraction returns a token that
    ends the name whatever stands before it, while the name extraction
    returns the full name, token included, when nothing or a character
    that is not whitespace stands before the token.  For a name that
    does not end in a token (a final line feed apart) both leave the
    name alone:
    the full name is returned, no token is found and the ID is the name
    in lower case with spaces replaced by underscores; a token-like
    substring elsewhere changes nothing.  In particular "Page Name "
    followed by a token gives ("Page Name", token) and "Page Name" gives
    ("Page Name", no token). *)
Theorem extract_name_and_id :
  (forall p w tok,
      p <> [] -> nl ∉ p -> w <> [] -> Forall (fun c => isspace c = true) w ->
      is_token tok ->
      _extract_name_from_filename (p ++ w ++ tok) = strip p
      /\ _extract_id_from_filename (p ++ w ++ tok) = tok)
  /\ (forall pre tok,
        is_token tok ->
        _extract_id_from_filename (pre ++ tok) = tok
        /\ ~ token_absent (pre ++ tok))
  /\ (forall pre tok,
        is_token tok ->
        match last pre with Some c => isspace c = false | None => True end ->
        _extract_name_from_filename (pre ++ tok) = pre ++ tok)
  /\ (forall s,
        ~ ends_with_token s ->
        _extract_name_from_filename s = s
        /\ token_absent s
        /\ _extract_id_from_filename s = replace_char " " "_" (lower s))
  /\ (forall tok,
        is_token tok ->
        _extract_name_from_filename (str "Page Name " ++ tok) = str "Page Name"
        /\ _extract_id_from_filename (str "Page Name " ++ tok) = tok)
  /\ (_extract_name_from_filename (str "Page Name") = str "Page Name"
      /\ token_absent (str "Page Name")
      /\ _extract_id_from_filename (str "Page Name") = str "page_name").
Proof.
  split; [|split; [|split; [|split; [|split]]]].
  - intros p w tok Hp Hnl Hw Hws Htok. split.
    + apply extract_name_token; done.
    + rewrite app_assoc. apply extract_id_token. done.
  - intros pre tok Htok. split; [apply extract_id_token; done|].
    unfold token_absent. rewrite search_token_end by done. done.
  - intros pre tok Htok Hlast. apply token_unseparated_name; done.
  - intros s Hno. split; [apply no_token_name; done|].
    pose proof (no_token_absent s Hno) as Habs. split; [done|].
    unfold _extract_id_from_filename. rewrite Habs. done.
  - intros tok Htok. split.
    + change (str "Page Name " ++ tok) with (str "Page Name" ++ str " " ++ tok).
      rewrite extract_name_token; try done.
      * intros Hin. vm_compute in Hin.
        repeat (apply elem_of_cons in Hin as [Hin|Hin]; [discriminate Hin|]).
        apply elem_of_nil in Hin. done.
      * repeat constructor.
    + apply extract_id_token. done.
  - vm_compute. done.
Qed.

Lemma extract_name_and_id_witness :
  (_extract_name_from_filename (str "My  Page" ++ str "  " ++ sample_token)
   = str "My  Page"
   /\ _extract_id_from_filename (str "My  Page" ++ str "  " ++ sample_token)
      = sample_token)
  /\ _extract_id_from_filename (str "x" ++ sample_token) = sample_token
  /\ _extract_name_from_filename (str "x" ++ sample_token) = str "x" ++ sample_token
  /\ _extract_name_from_filename (sample_token ++ str " draft")
     = sample_token ++ str " draft"
  /\ _extract_name_from_filename (str "Page Name " ++ sample_token) = str "Page Name".
Proof.
  destruct extract_name_and_id as (H1 & H2 & Hfull & H3 & H4 & _).
  split; [|split; [|split; [|split]]].
  - apply (H1 (str "My  Page") (str "  ") sample_token).
    + discriminate.
    + intros Hin. vm_compute in Hin.
      repeat (apply elem_of_cons in Hin as [Hin|Hin]; [discriminate Hin|]).
      apply elem_of_nil in Hin. done.
    + discriminate.
    + repeat constructor.
    + exact sample_token_ok.
  - apply (H2 (str "x") sample_token). exact sample_token_ok.
  - apply (Hfull (str "x") sample_token); [exact sample_token_ok|reflexivity].
  - apply (H3 (sample_token ++ str " draft")).
    intros (pre & tok & e & Heq & [Hlen Hall] & He).
    assert (Hl : last (pre ++ tok ++ e) = Some "t"%char) by (rewrite <- Heq; reflexivity).
    destruct He as [-> | ->].
    + rewrite app_nil_r in Hl. destruct tok as [|c tok0 _] using rev_ind; [done|].
      rewrite app_assoc, last_snoc in Hl. injection Hl as ->.
      apply Forall_app in Hall as [_ Hc]. apply Forall_cons in Hc as [Hc _].
      vm_compute in Hc. discriminate Hc.
    + rewrite !app_assoc, last_snoc in Hl. discriminate Hl.
  - apply (H4 sample_token). exact sample_token_ok.
Defined.
End NameClaims.

(** ** Properties read from a page body *)

Section Scan.
Variable lines : list pystr.
Variable start : nat.

Lemma window_cons i n :
  i < length lines ->
  take (S n) (drop i lines) = nth i lines [] :: take n (drop (S i) lines).
Proof.
  intros Hi. destruct (lookup_lt_is_Some_2 lines i Hi) as [l Hl].
  rewrite (drop_S lines l i Hl). simpl. f_equal.
  symmetry. apply nth_lookup_Some with (d := []) in Hl. exact Hl.
Qed.

Lemma scan_step i range pend props :
  scan_properties lines start (i :: range) (pend, props) =
  if is_blank (nth i lines []) then
    if start <? pend then (i + 1, props)
    else scan_properties lines start range (pend, props)
  else
    match property_of (nth i lines []) with
    | Some (k, v) =>
        scan_properties lines start range (i + 1, dict_set k (JStr v) props)
    | None =>
        if start <? pend then (pend, props)
        else scan_properties lines start range (pend, props)
    end.
Proof.
  simpl. unfold property_of, is_blank.
  destruct (str_eqb (strip (nth i lines [])) []); [done|].
  destruct (re_match property_pattern (strip (nth i lines []))); done.
Qed.

Lemma property_of_blank l : is_blank l = true -> property_of l = None.
Proof. unfold property_of. intros ->. done. Qed.

(** After a captured line: the rest of the block. *)
Lemma scan_in_block n : forall i props,
  start < i -> i + n <= length lines ->
  scan_properties lines start (seq i n) (i, props) =
  (i + length (block (take n (drop i lines)))
   + blank_next (drop (length (block (take n (drop i lines)))) (take n (drop i lines))),
   record_all (block (take n (drop i lines))) props).
Proof.
  induction n as [|n IH]; intros i props Hlt Hle.
  - simpl. f_equal. lia.
  - rewrite window_cons by lia. cbn [seq]. rewrite scan_step.
    apply Nat.ltb_lt in Hlt as Hltb. rewrite Hltb.
    cbn [block]. destruct (is_blank (nth i lines [])) eqn:Hb.
    + rewrite property_of_blank by done. simpl. rewrite Hb. f_equal. lia.
    + destruct (property_of (nth i lines [])) as [[k v]|] eqn:Hp.
      * replace (i + 1) with (S i) by lia. rewrite IH by lia.
        simpl. f_equal. lia.
      * simpl. rewrite Hb. f_equal. lia.
Qed.

(** Before any captured line: up to the block and through it. *)
Lemma scan_before_block n : forall i props,
  start <= i -> i + n <= length lines ->
  scan_properties lines start (seq i n) (start, props) =
  match captured (take n (drop i lines)) with
  | [] => (start, props)
  | _ => (i + block_end (take n (drop i lines)),
          record_all (captured (take n (drop i lines))) props)
  end.
Proof.
  induction n as [|n IH]; intros i props Hlt Hle.
  - done.
  - rewrite window_cons by lia. cbn [seq]. rewrite scan_step.
    rewrite Nat.ltb_irrefl.
    unfold block_end, captured. cbn [before_block].
    destruct (property_of (nth i lines [])) as [[k v]|] eqn:Hp.
    + assert (Hb : is_blank (nth i lines []) = false).
      { destruct (is_blank (nth i lines [])) eqn:Hb; [|done].
        rewrite property_of_blank in Hp by done. done. }
      rewrite Hb. cbn [length drop block]. rewrite Hp.
      replace (i + 1) with (S i) by lia. rewrite scan_in_block by lia.
      cbn [length Nat.add drop]. f_equal. lia.
    + assert (Hsame : (if is_blank (nth i lines [])
                       then scan_properties lines start (seq (S i) n) (start, props)
                       else scan_properties lines start (seq (S i) n) (start, props))
                      = scan_properties lines start (seq (S i) n) (start, props))
        by (destruct (is_blank (nth i lines [])); done).
      rewrite Hsame. rewrite IH by lia.
      cbn [length drop]. unfold captured, block_end, captured.
      destruct (block (drop (length (before_block (take n (drop (S i) lines))))
                         (take n (drop (S i) lines)))); [done|].
      cbn [Nat.add drop length]. f_equal. lia.
Qed.
End Scan.

Section ExtractProperties.

Lemma split_nl_nonempty s : split_nl s <> [].
Proof.
  induction s as [|c s IH]; simpl; [done|].
  destruct (ch_eqb c nl); [done|]. destruct (split_nl s); done.
Qed.

Lemma content_start_le lines : lines <> [] -> content_start lines <= length lines.
Proof.
  intros Hne. unfold content_start.
  destruct lines as [|l0 rest]; [done|].
  destruct (startswith (str "# ") (strip l0)).
  - destruct (1 <? length (l0 :: rest)) eqn:E; simpl.
    + apply Nat.ltb_lt in E. destruct (str_eqb _ _); simpl in *; lia.
    + simpl. lia.
  - simpl. destruct (str_eqb (strip l0) []); simpl; lia.
Qed.

Lemma window_take (lines : list pystr) start :
  start <= length lines ->
  take (Nat.min (start + 20) (length lines) - start) (drop start lines)
  = take 20 (drop start lines).
Proof.
  intros Hle. destruct (Nat.le_gt_cases (start + 20) (length lines)) as [H|H].
  - rewrite Nat.min_l by done. f_equal. lia.
  - rewrite Nat.min_r by lia.
    rewrite (take_ge (drop start lines) (length lines - start))
      by (rewrite length_drop; lia).
    rewrite (take_ge (drop start lines) 20) by (rewrite length_drop; lia).
    done.
Qed.

(** [_extract_properties] in terms of the property block of the scan
    window. *)
Lemma extract_properties_spec (r : Resource) :
  _extract_properties r =
  set_content_properties
    (strip (join [nl]
              (drop (content_start (split_nl (content r))
                     + block_end (take 20 (drop (content_start (split_nl (content r)))
                                                (split_nl (content r)))))
                    (split_nl (content r)))))
    (record_all (captured (take 20 (drop (content_start (split_nl (content r)))
                                         (split_nl (content r)))))
                (properties r))
    r.
Proof.
  unfold _extract_properties.
  set (lines := split_nl (content r)).
  set (start := content_start lines).
  assert (Hle : start <= length lines).
  { apply content_start_le. apply split_nl_nonempty. }
  rewrite scan_before_block; [|done|lia].
  rewrite window_take by done.
  unfold block_end.
  destruct (captured (take 20 (drop start lines))) eqn:Hc.
  - simpl. rewrite Nat.add_0_r. done.
  - done.
Qed.
End ExtractProperties.

Section PropertyPattern.
Implicit Types (s K W V : pystr).

Lemma rstrip_last s x c : rstrip s = x ++ [c] -> isspace c = false.
Proof.
  revert x. induction s as [|a s IH]; intros x; simpl.
  - destruct x; done.
  - destruct (rstrip s) as [|b r] eqn:Hr.
    + destruct (isspace a) eqn:Ha; [destruct x; done|].
      destruct x as [|? [|]]; intros [= <-]; done.
    + destruct x as [|a' x]; [done|]. intros [= <- Hx]. eapply IH. exact Hx.
Qed.

Lemma strip_last s x c : strip s = x ++ [c] -> isspace c = false.
Proof. apply rstrip_last. Qed.

Lemma take_one f s m r :
  take_times f 1 s = Some (m, r) -> exists c, m = [c] /\ s = c :: r /\ f c = true.
Proof.
  intros H. apply take_times_Some in H as (-> & Hlen & Hall).
  destruct m as [|c [|]]; try done. simpl in Hall.
  rewrite andb_true_r in Hall. eauto.
Qed.

Lemma property_items_sound s parts :
  match_items at_dollar (items property_pattern) s = Some parts ->
  exists U K W V e,
    s = U :: K ++ ":"%char :: W ++ V ++ e
    /\ upper_az U = true
    /\ K <> [] /\ forallb letter_or_ws K = true
    /\ W <> [] /\ forallb isspace W = true
    /\ V <> [] /\ forallb dot V = true
    /\ (e = [] \/ e = [nl])
    /\ parts = [[U]; K; [":"%char]; W; V].
Proof.
  cbn [items property_pattern match_items qnt cls].
  destruct (take_times upper_az 1 s) as [[m1 r1]|] eqn:H1; [|done].
  apply take_one in H1 as (U & -> & -> & HU).
  destruct (greedy_rep _ _ 1 [] r1) as [p1|] eqn:H2; [|done].
  simpl. intros [= <-].
  apply greedy_rep_sound in H2 as (K & r2 & p2 & -> & HK & HKlen & H3 & ->).
  destruct (take_times (lit ":") 1 r2) as [[m3 r3]|] eqn:H4; [|done].
  apply take_one in H4 as (c & -> & -> & Hc).
  apply ch_eqb_eq in Hc. subst c.
  destruct (greedy_rep _ _ 1 [] r3) as [p3|] eqn:H5; [|done].
  simpl in H3. injection H3 as <-.
  apply greedy_rep_sound in H5 as (W & r4 & p4 & -> & HW & HWlen & H6 & ->).
  apply greedy_rep_sound in H6 as (V & e & p5 & -> & HV & HVlen & H7 & ->).
  destruct (at_dollar e) eqn:He; [|done]. injection H7 as <-.
  exists U, K, W, V, e. simpl.
  split; [done|]. split; [done|].
  split; [intros ->; simpl in HKlen; lia|]. split; [done|].
  split; [intros ->; simpl in HWlen; lia|]. split; [done|].
  split; [intros ->; simpl in HVlen; lia|]. split; [done|].
  split; [apply at_dollar_cases; done|done].
Qed.

(** What a captured line looks like. *)
Lemma property_of_sound line k v :
  property_of line = Some (k, v) ->
  exists U K W V,
    key_value_shape (strip line) U K W V
    /\ k = strip (U :: K) /\ v = strip V.
Proof.
  unfold property_of. destruct (is_blank line); [done|].
  unfold re_match.
  destruct (match_items (at_end property_pattern) (items property_pattern) (strip line))
    as [parts|] eqn:Hm; [|done].
  simpl. intros [= <- <-].
  apply property_items_sound in Hm
    as (U & K & W & V & e & Hs & HU & HK & HKa & HW & HWa & HV & HVa & He & ->).
  assert (e = []) as ->.
  { destruct He as [->| ->]; [done|]. exfalso.
    assert (Hlast : strip line = (U :: K ++ ":"%char :: W ++ V) ++ [nl]).
    { rewrite Hs. simpl. rewrite <- !app_assoc. simpl.
      rewrite <- !app_assoc. done. }
    apply strip_last in Hlast. done. }
  rewrite app_nil_r in Hs.
  exists U, K, W, V. split; [done|].
  unfold group. simpl. rewrite !app_nil_r. done.
Qed.

(** Every line of that shape whose rest does not start with whitespace
    is captured. *)
Lemma property_of_complete line U K W V :
  key_value_shape (strip line) U K W V ->
  match V with c :: _ => isspace c = false | [] => True end ->
  property_of line = Some (strip (U :: K), strip V).
Proof.
  intros (Hs & HU & HK & HKa & HW & HWa & HV & HVa) Hhead.
  unfold property_of, is_blank. rewrite Hs. simpl str_eqb.
  unfold re_match.
  cbn [items property_pattern match_items qnt cls at_end dollar].
  simpl take_times. rewrite HU.
  rewrite (greedy_rep_run letter_or_ws _ K 1 [] (":"%char :: W ++ V)
             [[":"%char]; W; V]).
  - simpl. unfold group. simpl. rewrite !app_nil_r. done.
  - done.
  - destruct K; [done|simpl; lia].
  - reflexivity.
  - simpl take_times. change (lit ":" ":") with true. cbv iota.
    rewrite (greedy_rep_run ws _ W 1 [] V [V]).
    + done.
    + done.
    + destruct W; [done|simpl; lia].
    + destruct V; done.
    + rewrite <- (app_nil_r V) at 1.
      rewrite (greedy_rep_run dot _ V 1 [] [] []).
      * done.
      * done.
      * destruct V; [done|simpl; lia].
      * done.
      * done.
Qed.
End PropertyPattern.

Section PropertyClaims.

(** C7 as stated fails.  When the heading is the first non-blank line
    but not line 0 and no property follows, the heading stays in the
    body; and a line whose key is a single capital letter is not
    captured. *)
Lemma heading_after_blank_line_kept :
  (content (_extract_properties (page late_heading_body))
   = str "# Title" ++ [nl; nl] ++ str "Body text"
   /\ properties (_extract_properties (page late_heading_body)) = [])
  /\ (content (_extract_properties (page short_key_body))
      = str "X: 1" ++ [nl; nl] ++ str "Body text"
      /\ properties (_extract_properties (page short_key_body)) = []).
Proof. vm_compute. repeat split. Qed.

Lemma content_start_heading l0 rest :
  startswith (str "# ") (strip l0) = true ->
  content_start (l0 :: rest) =
  match rest with l1 :: _ => if is_blank l1 then 2 else 1 | [] => 1 end.
Proof.
  intros H. unfold content_start. rewrite H.
  destruct rest as [|l1 rest]; [done|].
  simpl. unfold is_blank. destruct (str_eqb (strip l1) []); done.
Qed.

(** C7 (amended).  For a body whose line 0, stripped, starts with "# ",
    [_extract_properties] skips that line and one blank line after it
    and scans the next 20 lines at most.  It passes over the lines
    before the first [Key: value] line, captures the [Key: value] lines
    that follow one another, and stops at the first blank line after
    them (which belongs to the block) or at the first other line.  The
    captured pairs are stored in order in [resource.properties] and the
    body that remains is, stripped, what follows the block (what follows
    the heading and the blank line when nothing is captured).  A
    [Key: value] line is a capital letter, at least one more letter or
    whitespace character, a colon, whitespace and a non-empty value; key
    and value are stored stripped.  On
    "# Title\n\nOwner: Alice\nStatus: Active\n\nBody text" the
    properties are Owner: Alice, Status: Active and the body is
    "Body text". *)
Theorem extract_properties_block :
  (forall (r : Resource) (l0 : pystr) (rest : list pystr),
      split_nl (content r) = l0 :: rest ->
      startswith (str "# ") (strip l0) = true ->
      _extract_properties r =
      set_content_properties
        (strip (join [nl]
           (drop (match rest with l1 :: _ => if is_blank l1 then 2 else 1 | [] => 1 end
                  + block_end
                      (take 20
                         (drop (match rest with
                                | l1 :: _ => if is_blank l1 then 2 else 1
                                | [] => 1
                                end) (l0 :: rest))))
                 (l0 :: rest))))
        (record_all
           (captured
              (take 20
                 (drop (match rest with
                        | l1 :: _ => if is_blank l1 then 2 else 1
                        | [] => 1
                        end) (l0 :: rest))))
           (properties r))
        r)
  /\ (forall line k v,
        property_of line = Some (k, v) ->
        exists U K W V,
          key_value_shape (strip line) U K W V /\ k = strip (U :: K) /\ v = strip V)
  /\ (forall line U K W V,
        key_value_shape (strip line) U K W V ->
        match V with c :: _ => isspace c = false | [] => True end ->
        property_of line = Some (strip (U :: K), strip V))
  /\ (properties (_extract_properties (page titled_body))
      = [(str "Owner", JStr (str "Alice")); (str "Status", JStr (str "Active"))]
      /\ content (_extract_properties (page titled_body)) = str "Body text").
Proof.
  split; [|split; [|split]].
  - intros r l0 rest Hsplit Hhead.
    rewrite extract_properties_spec, Hsplit, content_start_heading by done. done.
  - apply property_of_sound.
  - apply property_of_complete.
  - vm_compute. done.
Qed.

Lemma extract_properties_block_witness :
  _extract_properties (page intro_body) =
  set_content_properties (str "Body text")
    [(str "Owner", JStr (str "Alice"))] (page intro_body)
  /\ property_of (str "Due date:  next week")
     = Some (str "Due date", str "next week").
Proof.
  destruct extract_properties_block as (H1 & _ & H3 & _). split.
  - rewrite (H1 (page intro_body) (str "# Title")
               [[]; str "Intro text"; str "Owner: Alice"; []; str "Body text"]).
    + vm_compute. reflexivity.
    + vm_compute. reflexivity.
    + vm_compute. reflexivity.
  - apply (H3 (str "Due date:  next week") "D"%char (str "ue date") (str "  ")
              (str "next week")).
    + vm_compute. repeat split; discriminate.
    + vm_compute. reflexivity.
Defined.

Lemma before_block_app junk p more :
  Forall (fun l => property_of l = None) junk -> is_Some (property_of p) ->
  before_block (junk ++ p :: more) = junk.
Proof.
  intros Hj [kv Hp]. induction Hj as [|l junk Hl _ IH]; simpl.
  - rewrite Hp. done.
  - rewrite Hl, IH. done.
Qed.

Lemma blank_next_le ls : blank_next ls <= 1.
Proof. destruct ls as [|l ls]; simpl; [lia|]. destruct (is_blank l); lia. Qed.

(** C10.  When the scan window is some lines that are no [Key: value]
    lines, then a [Key: value] line, then more, the body that remains
    starts after the property block: at least one pair is captured, and
    the lines of the window before the first captured line are dropped
    together with the block (and with the blank line that ends it). *)
Theorem lines_before_block_dropped :
  forall (r : Resource) (junk : list pystr) (p : pystr) (more : list pystr),
    take 20 (drop (content_start (split_nl (content r))) (split_nl (content r)))
      = junk ++ p :: more ->
    Forall (fun l => property_of l = None) junk ->
    is_Some (property_of p) ->
    exists n b,
      1 <= n /\ b <= 1
      /\ n = length (block (p :: more))
      /\ b = blank_next (drop n (p :: more))
      /\ properties (_extract_properties r)
         = record_all (block (p :: more)) (properties r)
      /\ content (_extract_properties r)
         = strip (join [nl]
             (drop (content_start (split_nl (content r)) + length junk + n + b)
                   (split_nl (content r)))).
Proof.
  intros r junk p more Hw Hjunk Hp.
  rewrite extract_properties_spec. simpl.
  unfold block_end, captured. rewrite Hw.
  rewrite before_block_app by done.
  rewrite drop_app_length.
  destruct Hp as [kv Hp].
  assert (Hb : block (p :: more) = kv :: block more) by (simpl; rewrite Hp; done).
  exists (length (block (p :: more))), (blank_next (drop (length (block (p :: more))) (p :: more))).
  split; [rewrite Hb; simpl; lia|].
  split; [apply blank_next_le|].
  split; [done|]. split; [done|]. split; [done|].
  rewrite Hb. cbn [length]. rewrite drop_app_add. do 3 f_equal. lia.
Qed.

Lemma lines_before_block_dropped_witness :
  exists n b,
    1 <= n /\ b <= 1
    /\ properties (_extract_properties (page intro_body))
       = [(str "Owner", JStr (str "Alice"))]
    /\ content (_extract_properties (page intro_body))
       = strip (join [nl] (drop (2 + 1 + n + b) (split_nl intro_body))).
Proof.
  destruct (lines_before_block_dropped (page intro_body)
              [str "Intro text"] (str "Owner: Alice") [[]; str "Body text"])
    as (n & b & Hn & Hb & Hn' & Hb' & Hprops & Hcontent).
  - vm_compute. reflexivity.
  - repeat constructor.
  - vm_compute. eexists. reflexivity.
  - exists n, b. split; [exact Hn|]. split; [exact Hb|].
    split; [rewrite Hprops; vm_compute; reflexivity|exact Hcontent].
Defined.
End PropertyClaims.

(** ** The content codec *)

Section Ink.
Implicit Types (s x y : pystr).

Lemma has_ink_app x y : has_ink (x ++ y) = has_ink x || has_ink y.
Proof. apply existsb_app. Qed.

Lemma has_ink_false_ws s : has_ink s = false <-> forallb isspace s = true.
Proof.
  induction s as [|c s IH]; simpl; [done|].
  rewrite orb_false_iff, andb_true_iff, IH, negb_false_iff. done.
Qed.

Lemma rstrip_cons_ink c s : isspace c = false -> rstrip (c :: s) = c :: rstrip s.
Proof. intros Hc. simpl. rewrite Hc. destruct (rstrip s); done. Qed.

Lemma nonempty_rstrip s : nonempty (rstrip s) = has_ink s.
Proof.
  induction s as [|c s IH]; simpl; [done|].
  destruct (rstrip s) as [|b r] eqn:Hr; simpl in *.
  - rewrite <- IH. destruct (isspace c); done.
  - rewrite <- IH. rewrite orb_true_r. done.
Qed.

Lemma has_ink_lstrip s : has_ink (lstrip s) = has_ink s.
Proof.
  induction s as [|c s IH]; simpl; [done|].
  destruct (isspace c) eqn:Hc; simpl; [done|]. rewrite Hc. done.
Qed.

Lemma has_ink_rstrip s : has_ink (rstrip s) = has_ink s.
Proof.
  induction s as [|c s IH]; simpl; [done|].
  destruct (rstrip s) as [|b r] eqn:Hr.
  - rewrite <- IH. simpl. destruct (isspace c) eqn:Hc; simpl; [done|].
    rewrite Hc. done.
  - rewrite <- IH. done.
Qed.

Lemma nonempty_strip s : nonempty (strip s) = has_ink s.
Proof. unfold strip. rewrite nonempty_rstrip, has_ink_lstrip. done. Qed.

Lemma rstrip_app_ink x y : has_ink y = true -> rstrip (x ++ y) = x ++ rstrip y.
Proof.
  intros Hy. induction x as [|c x IH]; simpl; [done|].
  rewrite IH. destruct (x ++ rstrip y) as [|b r] eqn:E; [|done].
  apply app_eq_nil in E as [_ E].
  rewrite <- nonempty_rstrip, E in Hy. done.
Qed.

Lemma lstrip_app_ink x y : has_ink x = true -> lstrip (x ++ y) = lstrip x ++ y.
Proof.
  induction x as [|c x IH]; simpl; [done|].
  destruct (isspace c); simpl; [exact IH|done].
Qed.

Lemma lstrip_head s : match lstrip s with c :: _ => isspace c = false | [] => True end.
Proof.
  induction s as [|c s IH]; simpl; [done|].
  destruct (isspace c) eqn:Hc; [exact IH|exact Hc].
Qed.

Lemma lstrip_noop s :
  match s with c :: _ => isspace c = false | [] => True end -> lstrip s = s.
Proof. destruct s as [|c s]; simpl; [done|]. intros ->. done. Qed.

Lemma lstrip_idem s : lstrip (lstrip s) = lstrip s.
Proof. apply lstrip_noop, lstrip_head. Qed.

Lemma rstrip_idem s : rstrip (rstrip s) = rstrip s.
Proof.
  induction s as [|c s IH]; simpl; [done|].
  destruct (rstrip s) as [|b r] eqn:Hr.
  - destruct (isspace c) eqn:Hc; simpl; [done|]. rewrite Hc. done.
  - simpl in *. rewrite IH. done.
Qed.

Lemma rstrip_head s :
  match s with c :: _ => isspace c = false | [] => True end ->
  match rstrip s with c :: _ => isspace c = false | [] => True end.
Proof.
  destruct s as [|c s]; simpl; [done|]. intros Hc. rewrite Hc.
  destruct (rstrip s); done.
Qed.

Lemma lstrip_rstrip s : lstrip (rstrip s) = rstrip (lstrip s).
Proof.
  induction s as [|c s IH]; [done|].
  destruct (isspace c) eqn:Hc.
  - cbn [lstrip rstrip]. rewrite Hc, <- IH.
    destruct (rstrip s) as [|b r]; [done|].
    cbn [lstrip]. rewrite Hc. done.
  - rewrite rstrip_cons_ink by done. cbn [lstrip]. rewrite Hc.
    rewrite rstrip_cons_ink by done. done.
Qed.

Lemma strip_idem s : strip (strip s) = strip s.
Proof.
  unfold strip. rewrite lstrip_rstrip, lstrip_idem, rstrip_idem. done.
Qed.

Lemma strip_rstrip s : strip (rstrip s) = strip s.
Proof. unfold strip. rewrite lstrip_rstrip, rstrip_idem. done. Qed.

Lemma strip_cons_ws c s : isspace c = true -> strip (c :: s) = strip s.
Proof. unfold strip. simpl. intros ->. done. Qed.

Lemma strip_cons_ink c s : isspace c = false -> strip (c :: s) = c :: rstrip s.
Proof. unfold strip. simpl. intros Hc. rewrite Hc. apply rstrip_cons_ink. done. Qed.

Lemma strip_nil_iff s : strip s = [] <-> has_ink s = false.
Proof.
  rewrite <- nonempty_strip. destruct (strip s); simpl; split; done.
Qed.

Lemma strip_fixed_ink s : strip s = s -> s <> [] -> has_ink s = true.
Proof.
  intros Hs Hne. rewrite <- nonempty_strip, Hs. destruct s; done.
Qed.

Lemma rstrip_fixed s : strip s = s -> rstrip s = s.
Proof. intros Hs. rewrite <- Hs at 1. unfold strip. rewrite rstrip_idem. exact Hs. Qed.

Lemma strip_head s : match strip s with c :: _ => isspace c = false | [] => True end.
Proof. unfold strip. apply rstrip_head, lstrip_head. Qed.
End Ink.

Section Lines.
Implicit Types (s x y : pystr).

Lemma split_nl_no_nl s : Forall (fun l => nl ∉ l) (split_nl s).
Proof.
  induction s as [|c s IH]; simpl.
  - constructor; [apply not_elem_of_nil|constructor].
  - destruct (ch_eqb c nl) eqn:E.
    + constructor; [apply not_elem_of_nil|exact IH].
    + destruct (split_nl s) as [|l ls]; [repeat constructor|].
      * apply not_elem_of_cons. split; [|apply not_elem_of_nil].
        intros <-. rewrite ch_eqb_refl in E. done.
      * apply Forall_cons in IH as [Hl Hls]. constructor; [|done].
        apply not_elem_of_cons. split; [|done].
        intros <-. rewrite ch_eqb_refl in E. done.
Qed.

(** A line and the line feed after it. *)
Lemma split_nl_line x y : nl ∉ x -> split_nl (x ++ nl :: y) = x :: split_nl y.
Proof.
  induction x as [|c x IH]; intros Hx; simpl.
  - done.
  - apply not_elem_of_cons in Hx as [Hc Hx].
    destruct (ch_eqb c nl) eqn:E; [apply ch_eqb_eq in E; congruence|].
    rewrite IH by done. done.
Qed.

Lemma no_nl_lstrip s : nl ∉ s -> nl ∉ lstrip s.
Proof.
  induction s as [|c s IH]; simpl; [done|]. intros H.
  destruct (isspace c); [|done]. apply IH. apply not_elem_of_cons in H as [_ H]. done.
Qed.

Lemma no_nl_rstrip s : nl ∉ s -> nl ∉ rstrip s.
Proof.
  induction s as [|c s IH]; simpl; [done|]. intros H.
  apply not_elem_of_cons in H as [Hc H]. specialize (IH H).
  destruct (rstrip s) as [|b r].
  - destruct (isspace c); [apply not_elem_of_nil|].
    apply not_elem_of_cons. split; [done|apply not_elem_of_nil].
  - apply not_elem_of_cons. done.
Qed.

Lemma no_nl_strip s : nl ∉ s -> nl ∉ strip s.
Proof. intros H. apply no_nl_rstrip, no_nl_lstrip. done. Qed.

Lemma no_nl_lstrip_char ch s : nl ∉ s -> nl ∉ lstrip_char ch s.
Proof.
  induction s as [|c s IH]; simpl; [done|]. intros H.
  destruct (ch_eqb c ch); [|done]. apply IH. apply not_elem_of_cons in H as [_ H]. done.
Qed.

Lemma no_nl_drop n s : nl ∉ s -> nl ∉ drop n s.
Proof. intros H Hin. apply H. eapply subseteq_drop. exact Hin. Qed.
End Lines.

Section Serialize.
Variable py_str : json -> pystr.

Lemma join_parts_strs (xs : list pystr) :
  join_parts (map JStr xs) = Ok (concat xs).
Proof.
  induction xs as [|x xs IH]; simpl; [done|]. rewrite IH. done.
Qed.

Lemma str_times_level c level :
  str_times c (JInt (Z.of_nat (Nat.min level 6)))
  = Ok (repeat_char c (Nat.min level 6)).
Proof.
  unfold str_times.
  assert (H : (Z.of_nat (Nat.min level 6) <=? max_index)%Z = true).
  { apply Z.leb_le. unfold max_index. lia. }
  rewrite H, Nat2Z.id. done.
Qed.

Lemma nodes_loop_block f b ns parts :
  nodes_loop py_str (_process_nodes py_str (S (S f))) (node_of b :: ns) parts
  = nodes_loop py_str (_process_nodes py_str (S (S f))) ns (parts ++ [JStr (render b)]).
Proof.
  destruct b as [level text| |text|text|text];
    [|simpl; rewrite ?app_nil_r, <- ?app_assoc; reflexivity..].
  cbn -[str_times Nat.min Z.of_nat]. rewrite str_times_level.
  cbn [mbind res_bind render]. rewrite ?app_nil_r, <- ?app_assoc. reflexivity.
Qed.

Lemma nodes_loop_blocks f bs : forall parts,
  nodes_loop py_str (_process_nodes py_str (S (S f))) (map node_of bs) parts
  = Ok (parts ++ map (fun b => JStr (render b)) bs).
Proof.
  induction bs as [|b bs IH]; intros parts; simpl map.
  - cbn [nodes_loop]. rewrite app_nil_r. done.
  - rewrite nodes_loop_block, IH. rewrite <- app_assoc. done.
Qed.

Lemma process_nodes_S f nodes :
  _process_nodes py_str (S f) nodes =
  ns ← iter nodes;
  parts ← nodes_loop py_str (_process_nodes py_str f) ns [];
  join_parts parts.
Proof. reflexivity. Qed.

(** The serializer on the nodes of a block list. *)
Lemma process_blocks f bs :
  _process_nodes py_str (S (S (S f))) (JArr (map node_of bs))
  = Ok (concat (map render bs)).
Proof.
  rewrite process_nodes_S. cbn [iter mbind res_bind].
  rewrite nodes_loop_blocks.
  cbn [mbind res_bind app]. rewrite <- (map_map render JStr).
  apply join_parts_strs.
Qed.
End Serialize.

Section Parse.
Implicit Types (line l t : pystr) (rest ls : list pystr).

(** One turn of the loop of [_markdown_to_prosemirror]. *)
Lemma md_loop_cons line rest :
  md_loop (line :: rest) =
  if negb (nonempty (strip line)) then md_loop rest
  else if startswith (str "#") line then
    heading_node (length line - length (lstrip_char "#" line))
      (strip (lstrip_char "#" line)) :: md_loop rest
  else if is_rule (strip line) then rule_node :: md_loop rest
  else if starts_bullet (strip line) then
    bullet_node (strip (drop 1 (strip line))) :: md_loop rest
  else if startswith (str ">") (strip line) then
    blockquote_node (strip (drop 1 (strip line))) :: md_loop rest
  else if startswith (str "![") (strip line) then
    match re_match image_pattern (strip line) with
    | Some m =>
        paragraph_node (str "![" ++ group 1 m ++ str "](" ++ group 2 m ++ str ")")
          :: md_loop rest
    | None => md_loop rest
    end
  else
    paragraph_node (join (str " ") (line :: para_taken rest))
      :: md_loop (drop (length (para_taken rest)) rest).
Proof.
  cbn [md_loop].
  repeat match goal with |- context [if ?c then _ else _] => destruct c; [reflexivity|] end.
  change (line :: para_taken rest) with ([line] ++ para_taken rest).
  generalize [line]. induction rest as [|l ls IH]; intros acc.
  - simpl. rewrite app_nil_r. done.
  - cbn [para_taken]. destruct (nonempty (strip l) && negb (_is_special_line l)).
    + rewrite IH. cbn [length drop]. rewrite <- app_assoc. done.
    + simpl. rewrite app_nil_r. done.
Qed.

Lemma md_loop_blank line rest : has_ink line = false -> md_loop (line :: rest) = md_loop rest.
Proof. intros H. rewrite md_loop_cons, nonempty_strip, H. done. Qed.

Lemma startswith_cons_inv c p s :
  startswith (c :: p) s = true -> exists s', s = c :: s' /\ startswith p s' = true.
Proof.
  destruct s as [|x s]; cbn [startswith]; [done|].
  intros H. apply andb_true_iff in H as [Hc H]. apply ch_eqb_eq in Hc. subst x.
  eauto.
Qed.

Lemma md_loop_heading line rest :
  startswith (str "#") line = true ->
  md_loop (line :: rest) =
  heading_node (length line - length (lstrip_char "#" line))
    (strip (lstrip_char "#" line)) :: md_loop rest.
Proof.
  intros H. rewrite md_loop_cons, nonempty_strip, H.
  apply startswith_cons_inv in H as (s' & -> & _). done.
Qed.

Lemma md_loop_para line rest :
  plain_line line ->
  md_loop (line :: rest) =
  paragraph_node (join (str " ") (line :: para_taken rest))
    :: md_loop (drop (length (para_taken rest)) rest).
Proof.
  intros (H1 & H2 & H3 & H4 & H5 & H6).
  rewrite md_loop_cons, nonempty_strip, H1, H2, H3, H4, H5, H6. done.
Qed.
End Parse.

Section Canonical.
Implicit Types (line l t a r : pystr) (rest ls : list pystr).

Lemma heading_node_min level text :
  heading_node level text = heading_node (Nat.min level 6) text.
Proof. unfold heading_node. rewrite <- Nat.min_assoc. done. Qed.

Lemma length_lstrip_char ch s : length (lstrip_char ch s) <= length s.
Proof.
  induction s as [|c s IH]; simpl; [lia|]. destruct (ch_eqb c ch); simpl; lia.
Qed.

Lemma has_ink_nonempty s : has_ink s = true -> s <> [].
Proof. destruct s; done. Qed.

Lemma no_nl_join ls :
  Forall (fun l => nl ∉ l) ls -> nl ∉ join (str " ") ls.
Proof.
  induction 1 as [|l ls Hl Hls IH]; simpl; [apply not_elem_of_nil|].
  destruct ls as [|l' ls']; [done|].
  apply not_elem_of_app. split; [done|].
  apply not_elem_of_cons. split; [done|exact IH].
Qed.

Lemma para_taken_ink ls : Forall (fun l => has_ink l = true) (para_taken ls).
Proof.
  induction ls as [|l ls IH]; simpl; [constructor|].
  destruct (nonempty (strip l) && negb (_is_special_line l)) eqn:E; [|constructor].
  apply andb_true_iff in E as [E _]. rewrite nonempty_strip in E.
  constructor; done.
Qed.

Lemma para_taken_prefix ls : exists more, ls = para_taken ls ++ more.
Proof.
  induction ls as [|l ls [more IH]]; simpl; [exists []; done|].
  destruct (nonempty (strip l) && negb (_is_special_line l)).
  - exists more. simpl. rewrite <- IH. done.
  - exists (l :: ls). done.
Qed.

Lemma has_ink_join ls :
  ls <> [] -> Forall (fun l => has_ink l = true) ls ->
  has_ink (join (str " ") ls) = true.
Proof.
  intros Hne Hall. destruct Hall as [|l ls Hl Hls]; [done|].
  simpl. destruct ls; [done|]. rewrite has_ink_app, Hl. done.
Qed.

(** The stripped form of a first line followed by more text. *)
Lemma strip_joined a r :
  has_ink a = true -> has_ink r = true ->
  strip (a ++ str " " ++ r) = lstrip a ++ " "%char :: rstrip r.
Proof.
  intros Ha Hr. unfold strip. rewrite lstrip_app_ink by done.
  rewrite rstrip_app_ink by (rewrite has_ink_app, Hr; apply orb_true_r).
  f_equal. change (str " " ++ r) with (" "%char :: r). simpl.
  destruct (rstrip r) eqn:E; [|done].
  rewrite <- nonempty_rstrip, E in Hr. done.
Qed.

Lemma starts_bullet_head c x y : starts_bullet (c :: x) = starts_bullet (c :: y).
Proof. unfold starts_bullet. cbn [existsb startswith str list_ascii_of_string]. done. Qed.

Lemma startswith1_head p c x y :
  startswith [p] (c :: x) = startswith [p] (c :: y).
Proof. cbn [startswith]. rewrite !andb_true_r. done. Qed.

Lemma is_rule_no_space x y : is_rule (x ++ " "%char :: y) = false.
Proof.
  unfold is_rule. cbn [existsb]. rewrite orb_false_r.
  assert (H : forall ρ, " "%char ∉ ρ -> str_eqb (x ++ " "%char :: y) ρ = false).
  { intros ρ Hρ. apply str_eqb_neq. intros <-. apply Hρ.
    apply elem_of_app. right. apply list_elem_of_here. }
  rewrite !H; [done| | |];
    intros Hin; vm_compute in Hin;
    repeat (apply elem_of_cons in Hin as [Hin|Hin]; [discriminate Hin|]);
    apply elem_of_nil in Hin; done.
Qed.

Lemma plain_line_joined a taken :
  plain_line a -> Forall (fun l => has_ink l = true) taken ->
  plain_line (join (str " ") (a :: taken)).
Proof.
  intros (H1 & H2 & H3 & H4 & H5 & H6) Htaken.
  destruct taken as [|b taken]; [done|].
  assert (Hr : has_ink (join (str " ") (b :: taken)) = true)
    by (apply has_ink_join; done).
  set (r := join (str " ") (b :: taken)) in *.
  change (join (str " ") (a :: b :: taken)) with (a ++ str " " ++ r).
  pose proof (lstrip_head a) as Hhead.
  assert (Hla : has_ink (lstrip a) = true) by (rewrite has_ink_lstrip; done).
  destruct (lstrip a) as [|c1 la'] eqn:Ela; [done|].
  assert (Hsa : strip a = c1 :: rstrip la').
  { unfold strip. rewrite Ela. apply rstrip_cons_ink. done. }
  rewrite Hsa in H3, H4, H5, H6.
  unfold plain_line. rewrite strip_joined by done. rewrite Ela.
  split; [rewrite has_ink_app, H1; done|].
  split.
  { destruct a as [|c a']; [done|]. exact H2. }
  split; [apply (is_rule_no_space (c1 :: la'))|].
  split; [exact (eq_trans (starts_bullet_head c1 _ (rstrip la')) H4)|].
  split; [exact (eq_trans (startswith1_head ">" c1 _ (rstrip la')) H5)|].
  destruct la' as [|c2 la'']; simpl app.
  - cbn [startswith str list_ascii_of_string].
    change (ch_eqb "[" " ") with false. rewrite andb_false_r. done.
  - cbn [startswith str list_ascii_of_string] in *.
    destruct (ch_eqb "!" c1); [|done]. cbn [andb] in *.
    destruct (ch_eqb "[" c2) eqn:E2; [|done].
    apply ch_eqb_eq in E2. subst c2.
    rewrite rstrip_cons_ink in H6 by reflexivity.
    rewrite ch_eqb_refl in H6. done.
Qed.

(** On a text without image lines the parser builds the nodes of
    canonical blocks. *)
Lemma md_loop_canonical lines :
  Forall (fun l => nl ∉ l) lines ->
  Forall (fun l => startswith (str "![") (strip l) = false) lines ->
  exists bs, md_loop lines = map node_of bs /\ Forall canonical bs.
Proof.
  remember (length lines) as n eqn:Hn. revert lines Hn.
  induction n as [n IH] using lt_wf_ind. intros lines Hn Hnl Himg.
  destruct lines as [|line rest]; [exists []; split; [done|constructor]|].
  apply Forall_cons in Hnl as [Hl Hrest]. apply Forall_cons in Himg as [Hi Hirest].
  simpl in Hn.
  assert (IHrest : exists bs, md_loop rest = map node_of bs /\ Forall canonical bs).
  { apply (IH (length rest)); [lia|done..]. }
  rewrite md_loop_cons, nonempty_strip.
  destruct (has_ink line) eqn:Hink; cbn [negb]; [|exact IHrest].
  destruct (startswith (str "#") line) eqn:Hh.
  { destruct IHrest as (bs & -> & Hbs).
    exists (BHeading (Nat.min (length line - length (lstrip_char "#" line)) 6)
              (strip (lstrip_char "#" line)) :: bs).
    split; [simpl; rewrite <- heading_node_min; done|].
    constructor; [|done]. simpl. split; [|split].
    - apply startswith_cons_inv in Hh as (s' & -> & _). simpl.
      rewrite ?ch_eqb_refl. pose proof (length_lstrip_char "#" s'). lia.
    - apply strip_idem.
    - apply no_nl_strip, no_nl_lstrip_char. done. }
  destruct (is_rule (strip line)) eqn:Hr.
  { destruct IHrest as (bs & -> & Hbs). exists (BRule :: bs).
    split; [done|]. constructor; done. }
  destruct (starts_bullet (strip line)) eqn:Hb.
  { destruct IHrest as (bs & -> & Hbs).
    exists (BBullet (strip (drop 1 (strip line))) :: bs).
    split; [done|]. constructor; [|done]. simpl. split; [apply strip_idem|].
    apply no_nl_strip, no_nl_drop, no_nl_strip. done. }
  destruct (startswith (str ">") (strip line)) eqn:Hq.
  { destruct IHrest as (bs & -> & Hbs).
    exists (BQuote (strip (drop 1 (strip line))) :: bs).
    split; [done|]. constructor; [|done]. simpl. split; [apply strip_idem|].
    apply no_nl_strip, no_nl_drop, no_nl_strip. done. }
  rewrite Hi.
  destruct (para_taken_prefix rest) as [more Hmore].
  assert (Hdrop : drop (length (para_taken rest)) rest = more).
  { rewrite Hmore at 2. apply drop_app_length. }
  rewrite Hdrop.
  assert (Hmore_all : Forall (fun l => nl ∉ l) more
                      /\ Forall (fun l => startswith (str "![") (strip l) = false) more
                      /\ Forall (fun l => nl ∉ l) (para_taken rest)).
  { assert (H1 : Forall (fun l => nl ∉ l) (para_taken rest ++ more))
      by (rewrite <- Hmore; done).
    assert (H2 : Forall (fun l => startswith (str "![") (strip l) = false)
                   (para_taken rest ++ more))
      by (rewrite <- Hmore; done).
    apply Forall_app in H1 as [? ?]. apply Forall_app in H2 as [? ?]. done. }
  destruct Hmore_all as (Hm1 & Hm2 & Hm3).
  destruct (IH (length more)) with (lines := more) as (bs & -> & Hbs); [|done..|].
  { apply (f_equal length) in Hmore. rewrite length_app in Hmore. lia. }
  exists (BPara (join (str " ") (line :: para_taken rest)) :: bs).
  split; [done|]. constructor; [|done]. cbn [canonical]. split.
  - apply no_nl_join. constructor; done.
  - apply plain_line_joined; [done|apply para_taken_ink].
Qed.
End Canonical.

Section Reparse.
Implicit Types (line l t text : pystr) (rest ls : list pystr) (b : md_block).

Lemma lstrip_char_repeat ch n s :
  match s with c :: _ => ch_eqb c ch = false | [] => True end ->
  lstrip_char ch (repeat ch n ++ s) = s.
Proof.
  intros Hs. induction n as [|n IH]; simpl.
  - destruct s as [|c s]; [done|]. simpl. rewrite Hs. done.
  - rewrite ch_eqb_refl. exact IH.
Qed.

Lemma no_nl_repeat ch n : ch <> nl -> nl ∉ repeat ch n.
Proof.
  intros Hch. induction n as [|n IH]; simpl; [apply not_elem_of_nil|].
  apply not_elem_of_cons. split; [congruence|exact IH].
Qed.

(** A marker, a space and a stripped text: what [strip] leaves of it. *)
Lemma strip_marked m text :
  isspace m = false -> strip text = text ->
  strip (m :: " "%char :: text) = m :: rstrip (" "%char :: text)
  /\ strip (rstrip (" "%char :: text)) = text
  /\ is_rule (m :: rstrip (" "%char :: text)) = false.
Proof.
  intros Hm Ht. split; [apply strip_cons_ink; done|].
  split; [rewrite strip_rstrip, strip_cons_ws by done; done|].
  destruct text as [|c text'] eqn:E; [|rewrite <- E in *].
  - simpl. unfold is_rule. cbn [existsb str list_ascii_of_string str_eqb].
    destruct (ch_eqb m "-"), (ch_eqb m "*"), (ch_eqb m "_"); done.
  - assert (Hink : has_ink text = true) by (apply strip_fixed_ink; [done|subst; done]).
    change (" "%char :: text) with ([" "%char] ++ text).
    rewrite rstrip_app_ink by done.
    apply (is_rule_no_space [m]).
Qed.

Lemma md_loop_bullet text rest :
  strip text = text ->
  md_loop ((str "- " ++ text) :: rest) = bullet_node text :: md_loop rest.
Proof.
  intros Ht. destruct (strip_marked "-" text eq_refl Ht) as (H1 & H2 & H3).
  rewrite md_loop_cons, nonempty_strip.
  change (str "- " ++ text) with ("-"%char :: " "%char :: text).
  rewrite H1, H3.
  change (has_ink ("-"%char :: " "%char :: text)) with true. cbn [negb].
  change (startswith (str "#") ("-"%char :: " "%char :: text)) with false.
  change (starts_bullet ("-"%char :: rstrip (" "%char :: text))) with true.
  cbn [drop]. rewrite drop_0, H2. done.
Qed.

Lemma md_loop_quote text rest :
  strip text = text ->
  md_loop ((str "> " ++ text) :: rest) = blockquote_node text :: md_loop rest.
Proof.
  intros Ht. destruct (strip_marked ">" text eq_refl Ht) as (H1 & H2 & H3).
  rewrite md_loop_cons, nonempty_strip.
  change (str "> " ++ text) with (">"%char :: " "%char :: text).
  rewrite H1, H3.
  change (has_ink (">"%char :: " "%char :: text)) with true. cbn [negb].
  change (startswith (str "#") (">"%char :: " "%char :: text)) with false.
  change (starts_bullet (">"%char :: rstrip (" "%char :: text))) with false.
  change (startswith (str ">") (">"%char :: rstrip (" "%char :: text))) with true.
  cbn [drop]. rewrite drop_0, H2. done.
Qed.

Lemma md_loop_rule rest : md_loop (str "---" :: rest) = rule_node :: md_loop rest.
Proof. rewrite md_loop_cons. done. Qed.

Lemma md_loop_hashes n text rest :
  1 <= n -> strip text = text ->
  md_loop ((repeat_char "#" n ++ str " " ++ text) :: rest)
  = heading_node n text :: md_loop rest.
Proof.
  intros Hn Ht. unfold repeat_char.
  rewrite md_loop_heading by (destruct n; [lia|done]).
  change (str " " ++ text) with (" "%char :: text).
  rewrite lstrip_char_repeat by done.
  rewrite strip_cons_ws, Ht by done.
  rewrite length_app, repeat_length. cbn [length].
  replace (n + S (length text) - S (length text)) with n by lia. done.
Qed.

(** Parsing what the serializer wrote for one block gives the block's
    node, and goes on with the text after it. *)
Lemma reparse_block b t :
  canonical b ->
  md_loop (split_nl (render b ++ t)) = node_of b :: md_loop (split_nl t).
Proof.
  destruct b as [level text| |text|text|text]; cbn [canonical render node_of].
  - intros (Hlevel & Ht & Hnl).
    replace (Nat.min level 6) with level by lia.
    rewrite <- !app_assoc. rewrite (app_assoc _ (str " ")), (app_assoc _ text).
    change ([nl] ++ t) with (nl :: t). rewrite split_nl_line.
    + rewrite <- app_assoc. apply md_loop_hashes; [lia|done].
    + rewrite !not_elem_of_app. split; [split|done].
      * apply no_nl_repeat. done.
      * intros Hin. apply elem_of_cons in Hin as [Hin|Hin]; [discriminate Hin|].
        apply elem_of_nil in Hin. done.
  - intros _. change (str "---" ++ [nl]) with (str "---" ++ [nl]).
    rewrite <- app_assoc. change ([nl] ++ t) with (nl :: t).
    rewrite split_nl_line.
    + apply md_loop_rule.
    + intros Hin. vm_compute in Hin.
      repeat (apply elem_of_cons in Hin as [Hin|Hin]; [discriminate Hin|]).
      apply elem_of_nil in Hin. done.
  - intros (Ht & Hnl).
    rewrite <- !app_assoc, (app_assoc (str "- ")).
    change ([nl; nl; nl] ++ t) with (nl :: [] ++ nl :: [] ++ nl :: t).
    rewrite (split_nl_line (str "- " ++ text)).
    + rewrite !(split_nl_line []) by apply not_elem_of_nil.
      rewrite md_loop_bullet by done. reflexivity.
    + change (str "- " ++ text) with ("-"%char :: " "%char :: text).
      rewrite !not_elem_of_cons. done.
  - intros (Ht & Hnl).
    rewrite <- !app_assoc, (app_assoc (str "> ")).
    change ([nl; nl; nl] ++ t) with (nl :: [] ++ nl :: [] ++ nl :: t).
    rewrite (split_nl_line (str "> " ++ text)).
    + rewrite !(split_nl_line []) by apply not_elem_of_nil.
      rewrite md_loop_quote by done. reflexivity.
    + change (str "> " ++ text) with (">"%char :: " "%char :: text).
      rewrite !not_elem_of_cons. done.
  - intros (Hnl & Hplain).
    rewrite <- !app_assoc.
    change ([nl; nl] ++ t) with (nl :: [] ++ nl :: t).
    rewrite (split_nl_line text) by done.
    rewrite (split_nl_line []) by apply not_elem_of_nil.
    rewrite md_loop_para by done. cbn [para_taken strip lstrip rstrip nonempty andb length drop join].
    reflexivity.
Qed.

Lemma reparse_blocks bs :
  Forall canonical bs ->
  _markdown_to_prosemirror (concat (map render bs)) = map node_of bs.
Proof.
  unfold _markdown_to_prosemirror.
  induction 1 as [|b bs Hb Hbs IH]; [done|].
  cbn [map concat]. rewrite reparse_block by done. rewrite IH. done.
Qed.
End Reparse.

Section CodecClaims.
Variable py_str : json -> pystr.

(** Whatever the lines of a text without image lines are, the parser's
    node list is the list of the nodes of canonical blocks, and the
    Markdown the serializer writes for it parses to the same node list
    again. *)
Lemma reparse_of_parsed (text : pystr) (fuel : nat) :
  recognized_only text ->
  exists bs,
    Forall canonical bs
    /\ _markdown_to_prosemirror text = map node_of bs
    /\ _process_nodes py_str (S (S (S fuel))) (JArr (_markdown_to_prosemirror text))
       = Ok (concat (map render bs))
    /\ _markdown_to_prosemirror (concat (map render bs))
       = _markdown_to_prosemirror text.
Proof.
  intros Hrec.
  destruct (md_loop_canonical (split_nl text) (split_nl_no_nl text) Hrec)
    as (bs & Hbs & Hcan).
  exists bs. unfold _markdown_to_prosemirror at 1 2 4. rewrite Hbs.
  split; [done|]. split; [done|].
  split; [apply process_blocks|apply reparse_blocks; done].
Qed.

(** C2: [_process_nodes] raises on a list whose item is not a dict, on
    a text node whose mark is not a dict, and on a node whose content is
    [None]; the claim that it returns a string for every node list fails
    in the code. *)
Theorem process_nodes_raises_on_malformed_nodes (fuel : nat) :
  _process_nodes py_str (S fuel)
    (JArr [node_with "bulletList" (JArr [JStr (str "x")])]) = Raise
  /\ _process_nodes py_str (S fuel)
       (JArr [marked_text "a" (JArr [JStr (str "b")])]) = Raise
  /\ _process_nodes py_str (S (S fuel))
       (JArr [node_with "paragraph" JNull]) = Raise
  /\ _process_nodes py_str (S (S fuel))
       (JArr [node_with "mystery" (JInt 1)]) = Raise.
Proof. repeat split; reflexivity. Qed.

(** The robust part of the loop: a value that is not a dict is skipped,
    a node of an unknown kind without content adds nothing, and one with
    content adds what its children serialize to. *)
Lemma process_nodes_unknown_kind (fuel : nat) (kids : list md_block) :
  _process_nodes py_str (S fuel) (JArr [JStr (str "x"); JInt 1; JNull]) = Ok []
  /\ _process_nodes py_str (S fuel)
       (JArr [JObj [(str "type", JStr (str "mystery"))]]) = Ok []
  /\ _process_nodes py_str (S (S (S (S fuel))))
       (JArr [node_with "mystery" (JArr (map node_of kids))])
     = Ok (concat (map render kids)).
Proof.
  split; [reflexivity|]. split; [reflexivity|].
  rewrite process_nodes_S. cbn [iter mbind res_bind].
  cbn -[_process_nodes truthy]. rewrite process_blocks.
  destruct kids as [|k kids]; [reflexivity|].
  cbn [truthy map]. cbn [mbind res_bind nodes_loop join_parts app].
  rewrite app_nil_r. done.
Qed.
End CodecClaims.

(** ** Searching and flattening the hierarchy *)

Section Search.
Variable h : heap.
Variable test : Resource -> bool.

Lemma collect_loop_acc recur rs : forall acc,
  collect_loop recur h rs acc = out ← collect_loop recur h rs []; Ok (acc ++ out).
Proof.
  induction rs as [|x rs IH]; intros acc; simpl.
  - rewrite app_nil_r. done.
  - destruct (h !! x) as [r|]; simpl; [|done].
    destruct (recur (children r)) as [sub| |]; simpl; [|done..].
    rewrite IH. rewrite (IH (x :: sub)).
    destruct (collect_loop recur h rs []) as [out| |]; simpl; [|done..].
    rewrite <- !app_assoc. done.
Qed.

Lemma first_where_app l1 l2 :
  first_where h test (l1 ++ l2) =
  match first_where h test l1 with
  | Some x => Some x
  | None => first_where h test l2
  end.
Proof.
  unfold first_where. induction l1 as [|x l1 IH]; simpl; [done|].
  destruct (match h !! x with Some r => test r | None => false end); done.
Qed.

Lemma search_loop_collect recur_s recur_c rs all :
  (forall cs sub, recur_c cs = Ok sub -> recur_s cs = Ok (first_where h test sub)) ->
  collect_loop recur_c h rs [] = Ok all ->
  search_loop test recur_s h rs = Ok (first_where h test all).
Proof.
  intros Hrec. revert all. induction rs as [|x rs IH]; intros all; simpl.
  - intros [= <-]. done.
  - destruct (h !! x) as [r|] eqn:Hx; simpl; [|done].
    destruct (recur_c (children r)) as [sub| |] eqn:Hsub; simpl; [|done..].
    rewrite collect_loop_acc.
    destruct (collect_loop recur_c h rs []) as [out| |] eqn:Hout; simpl; [|done..].
    intros [= <-]. unfold first_where at 1. simpl. rewrite Hx.
    destruct (test r); [done|].
    rewrite (Hrec _ _ Hsub). fold (first_where h test (sub ++ out)).
    rewrite first_where_app.
    destruct (first_where h test sub); [done|]. apply IH. done.
Qed.

Lemma search_collect fuel : forall rs all,
  collect fuel h rs = Ok all ->
  search test fuel h rs = Ok (first_where h test all).
Proof.
  induction fuel as [|fuel IH]; intros rs all; simpl; [done|].
  apply search_loop_collect. exact IH.
Qed.

Lemma first_where_Some ls x :
  first_where h test ls = Some x ->
  exists pre post r,
    ls = pre ++ x :: post /\ h !! x = Some r /\ test r = true
    /\ first_where h test pre = None.
Proof.
  unfold first_where. induction ls as [|a ls IH]; simpl; [done|].
  destruct (h !! a) as [r|] eqn:Ha.
  - destruct (test r) eqn:Ht.
    + intros [= <-]. exists [], ls, r. done.
    + intros H. destruct (IH H) as (pre & post & r' & -> & Hx & Hr' & Hpre).
      exists (a :: pre), post, r'. simpl. rewrite Ha, Ht. done.
  - intros H. destruct (IH H) as (pre & post & r' & -> & Hx & Hr' & Hpre).
    exists (a :: pre), post, r'. simpl. rewrite Ha. done.
Qed.

Lemma first_where_None ls :
  first_where h test ls = None <->
  forall x r, x ∈ ls -> h !! x = Some r -> test r = false.
Proof.
  unfold first_where. induction ls as [|a ls IH]; simpl.
  - split; [|done]. intros _ x r Hx. apply elem_of_nil in Hx. done.
  - destruct (h !! a) as [ra|] eqn:Ha.
    + destruct (test ra) eqn:Ht.
      * split; [done|]. intros H. specialize (H a ra (list_elem_of_here _ _) Ha).
        congruence.
      * rewrite IH. split.
        -- intros H x r Hx Hr. apply elem_of_cons in Hx as [->|Hx]; [congruence|eauto].
        -- intros H x r Hx Hr. apply (H x r); [apply list_elem_of_further|]; done.
    + rewrite IH. split.
      * intros H x r Hx Hr. apply elem_of_cons in Hx as [->|Hx]; [congruence|eauto].
      * intros H x r Hx Hr. apply (H x r); [apply list_elem_of_further|]; done.
Qed.
End Search.

Section Cycle.
Variable h : heap.

Lemma leads_to_cycle_step x :
  leads_to_cycle h x ->
  exists r c, h !! x = Some r /\ c ∈ children r /\ leads_to_cycle h c.
Proof.
  intros (y & Hxy & Hy).
  assert (Hstep : exists c, child_of h x c /\ leads_to_cycle h c).
  { destruct Hxy as [x|x c y Hxc Hcy].
    - inversion Hy as [? ? Hc|? c ? Hc Hrest]; subst.
      + exists x. split; [done|]. exists x. split; [apply rtc_refl|exact Hy].
      + exists c. split; [done|]. exists c. split; [apply rtc_refl|].
        eapply tc_r; [exact Hrest|exact Hc].
    - exists c. split; [done|]. exists y. done. }
  destruct Hstep as (c & (r & Hr & Hc) & Hcyc). eauto.
Qed.

Lemma collect_loop_doomed recur rs x : forall acc,
  x ∈ rs -> 
  (forall r, h !! x = Some r -> forall out, recur (children r) <> Ok out) ->
  forall out, collect_loop recur h rs acc <> Ok out.
Proof.
  induction rs as [|a rs IH]; intros acc Hx Hrec out; [apply elem_of_nil in Hx; done|].
  simpl. destruct (h !! a) as [r|] eqn:Ha; simpl; [|done].
  destruct (recur (children r)) as [sub| |] eqn:Hsub; simpl; [|done..].
  apply elem_of_cons in Hx as [->|Hx].
  - exfalso. exact (Hrec r Ha sub Hsub).
  - apply IH; done.
Qed.

Lemma collect_doomed fuel : forall rs x,
  x ∈ rs -> leads_to_cycle h x -> forall out, collect fuel h rs <> Ok out.
Proof.
  induction fuel as [|fuel IH]; intros rs x Hx Hcyc out; simpl; [done|].
  apply (collect_loop_doomed _ rs x); [done|].
  intros r Hr out'.
  destruct (leads_to_cycle_step x Hcyc) as (r' & c & Hr' & Hc & Hcc).
  assert (r' = r) by congruence. subst r'.
  apply (IH _ c); done.
Qed.
End Cycle.

(** X1: whenever [get_all_resources] returns the flattened list,
    [find_resource_by_id] and [find_resource_by_name] return, at the same
    recursion bound, the first resource of that list with the given id or
    name, and [None] when the list has none. *)
Theorem find_resource_first_of_flattened
    (fuel : nat) (h : heap) (d : ConversionData) (all : list loc) :
  get_all_resources fuel h d = Ok all ->
  (forall k,
      find_resource_by_id fuel h d k
      = Ok (first_where h (fun r => str_eqb (id r) k) all))
  /\ (forall n,
        find_resource_by_name fuel h d n
        = Ok (first_where h (fun r => str_eqb (name r) n) all))
  /\ (forall test x,
        first_where h test all = Some x ->
        exists pre post r,
          all = pre ++ x :: post /\ h !! x = Some r /\ test r = true
          /\ forall y ry, y ∈ pre -> h !! y = Some ry -> test ry = false)
  /\ (forall test,
        first_where h test all = None <->
        forall x r, x ∈ all -> h !! x = Some r -> test r = false).
Proof.
  intros Hall. split; [|split; [|split]].
  - intros k. apply search_collect. exact Hall.
  - intros n. apply search_collect. exact Hall.
  - intros test x Hx.
    destruct (first_where_Some h test all x Hx) as (pre & post & r & -> & Hr & Ht & Hpre).
    exists pre, post, r. repeat split; try done.
    apply first_where_None. exact Hpre.
  - intros test. apply first_where_None.
Qed.

Lemma find_resource_first_of_flattened_witness :
  get_all_resources 3 family family_data = Ok [0; 1; 2]
  /\ find_resource_by_id 3 family family_data (str "c") = Ok (Some 2)
  /\ find_resource_by_name 3 family family_data (str "B") = Ok (Some 1)
  /\ find_resource_by_id 3 family family_data (str "zz") = Ok None.
Proof.
  assert (H : get_all_resources 3 family family_data = Ok [0; 1; 2]) by reflexivity.
  destruct (find_resource_first_of_flattened 3 family family_data [0; 1; 2] H)
    as (Hid & Hname & _).
  split; [exact H|]. split; [exact (Hid (str "c"))|].
  split; [exact (Hname (str "B"))|exact (Hid (str "zz"))].
Defined.

(** X2: when a root, or a descendant of a root, is its own descendant,
    [get_all_resources] returns no list, whatever the recursion bound:
    the traversal follows the cycle until the recursion limit. *)
Theorem get_all_resources_fails_on_cycle
    (fuel : nat) (h : heap) (d : ConversionData) (x : loc) :
  x ∈ resources d -> leads_to_cycle h x ->
  forall out, get_all_resources fuel h d <> Ok out.
Proof.
  intros Hx Hcyc out. unfold get_all_resources.
  apply (collect_doomed h fuel _ x); done.
Qed.

Lemma get_all_resources_fails_on_cycle_witness :
  add_child 0 0 [res_a] = Some self_parented
  /\ forall fuel out,
       get_all_resources fuel self_parented (add_resource 0 new_data) <> Ok out.
Proof.
  split; [reflexivity|]. intros fuel out.
  apply (get_all_resources_fails_on_cycle fuel self_parented
           (add_resource 0 new_data) 0).
  - simpl. apply list_elem_of_here.
  - exists 0. split; [apply rtc_refl|]. apply tc_once.
    eexists. split; [reflexivity|]. simpl. apply list_elem_of_here.
Defined.

(** ** A page written by the Notion exporter and read back *)

Section JoinSplit.
Implicit Types (s a b : pystr) (ps : list pystr).

Lemma split_nl_app a b : split_nl (a ++ nl :: b) = split_nl a ++ split_nl b.
Proof.
  induction a as [|c a IH]; simpl.
  - done.
  - destruct (ch_eqb c nl); [rewrite IH; done|].
    rewrite IH. pose proof (split_nl_nonempty a) as Hne.
    destruct (split_nl a) as [|l ls]; [done|]. done.
Qed.

Lemma split_nl_one s : nl ∉ s -> split_nl s = [s].
Proof.
  induction s as [|c s IH]; simpl; [done|]. intros H.
  apply not_elem_of_cons in H as [Hc Hs].
  destruct (ch_eqb c nl) eqn:E; [apply ch_eqb_eq in E; subst; done|].
  rewrite IH by done. done.
Qed.

Lemma join_cons sep p ps :
  ps <> [] -> join sep (p :: ps) = p ++ sep ++ join sep ps.
Proof. destruct ps; done. Qed.

Lemma join_app sep (xs ys : list pystr) :
  xs <> [] -> ys <> [] ->
  join sep (xs ++ ys) = join sep xs ++ sep ++ join sep ys.
Proof.
  intros Hx Hy. induction xs as [|x xs IH]; [done|].
  destruct xs as [|x' xs].
  - simpl app. rewrite join_cons by done. done.
  - change ((x :: x' :: xs) ++ ys) with (x :: (x' :: xs) ++ ys).
    rewrite join_cons by done. rewrite IH by done.
    rewrite (join_cons sep x (x' :: xs)) by done.
    rewrite <- !app_assoc. done.
Qed.

Lemma join_split_nl s : join [nl] (split_nl s) = s.
Proof.
  induction s as [|c s IH]; simpl; [done|].
  pose proof (split_nl_nonempty s) as Hne.
  destruct (ch_eqb c nl) eqn:E.
  - apply ch_eqb_eq in E. subst c. rewrite join_cons by done. rewrite IH. done.
  - destruct (split_nl s) as [|l ls]; [done|].
    destruct ls as [|l' ls].
    + simpl in *. rewrite IH. done.
    + rewrite join_cons by done. rewrite join_cons in IH by done.
      rewrite <- IH. done.
Qed.

Lemma split_nl_join ps :
  ps <> [] -> split_nl (join [nl] ps) = flat_map split_nl ps.
Proof.
  induction ps as [|p ps IH]; [done|]. intros _.
  destruct ps as [|p' ps].
  - simpl. rewrite app_nil_r. done.
  - rewrite join_cons by done. change ([nl] ++ ?x) with (nl :: x).
    rewrite split_nl_app, IH by done. done.
Qed.

Lemma flat_split_nonempty ps : ps <> [] -> flat_map split_nl ps <> [].
Proof.
  destruct ps as [|p ps]; [done|]. intros _. simpl.
  pose proof (split_nl_nonempty p). destruct (split_nl p); done.
Qed.

Lemma join_flat_split ps : join [nl] (flat_map split_nl ps) = join [nl] ps.
Proof.
  induction ps as [|p ps IH]; [done|].
  destruct ps as [|p' ps].
  - simpl. rewrite app_nil_r. apply join_split_nl.
  - change (flat_map split_nl (p :: p' :: ps))
      with (split_nl p ++ flat_map split_nl (p' :: ps)).
    rewrite join_app; [|apply split_nl_nonempty|apply flat_split_nonempty; done].
    rewrite IH, join_split_nl. rewrite (join_cons [nl] p (p' :: ps)) by done. done.
Qed.

Lemma join_flat_split_after (xs : list pystr) ps :
  join [nl] (xs ++ flat_map split_nl ps) = join [nl] (xs ++ ps).
Proof.
  destruct xs as [|x xs]; [apply join_flat_split|].
  destruct ps as [|p ps]; [done|].
  rewrite !join_app by (done || apply flat_split_nonempty; done).
  rewrite join_flat_split. done.
Qed.
End JoinSplit.

Section PageLines.
Variable py_str : json -> pystr.
Implicit Types (kv : pystr * json) (ps : list (pystr * json)).

Lemma upper_not_ws c : upper_az c = true -> isspace c = false.
Proof.
  unfold upper_az, isspace, in_range. intros H.
  destruct (Nat.leb_spec 65 (code c)), (Nat.leb_spec (code c) 90); simpl in H; try done.
  repeat match goal with
         | |- context [Nat.leb ?a ?b] => destruct (Nat.leb_spec a b); try lia
         | |- context [Nat.eqb ?a ?b] => destruct (Nat.eqb_spec a b); try lia
         end; done.
Qed.

Lemma no_nl_dot s : nl ∉ s -> forallb dot s = true.
Proof.
  induction s as [|c s IH]; simpl; [done|]. intros H.
  apply not_elem_of_cons in H as [Hc Hs]. rewrite IH by done.
  unfold dot. destruct (ch_eqb c nl) eqn:E; [|done].
  apply ch_eqb_eq in E. done.
Qed.

Lemma property_line_read kv :
  plain_property py_str kv ->
  property_of (property_line py_str kv) = Some (fst kv, fmt py_str (snd kv))
  /\ nl ∉ property_line py_str kv.
Proof.
  intros ((U & K & Hk & HU & HK & HKa) & Hks & Hknl & Hv & Hvs & Hvnl).
  unfold property_line. destruct kv as [k j]. simpl in *. subst k.
  set (v := fmt py_str j) in *.
  assert (Hvink : has_ink v = true) by (apply strip_fixed_ink; done).
  assert (Hline : strip ((U :: K) ++ str ": " ++ v) = (U :: K) ++ str ": " ++ v).
  { simpl app. rewrite strip_cons_ink by (apply upper_not_ws; done).
    f_equal. change (K ++ ":"%char :: " "%char :: v) with (K ++ str ": " ++ v).
    rewrite app_assoc. rewrite rstrip_app_ink by done.
    rewrite rstrip_fixed by done. done. }
  split.
  - rewrite <- Hks at 2. rewrite <- Hvs at 2.
    apply (property_of_complete _ U K [" "%char] v).
    + assert (Hs : forall l, l = (U :: K) ++ str ": " ++ v ->
                     key_value_shape (strip l) U K [" "%char] v).
      { intros l ->. rewrite Hline. unfold key_value_shape.
        repeat split; try done. apply no_nl_dot. done. }
      apply Hs. reflexivity.
    + pose proof (strip_head v) as Hh. rewrite Hvs in Hh. exact Hh.
  - apply not_elem_of_cons in Hknl as [HUnl HKnl].
    apply not_elem_of_cons. split; [done|].
    apply not_elem_of_app. split; [done|].
    apply not_elem_of_cons. split; [done|].
    apply not_elem_of_cons. split; [done|]. done.
Qed.

Lemma property_of_nil : property_of [] = None.
Proof. reflexivity. Qed.

Lemma block_lines ps rest :
  Forall (plain_property py_str) ps ->
  block (map (property_line py_str) ps ++ rest)
  = map (fun kv => (fst kv, fmt py_str (snd kv))) ps ++ block rest.
Proof.
  induction 1 as [|kv ps Hkv _ IH]; [done|].
  simpl. destruct (property_line_read kv Hkv) as [-> _]. rewrite IH. done.
Qed.

Lemma record_all_fresh (kvs : list (pystr * pystr)) : forall d,
  NoDup (map fst d ++ map fst kvs) ->
  record_all kvs d = d ++ map (fun p => (fst p, JStr (snd p))) kvs.
Proof.
  unfold record_all. induction kvs as [|[k v] kvs IH]; intros d Hnd; simpl.
  - rewrite app_nil_r. done.
  - assert (Hk : dict_set k (JStr v) d = d ++ [(k, JStr v)]).
    { apply NoDup_app in Hnd as (_ & Hdis & _).
      assert (Hnot : k ∉ map fst d).
      { intros Hin. apply (Hdis k Hin). simpl. apply list_elem_of_here. }
      clear -Hnot. induction d as [|[k' v'] d IHd]; [done|].
      simpl in *. apply not_elem_of_cons in Hnot as [Hne Hnot].
      destruct (str_eqb k' k) eqn:E; [apply str_eqb_eq in E; congruence|].
      rewrite IHd by done. done. }
    rewrite Hk. rewrite IH.
    + rewrite <- app_assoc. done.
    + rewrite map_app. simpl. rewrite <- app_assoc. exact Hnd.
Qed.
End PageLines.

Section PageReadBack.
Variable py_str : json -> pystr.
Implicit Types (r : Resource) (ps : list (pystr * json)).

(** The lines of the text [_format_content] writes for a resource with
    properties. *)
Lemma format_content_lines r :
  nl ∉ name r -> properties r <> [] ->
  Forall (plain_property py_str) (properties r) ->
  split_nl (_format_content py_str r)
  = (str "# " ++ name r) :: [] :: map (property_line py_str) (properties r)
    ++ [] :: flat_map split_nl (body_parts r).
Proof.
  intros Hname Hps Hplain.
  assert (Hparts : _format_content py_str r
                   = join [nl] ([(str "# " ++ name r) ++ [nl]]
                                ++ (map (property_line py_str) (properties r) ++ [[]])
                                ++ body_parts r)).
  { unfold _format_content, body_parts.
    destruct (properties r) as [|kv ps]; [done|].
    destruct (nonempty (content r)), (tags r);
      rewrite <- ?app_assoc; simpl app; rewrite ?app_nil_r, <- ?app_assoc; done. }
  rewrite Hparts. rewrite split_nl_join by done.
  rewrite !flat_map_app. cbn [flat_map]. rewrite app_nil_r.
  change (split_nl []) with [@nil ascii].
  rewrite (split_nl_line (str "# " ++ name r) []).
  2:{ apply not_elem_of_cons. split; [done|].
      apply not_elem_of_cons. split; [done|]. done. }
  assert (Hflat : flat_map split_nl (map (property_line py_str) (properties r))
                  = map (property_line py_str) (properties r)).
  { clear -Hplain. induction Hplain as [|kv ps Hkv _ IH]; [done|].
    simpl. rewrite IH. rewrite split_nl_one; [done|].
    apply property_line_read. done. }
  rewrite Hflat. simpl. rewrite <- app_assoc. done.
Qed.

(** The scan window of such a text: the first 20 property lines are the
    block; the blank line after them belongs to it when it is in the
    window. *)
Lemma window_of_properties ps (B : list pystr) :
  ps <> [] -> Forall (plain_property py_str) ps ->
  captured (take 20 (map (property_line py_str) ps ++ [] :: B))
  = map (fun kv => (fst kv, fmt py_str (snd kv))) (take 20 ps)
  /\ block_end (take 20 (map (property_line py_str) ps ++ [] :: B))
     = Nat.min 20 (length ps) + (if length ps <? 20 then 1 else 0).
Proof.
  intros Hne Hplain.
  set (X := take (20 - length ps) ([] :: B)).
  assert (HW : take 20 (map (property_line py_str) ps ++ [] :: B)
               = map (property_line py_str) (take 20 ps) ++ X).
  { rewrite take_app, length_map, fmap_take. done. }
  rewrite HW.
  assert (HX : block X = [] /\ blank_next X = if length ps <? 20 then 1 else 0).
  { unfold X. destruct (Nat.ltb_spec (length ps) 20) as [Hlt|Hge].
    - destruct (20 - length ps) as [|m] eqn:E; [lia|]. done.
    - replace (20 - length ps) with 0 by lia. done. }
  destruct HX as [HXb HXn].
  assert (Htake : Forall (plain_property py_str) (take 20 ps))
    by (apply Forall_take; done).
  assert (Hbefore : before_block (map (property_line py_str) (take 20 ps) ++ X) = []).
  { destruct ps as [|kv ps']; [done|]. simpl.
    apply Forall_cons in Hplain as [Hkv _].
    destruct (property_line_read py_str kv Hkv) as [-> _]. done. }
  assert (Hcap : captured (map (property_line py_str) (take 20 ps) ++ X)
                 = map (fun kv => (fst kv, fmt py_str (snd kv))) (take 20 ps)).
  { unfold captured. rewrite Hbefore. change (length (@nil pystr)) with 0. rewrite drop_0.
    rewrite block_lines by done. rewrite HXb, app_nil_r. done. }
  split; [exact Hcap|].
  assert (Hend : forall W, captured W <> [] ->
            block_end W = length (before_block W) + length (captured W)
              + blank_next (drop (length (before_block W) + length (captured W)) W)).
  { intros W HW'. unfold block_end. destruct (captured W); done. }
  rewrite Hend by (rewrite Hcap; destruct ps; done).
  rewrite Hcap, Hbefore. rewrite length_map. cbn [length Nat.add].
  replace (length (take 20 ps))
    with (length (map (property_line py_str) (take 20 ps))) at 2
    by (rewrite length_map; done).
  rewrite drop_app_length. rewrite HXn. rewrite length_take. lia.
Qed.

Lemma heading_line_starts (n : pystr) :
  has_ink n = true -> startswith (str "# ") (strip (str "# " ++ n)) = true.
Proof.
  intros Hn. change (str "# " ++ n) with ("#"%char :: [" "%char] ++ n).
  rewrite strip_cons_ink by done. rewrite rstrip_app_ink by done. done.
Qed.

(** [_extract_properties] on the text [_format_content] writes for a
    resource with properties. *)
Lemma extract_formatted r (i n : pystr) :
  has_ink (name r) = true -> nl ∉ name r ->
  properties r <> [] -> wf_dict (properties r) ->
  Forall (plain_property py_str) (properties r) ->
  _extract_properties (new_resource i n JNull (_format_content py_str r))
  = set_content_properties
      (strip (join [nl]
         (drop (Nat.min 20 (length (properties r))
                + (if length (properties r) <? 20 then 1 else 0))
               (map (property_line py_str) (properties r)
                ++ [] :: flat_map split_nl (body_parts r)))))
      (formatted py_str (take 20 (properties r)))
      (new_resource i n JNull (_format_content py_str r)).
Proof.
  intros Hink Hnl Hps Hwf Hplain.
  rewrite extract_properties_spec.
  cbn [content properties new_resource].
  rewrite format_content_lines by done.
  rewrite content_start_heading by (apply heading_line_starts; done).
  change (if is_blank [] then 2 else 1) with 2.
  cbn [drop Nat.add].
  destruct (window_of_properties (properties r)
              (flat_map split_nl (body_parts r)) Hps Hplain) as [Hcap Hend].
  rewrite !drop_0. rewrite Hcap, Hend. f_equal.
  rewrite record_all_fresh.
  - simpl app. unfold formatted. rewrite map_map. done.
  - simpl app. rewrite map_map. simpl.
    unfold wf_dict in Hwf. rewrite <- (take_drop 20 (properties r)) in Hwf.
    rewrite map_app in Hwf. apply NoDup_app in Hwf as [Hwf _]. exact Hwf.
Qed.
End PageReadBack.

Section PageRoundTrip.
Variable py_str : json -> pystr.

(** X3: a page body written by the Notion exporter's [_format_content]
    for a resource with properties, read back by the Notion parser's
    [_extract_properties]: when the name has a visible character and no
    line feed, and every property has a key of the form the parser
    accepts and a formatted value that is not empty, stripped and on one
    line, the first 20 properties come back in order with their values
    formatted.  With at most 20 properties the body that comes back is
    the content followed by the line of the tags, stripped, so the
    stripped content when there are no tags; with more than 20 the
    remaining property lines stay at the head of the body. *)
Theorem notion_page_read_back (r : Resource) (i n : pystr) :
  has_ink (name r) = true -> nl ∉ name r ->
  properties r <> [] -> wf_dict (properties r) ->
  Forall (plain_property py_str) (properties r) ->
  properties (_extract_properties (new_resource i n JNull (_format_content py_str r)))
  = formatted py_str (take 20 (properties r))
  /\ (length (properties r) <= 20 ->
      content (_extract_properties (new_resource i n JNull (_format_content py_str r)))
      = strip (join [nl] (body_parts r)))
  /\ (length (properties r) <= 20 -> tags r = [] ->
      content (_extract_properties (new_resource i n JNull (_format_content py_str r)))
      = strip (content r))
  /\ (20 < length (properties r) ->
      content (_extract_properties (new_resource i n JNull (_format_content py_str r)))
      = strip (join [nl] (map (property_line py_str) (drop 20 (properties r))
                          ++ [] :: body_parts r))).
Proof.
  intros Hink Hnl Hps Hwf Hplain.
  rewrite (extract_formatted py_str r i n Hink Hnl Hps Hwf Hplain).
  cbn [properties content set_content_properties].
  set (L := map (property_line py_str) (properties r)).
  set (B := flat_map split_nl (body_parts r)).
  assert (HL : length L = length (properties r)) by apply length_map.
  assert (Hshort : length (properties r) <= 20 ->
            strip (join [nl]
              (drop (Nat.min 20 (length (properties r))
                     + (if length (properties r) <? 20 then 1 else 0)) (L ++ [] :: B)))
            = strip (join [nl] (body_parts r))).
  { intros Hle. destruct (Nat.ltb_spec (length (properties r)) 20) as [Hlt|Hge].
    - replace (Nat.min 20 (length (properties r)) + 1) with (length L + 1) by lia.
      rewrite drop_app_add'. 2: done.
      cbn [drop]. rewrite drop_0. unfold B. rewrite join_flat_split. done.
    - replace (Nat.min 20 (length (properties r)) + 0) with (length L) by lia.
      rewrite drop_app_length. unfold B.
      change ([] :: flat_map split_nl (body_parts r))
        with ([[]] ++ flat_map split_nl (body_parts r)).
      rewrite (join_flat_split_after [[]] (body_parts r)).
      destruct (body_parts r) as [|b bs]; [done|].
      change ([[]] ++ b :: bs) with ([] :: b :: bs).
      rewrite join_cons by done. simpl app. rewrite strip_cons_ws by done. done. }
  split; [done|]. split; [exact Hshort|]. split.
  - intros Hle Htags. rewrite Hshort by done. unfold body_parts. rewrite Htags.
    rewrite app_nil_r. destruct (content r); done.
  - intros Hgt. destruct (Nat.ltb_spec (length (properties r)) 20) as [Hlt|Hge]; [lia|].
    replace (Nat.min 20 (length (properties r)) + 0) with 20 by lia.
    rewrite drop_app_le by lia.
    assert (Hd : drop 20 L = map (property_line py_str) (drop 20 (properties r))).
    { unfold L. symmetry. apply (fmap_drop (property_line py_str)). }
    rewrite Hd. unfold B.
    change ([] :: flat_map split_nl (body_parts r))
      with ([[]] ++ flat_map split_nl (body_parts r)).
    rewrite app_assoc.
    rewrite (join_flat_split_after
               (map (property_line py_str) (drop 20 (properties r)) ++ [[]])
               (body_parts r)).
    rewrite <- app_assoc. done.
Qed.
End PageRoundTrip.

Lemma notion_page_read_back_witness :
  properties (_extract_properties
                (new_resource (str "x") (str "Title") JNull
                   (_format_content no_str described)))
  = [(str "Owner", JStr (str "Alice")); (str "Status", JStr (str "Active"))]
  /\ content (_extract_properties
                (new_resource (str "x") (str "Title") JNull
                   (_format_content no_str described)))
     = str "Body text".
Proof.
  assert (Hplain : Forall (plain_property no_str) (properties described)).
  { repeat constructor; try (intros H; vm_compute in H;
      repeat (apply elem_of_cons in H as [H|H]; [discriminate H|]);
      apply elem_of_nil in H; exact H); try discriminate;
      eexists _, _; repeat split; try reflexivity; discriminate. }
  assert (Hwf : wf_dict (properties described)).
  { unfold wf_dict. simpl. apply NoDup_ListNoDup. repeat constructor; simpl.
    - intros [H|[]]. discriminate H.
    - intros []. }
  assert (Hnl : nl ∉ name described).
  { intros H. vm_compute in H.
    repeat (apply elem_of_cons in H as [H|H]; [discriminate H|]).
    apply elem_of_nil in H. exact H. }
  destruct (notion_page_read_back no_str described (str "x") (str "Title")
              eq_refl Hnl ltac:(discriminate) Hwf Hplain) as (Hp & _ & Hc & _).
  split; [exact Hp|]. apply Hc; [simpl; lia|reflexivity].
Defined.

(** ** File names written by the Notion exporter and read back *)

Section FileNames.
Implicit Types (s x y : pystr) (r : Resource).

Lemma before_last_dot_md s : before_last_dot (s ++ str ".md") = Some s.
Proof.
  induction s as [|c s IH]; [reflexivity|].
  change ((c :: s) ++ str ".md") with (c :: (s ++ str ".md")).
  cbn [before_last_dot]. rewrite IH. done.
Qed.

Lemma after_last_slash_None s : "/"%char ∉ s -> after_last_slash s = None.
Proof.
  induction s as [|c s IH]; [done|]. intros H.
  apply not_elem_of_cons in H as [Hc Hs]. cbn [after_last_slash].
  rewrite IH by done. destruct (ch_eqb c "/") eqn:E; [|done].
  apply ch_eqb_eq in E. congruence.
Qed.

Lemma stem_md_filename r :
  "/"%char ∉ name r -> "/"%char ∉ id r ->
  stem (md_filename r) = name r ++ str " " ++ id r.
Proof.
  intros Hn Hi. unfold stem, path_name.
  rewrite after_last_slash_None.
  2:{ unfold md_filename. rewrite !not_elem_of_app. split; [done|].
      split; [|split; [done|]];
        intros H; repeat (apply elem_of_cons in H as [H|H]; [discriminate H|]);
        apply elem_of_nil in H; exact H. }
  cbn [default from_option].
  unfold md_filename. rewrite !app_assoc.
  rewrite before_last_dot_md. rewrite <- !app_assoc.
  rewrite !length_app. cbn [length str list_ascii_of_string].
  destruct (Nat.ltb_spec 0 (length (name r) + (1 + length (id r)))); [|lia].
  destruct (Nat.ltb_spec (length (name r) + (1 + length (id r)))
              (length (name r) + (1 + (length (id r) + 3)) - 1)); [|lia].
  done.
Qed.

Lemma hex_not_space tok : is_token tok -> " "%char ∉ tok.
Proof.
  intros [_ Hall] Hin. rewrite Forall_forall in Hall.
  specialize (Hall _ Hin). discriminate Hall.
Qed.

Lemma no_token_across_space x y pre tok :
  length y < 32 -> is_token tok -> x ++ " "%char :: y <> pre ++ tok.
Proof.
  intros Hy Htok Heq. pose proof Htok as [Hlen _].
  assert (Hpre : length pre <= length x).
  { apply (f_equal length) in Heq. rewrite !length_app in Heq. simpl in Heq. lia. }
  apply (f_equal (drop (length pre))) in Heq.
  rewrite drop_app_length in Heq. rewrite drop_app_le in Heq by done.
  apply (hex_not_space tok Htok). rewrite <- Heq.
  apply elem_of_app. right. apply list_elem_of_here.
Qed.

Lemma no_token_after_space x y :
  length y < 32 -> ~ ends_with_token (x ++ " "%char :: y).
Proof.
  intros Hy (pre & tok & e & Heq & Htok & [->| ->]).
  - rewrite app_nil_r in Heq. exact (no_token_across_space x y pre tok Hy Htok Heq).
  - destruct y as [|c y _] using rev_ind.
    + rewrite app_assoc in Heq. apply app_inj_tail in Heq as [_ Hc]. discriminate Hc.
    + assert (Heq' : (x ++ " "%char :: y) ++ [c] = (pre ++ tok) ++ [nl])
        by (rewrite <- !app_assoc; exact Heq).
      apply app_inj_tail in Heq' as [Heq' _].
      rewrite length_app in Hy. simpl in Hy. clear Heq. rename Heq' into Heq.
      apply (no_token_across_space x y pre tok); [lia|done|exact Heq].
Qed.

(** X4: the page file the Notion exporter writes for a resource is named
    after its name and id.  For a name without path separator, read
    back by the Notion parser from the stem of that file name, the name
    and id are recovered (the name stripped) when the id is 32
    characters of 0-9 and a-f and the name is not empty and has no line
    feed.  When the id is shorter than 32 characters and has no path
    separator either, the name that comes back is the name followed by
    a space and the id, and the id that comes back is that string in
    lower case with spaces replaced by underscores. *)
Theorem exported_file_name_read_back r :
  "/"%char ∉ name r ->
  (is_token (id r) -> name r <> [] -> nl ∉ name r ->
   _extract_name_from_filename (stem (md_filename r)) = strip (name r)
   /\ _extract_id_from_filename (stem (md_filename r)) = id r)
  /\ (length (id r) < 32 -> "/"%char ∉ id r ->
      _extract_name_from_filename (stem (md_filename r))
      = name r ++ str " " ++ id r
      /\ _extract_id_from_filename (stem (md_filename r))
         = replace_char " " "_" (lower (name r ++ str " " ++ id r))).
Proof.
  intros Hslash. split.
  - intros Htok Hne Hnl. rewrite stem_md_filename; [|done|].
    2:{ destruct Htok as [_ Hhex]. intros Hin.
        rewrite Forall_forall in Hhex. apply Hhex in Hin. discriminate Hin. }
    split.
    + apply extract_name_token; try done. repeat constructor.
    + rewrite app_assoc. apply extract_id_token. done.
  - intros Hlen Hslash'. rewrite stem_md_filename by done.
    pose proof (no_token_after_space (name r) (id r) Hlen) as Hno.
    split; [apply no_token_name; exact Hno|].
    apply no_token_absent in Hno. unfold token_absent in Hno.
    unfold _extract_id_from_filename.
    change (str " " ++ id r) with (" "%char :: id r). rewrite Hno. done.
Qed.

Lemma exported_file_name_read_back_witness :
  (_extract_name_from_filename (stem (md_filename token_id_page)) = str "Page Name"
   /\ _extract_id_from_filename (stem (md_filename token_id_page)) = sample_token)
  /\ (_extract_name_from_filename (stem (md_filename short_id_page))
      = str "Page Name ab12cd34"
      /\ _extract_id_from_filename (stem (md_filename short_id_page))
         = str "page_name_ab12cd34").
Proof.
  assert (Hno : forall (c : ascii) (s : pystr),
            forallb (fun a : ascii => negb (ch_eqb a c)) s = true -> c ∉ s).
  { intros c s. induction s as [|a s IH]; cbn [forallb];
      [intros _; apply not_elem_of_nil|].
    intros H. apply andb_true_iff in H as [Ha Hs].
    apply not_elem_of_cons. split; [|apply IH; exact Hs].
    intros ->. rewrite ch_eqb_refl in Ha. discriminate Ha. }
  split.
  - apply (proj1 (exported_file_name_read_back token_id_page
                    (Hno "/"%char (name token_id_page) eq_refl))).
    + exact sample_token_ok.
    + discriminate.
    + apply Hno. reflexivity.
  - apply (proj2 (exported_file_name_read_back short_id_page
                    (Hno "/"%char (name short_id_page) eq_refl))).
    + simpl. lia.
    + apply Hno. reflexivity.
Defined.
End FileNames.

(** ** Image lines *)

Section LazyShortest.
Variable f : ascii -> bool.
Variable k : pystr -> option (list pystr).

(** The lazy repetition stops at the shortest prefix after which the rest
    of the pattern matches. *)
Lemma lazy_rep_shortest m : forall acc r ps,
  forallb f m = true -> k r = Some ps ->
  (forall m1 m2, m = m1 ++ m2 -> m2 <> [] -> k (m2 ++ r) = None) ->
  lazy_rep f k 0 acc (m ++ r) = Some ((rev acc ++ m) :: ps).
Proof.
  induction m as [|c m IH]; intros acc r ps Hf Hk Hmin.
  - simpl app. rewrite lazy_rep_unfold. unfold stop. rewrite Hk. simpl.
    rewrite app_nil_r. done.
  - simpl in Hf. apply andb_true_iff in Hf as [Hc Hf].
    simpl app. rewrite lazy_rep_unfold. unfold stop.
    pose proof (Hmin [] (c :: m) eq_refl ltac:(done)) as Hnone.
    simpl app in Hnone. rewrite Hnone. simpl option_map. cbv iota.
    rewrite Hc. simpl pred. rewrite (IH (c :: acc) r ps); [|done|done|].
    + simpl. rewrite <- app_assoc. done.
    + intros m1 m2 -> Hm2. apply (Hmin (c :: m1) m2); done.
Qed.

Lemma lazy_rep_shortest_inv s : forall acc parts,
  lazy_rep f k 0 acc s = Some parts ->
  exists m r ps,
    s = m ++ r /\ forallb f m = true /\ k r = Some ps
    /\ parts = (rev acc ++ m) :: ps
    /\ (forall m1 m2, m = m1 ++ m2 -> m2 <> [] -> k (m2 ++ r) = None).
Proof.
  induction s as [|c s IH]; intros acc parts; rewrite lazy_rep_unfold; unfold stop.
  - destruct (k []) as [ps|] eqn:Hk; simpl; [|done]. intros [= <-].
    exists [], [], ps. rewrite (app_nil_r (rev acc)). repeat split; try done.
    intros m1 m2 Hm. destruct m1, m2; done.
  - destruct (k (c :: s)) as [ps|] eqn:Hk; simpl.
    + intros [= <-]. exists [], (c :: s), ps. rewrite (app_nil_r (rev acc)).
      repeat split; try done. intros m1 m2 Hm. destruct m1, m2; done.
    + destruct (f c) eqn:Hc; [|done]. intros H.
      destruct (IH _ _ H) as (m & r & ps & -> & Hf & Hkr & -> & Hmin).
      exists (c :: m), r, ps. simpl. rewrite Hc, Hf, <- app_assoc.
      repeat split; try done.
      intros m1 m2 Hm Hm2. destruct m1 as [|c1 m1].
      * simpl in Hm. subst m2. exact Hk.
      * injection Hm as <- Hm. apply (Hmin m1 m2); done.
Qed.

Lemma lazy_rep_exists m : forall acc r,
  forallb f m = true -> is_Some (k r) ->
  is_Some (lazy_rep f k 0 acc (m ++ r)).
Proof.
  induction m as [|c m IH]; intros acc r Hf [ps Hk].
  - simpl app. rewrite lazy_rep_unfold. unfold stop. rewrite Hk. simpl. eauto.
  - simpl in Hf. apply andb_true_iff in Hf as [Hc Hf].
    simpl app. rewrite lazy_rep_unfold. unfold stop.
    destruct (k (c :: m ++ r)) as [ps'|]; simpl; [eauto|].
    rewrite Hc. apply IH; [done|eauto].
Qed.
End LazyShortest.

Section ImagePattern.
Implicit Types (s alt src tail r u : pystr).

Lemma after_src_Some r ps :
  after_src r = Some ps <-> exists r', r = ")"%char :: r' /\ ps = [[")"%char]].
Proof.
  unfold after_src. cbn [match_items qnt cls take_times].
  destruct r as [|c r']; [split; [done|intros (? & ? & _); done]|].
  unfold lit. destruct (ch_eqb c ")") eqn:E.
  - apply ch_eqb_eq in E. subst c. simpl. split.
    + intros [= <-]. eauto.
    + intros (? & _ & ->). done.
  - split; [done|]. intros (r'' & [= -> _] & _). rewrite ch_eqb_refl in E. done.
Qed.

Lemma after_src_head c r u : after_src (c :: r) = None -> after_src (c :: u) = None.
Proof.
  intros H. destruct (after_src (c :: u)) as [ps|] eqn:E; [|done].
  apply after_src_Some in E as (r' & [= -> _] & _).
  assert (Hs : after_src (")"%char :: r) = Some [[")"%char]])
    by (apply after_src_Some; eauto).
  congruence.
Qed.

Lemma after_alt_eq r :
  after_alt r =
  match r with
  | c1 :: c2 :: s2 =>
      if ch_eqb c1 "]" && ch_eqb c2 "(" then
        option_map (fun parts => [c1] :: [c2] :: parts)
          (lazy_rep dot after_src 0 [] s2)
      else None
  | _ => None
  end.
Proof.
  assert (H : after_alt r =
    match take_times (lit "]") 1 r with
    | Some (m, r1) =>
        option_map (cons m)
          match take_times (lit "(") 1 r1 with
          | Some (m', r2) => option_map (cons m') (lazy_rep dot after_src 0 [] r2)
          | None => None
          end
    | None => None
    end) by reflexivity.
  rewrite H. clear H. destruct r as [|c1 [|c2 s2]]; cbn [take_times]; unfold lit.
  - done.
  - destruct (ch_eqb c1 "]"); done.
  - destruct (ch_eqb c1 "]"); cbn [andb]; [|done].
    destruct (ch_eqb c2 "("); [|done].
    destruct (lazy_rep dot after_src 0 [] s2); done.
Qed.

Lemma after_alt_mono u tail : is_Some (after_alt u) -> is_Some (after_alt (u ++ tail)).
Proof.
  rewrite !after_alt_eq. destruct u as [|c1 [|c2 s2]].
  - intros [? ?]; done.
  - intros [? ?]; done.
  - simpl app. destruct (ch_eqb c1 "]" && ch_eqb c2 "(") eqn:Hc; [|intros [? ?]; done].
    destruct (lazy_rep dot after_src 0 [] s2) as [parts|] eqn:E; [|intros [? ?]; done].
    intros _.
    apply lazy_rep_shortest_inv in E as (m & r & ps & -> & Hm & Hk & _).
    rewrite <- app_assoc.
    assert (Hsome : is_Some (after_src (r ++ tail))).
    { apply after_src_Some in Hk as (r' & -> & _). simpl.
      exists [[")"%char]]. apply after_src_Some. eauto. }
    destruct (lazy_rep_exists dot after_src m [] (r ++ tail) Hm Hsome) as [parts' Hp].
    rewrite Hp. simpl. rewrite Hc. simpl. eauto.
Qed.

Lemma image_match_eq s :
  re_match image_pattern s =
  match s with
  | c1 :: c2 :: s1 =>
      if ch_eqb c1 "!" && ch_eqb c2 "[" then
        option_map (fun parts => Matched image_pattern ([c1] :: [c2] :: parts))
          (lazy_rep dot after_alt 0 [] s1)
      else None
  | _ => None
  end.
Proof.
  assert (H : re_match image_pattern s = option_map (Matched image_pattern)
    match take_times (lit "!") 1 s with
    | Some (m, r1) =>
        option_map (cons m)
          match take_times (lit "[") 1 r1 with
          | Some (m', r2) => option_map (cons m') (lazy_rep dot after_alt 0 [] r2)
          | None => None
          end
    | None => None
    end) by reflexivity.
  rewrite H. clear H. destruct s as [|c1 [|c2 s1]]; cbn [take_times]; unfold lit.
  - done.
  - destruct (ch_eqb c1 "!"); done.
  - destruct (ch_eqb c1 "!"); cbn [andb]; [|done].
    destruct (ch_eqb c2 "["); [|done].
    destruct (lazy_rep dot after_alt 0 [] s1); done.
Qed.
End ImagePattern.

Section ImageRebuild.
Implicit Types (s alt src tail : pystr).

Lemma dot_no_nl s : forallb dot s = true -> nl ∉ s.
Proof.
  induction s as [|c s IH]; simpl; [intros _; apply not_elem_of_nil|].
  intros H. apply andb_true_iff in H as [Hc Hs].
  apply not_elem_of_cons. split; [|auto].
  intros <-. unfold dot in Hc. rewrite ch_eqb_refl in Hc. done.
Qed.

(** A matched image line and the text built from its two groups: the
    pattern matches that text with the same groups. *)
Lemma image_rebuild s m :
  re_match image_pattern s = Some m ->
  (nl ∉ group 1 m) /\ (nl ∉ group 2 m)
  /\ exists m',
       re_match image_pattern (image_text (group 1 m) (group 2 m)) = Some m'
       /\ group 1 m' = group 1 m /\ group 2 m' = group 2 m.
Proof.
  rewrite image_match_eq. destruct s as [|c1 [|c2 s1]]; [done..|].
  destruct (ch_eqb c1 "!" && ch_eqb c2 "[") eqn:Hc; [|done].
  apply andb_true_iff in Hc as [H1 H2].
  apply ch_eqb_eq in H1, H2. subst c1 c2.
  destruct (lazy_rep dot after_alt 0 [] s1) as [parts|] eqn:E; [|done].
  intros [= <-].
  apply lazy_rep_shortest_inv in E as (alt & r1 & ps1 & -> & Halt & Hk1 & -> & Hmin1).
  rewrite after_alt_eq in Hk1. destruct r1 as [|d1 [|d2 s2]]; [done..|].
  destruct (ch_eqb d1 "]" && ch_eqb d2 "(") eqn:Hd; [|done].
  apply andb_true_iff in Hd as [H1 H2].
  apply ch_eqb_eq in H1, H2. subst d1 d2.
  destruct (lazy_rep dot after_src 0 [] s2) as [parts2|] eqn:E2; [|done].
  injection Hk1 as <-.
  apply lazy_rep_shortest_inv in E2 as (src & r2 & ps2 & -> & Hsrc & Hk2 & -> & Hmin2).
  apply after_src_Some in Hk2 as (tail & -> & ->).
  assert (Hg1 : group 1 (Matched image_pattern
             (["!"%char] :: ["["%char] :: ([] ++ alt) :: ["]"%char] :: ["("%char]
              :: ([] ++ src) :: [[")"%char]])) = alt).
  { unfold group. simpl. rewrite app_nil_r. done. }
  assert (Hg2 : group 2 (Matched image_pattern
             (["!"%char] :: ["["%char] :: ([] ++ alt) :: ["]"%char] :: ["("%char]
              :: ([] ++ src) :: [[")"%char]])) = src).
  { unfold group. simpl. rewrite app_nil_r. done. }
  change (rev [] ++ alt) with ([] ++ alt).
  change (rev [] ++ src) with ([] ++ src).
  rewrite Hg1, Hg2.
  split; [apply dot_no_nl; done|]. split; [apply dot_no_nl; done|].
  assert (Hsrc' : lazy_rep dot after_src 0 [] (src ++ [")"%char])
                  = Some ((rev [] ++ src) :: [[")"%char]])).
  { apply lazy_rep_shortest; [done|apply after_src_Some; eauto|].
    intros m1 m2 Hm Hm2. destruct m2 as [|c m2]; [done|].
    apply (after_src_head c (m2 ++ ")"%char :: tail)).
    apply (Hmin2 m1 (c :: m2)); done. }
  assert (Halt' : lazy_rep dot after_alt 0 []
                    (alt ++ "]"%char :: "("%char :: src ++ [")"%char])
                  = Some ((rev [] ++ alt) :: ["]"%char] :: ["("%char]
                          :: (rev [] ++ src) :: [[")"%char]])).
  { apply lazy_rep_shortest; [done| |].
    - rewrite after_alt_eq. simpl. rewrite Hsrc'. done.
    - intros a1 a2 Ha Ha2.
      destruct (after_alt (a2 ++ "]"%char :: "("%char :: src ++ [")"%char]))
        as [ps|] eqn:Eps; [|done].
      exfalso.
      pose proof (after_alt_mono _ tail (ex_intro _ ps Eps)) as [ps' Hps'].
      rewrite <- !app_assoc in Hps'. simpl in Hps'. rewrite <- app_assoc in Hps'.
      simpl in Hps'. rewrite (Hmin1 a1 a2 Ha Ha2) in Hps'. done. }
  eexists. split.
  - unfold image_text. rewrite image_match_eq.
    change (str "![" ++ alt ++ str "](" ++ src ++ str ")")
      with ("!"%char :: "["%char :: alt ++ "]"%char :: "("%char :: src ++ [")"%char]).
    simpl andb. cbv iota. rewrite Halt'. simpl option_map. reflexivity.
  - simpl rev. split; [exact Hg1|exact Hg2].
Qed.
End ImageRebuild.

Section ImageLines.
Implicit Types (line l t text : pystr) (rest ls : list pystr) (b : md_block).

Lemma image_paragraph_no_nl text : image_paragraph text -> nl ∉ text.
Proof.
  intros (m & Hm & Heq). destruct (image_rebuild _ _ Hm) as (H1 & H2 & _).
  rewrite Heq. unfold image_text.
  rewrite !not_elem_of_app. repeat split; try done;
    intros Hin; vm_compute in Hin;
    repeat (apply elem_of_cons in Hin as [Hin|Hin]; [discriminate Hin|]);
    apply elem_of_nil in Hin; done.
Qed.

Lemma image_text_strip alt src : strip (image_text alt src) = image_text alt src.
Proof.
  unfold image_text.
  change (str "![" ++ alt ++ str "](" ++ src ++ str ")")
    with ("!"%char :: "["%char :: alt ++ str "](" ++ src ++ str ")").
  rewrite strip_cons_ink by done. f_equal.
  transitivity (rstrip ((("["%char :: alt) ++ str "](" ++ src) ++ str ")")).
  { f_equal. rewrite <- !app_assoc. done. }
  rewrite rstrip_app_ink by done.
  change (rstrip (str ")")) with (str ")"). rewrite <- !app_assoc. done.
Qed.

(** The parser on a line that is the text of an image paragraph. *)
Lemma md_loop_image_paragraph text rest :
  image_paragraph text ->
  md_loop (text :: rest) = paragraph_node text :: md_loop rest.
Proof.
  intros (m & Hm & Heq).
  assert (Hs : strip text = text) by (rewrite Heq; apply image_text_strip).
  rewrite md_loop_cons, Hs, Hm. cbv iota beta.
  fold (image_text (group 1 m) (group 2 m)). rewrite <- Heq.
  set (res := paragraph_node text :: md_loop rest).
  rewrite Heq. unfold image_text.
  change (str "![" ++ ?x) with ("!"%char :: "["%char :: x).
  reflexivity.
Qed.

(** Parsing what the serializer wrote for a block of the parser. *)
Lemma reparse_parsed_block b t :
  parsed_block b ->
  md_loop (split_nl (render b ++ t)) = node_of b :: md_loop (split_nl t).
Proof.
  intros [Hc|(text & -> & Himg)]; [apply reparse_block; done|].
  cbn [render node_of]. rewrite <- app_assoc.
  change ([nl; nl] ++ t) with (nl :: [] ++ nl :: t).
  rewrite (split_nl_line text) by (apply image_paragraph_no_nl; done).
  rewrite (split_nl_line []) by apply not_elem_of_nil.
  rewrite md_loop_image_paragraph by done. reflexivity.
Qed.

Lemma reparse_parsed_blocks bs :
  Forall parsed_block bs ->
  _markdown_to_prosemirror (concat (map render bs)) = map node_of bs.
Proof.
  unfold _markdown_to_prosemirror.
  induction 1 as [|b bs Hb Hbs IH]; [done|].
  cbn [map concat]. rewrite reparse_parsed_block by done. rewrite IH. done.
Qed.
End ImageLines.

Section AnyText.
Implicit Types (line l t text : pystr) (rest ls : list pystr) (b : md_block).

(** The parser builds, for any lines, the nodes of blocks it parses back. *)
Lemma md_loop_parsed lines :
  Forall (fun l => nl ∉ l) lines ->
  exists bs, md_loop lines = map node_of bs /\ Forall parsed_block bs.
Proof.
  remember (length lines) as n eqn:Hn. revert lines Hn.
  induction n as [n IH] using lt_wf_ind. intros lines Hn Hnl.
  destruct lines as [|line rest]; [exists []; split; [done|constructor]|].
  apply Forall_cons in Hnl as [Hl Hrest]. simpl in Hn.
  assert (IHrest : exists bs, md_loop rest = map node_of bs /\ Forall parsed_block bs).
  { apply (IH (length rest)); [lia|done..]. }
  assert (Hone : forall b, canonical b ->
            exists bs, node_of b :: md_loop rest = map node_of bs
                       /\ Forall parsed_block bs).
  { intros b Hb. destruct IHrest as (bs & -> & Hbs). exists (b :: bs).
    split; [done|]. constructor; [left; done|done]. }
  rewrite md_loop_cons, nonempty_strip.
  destruct (has_ink line) eqn:Hink; cbn [negb]; [|exact IHrest].
  destruct (startswith (str "#") line) eqn:Hh.
  { rewrite heading_node_min.
    apply (Hone (BHeading (Nat.min (length line - length (lstrip_char "#" line)) 6)
                   (strip (lstrip_char "#" line)))).
    simpl. split; [|split].
    - apply startswith_cons_inv in Hh as (s' & -> & _). simpl.
      rewrite ?ch_eqb_refl. pose proof (length_lstrip_char "#" s'). lia.
    - apply strip_idem.
    - apply no_nl_strip, no_nl_lstrip_char. done. }
  destruct (is_rule (strip line)) eqn:Hr.
  { apply (Hone BRule). done. }
  destruct (starts_bullet (strip line)) eqn:Hb.
  { apply (Hone (BBullet (strip (drop 1 (strip line))))).
    simpl. split; [apply strip_idem|].
    apply no_nl_strip, no_nl_drop, no_nl_strip. done. }
  destruct (startswith (str ">") (strip line)) eqn:Hq.
  { apply (Hone (BQuote (strip (drop 1 (strip line))))).
    simpl. split; [apply strip_idem|].
    apply no_nl_strip, no_nl_drop, no_nl_strip. done. }
  destruct (startswith (str "![") (strip line)) eqn:Hi.
  { destruct (re_match image_pattern (strip line)) as [m|] eqn:Hm; [|exact IHrest].
    destruct IHrest as (bs & -> & Hbs).
    exists (BPara (image_text (group 1 m) (group 2 m)) :: bs).
    split; [done|]. constructor; [|done]. right. eexists. split; [done|].
    destruct (image_rebuild _ _ Hm) as (_ & _ & m' & Hm' & Hg1 & Hg2).
    exists m'. rewrite Hg1, Hg2. done. }
  destruct (para_taken_prefix rest) as [more Hmore].
  assert (Hdrop : drop (length (para_taken rest)) rest = more).
  { rewrite Hmore at 2. apply drop_app_length. }
  rewrite Hdrop.
  assert (Hsplit : Forall (fun l => nl ∉ l) (para_taken rest)
                   /\ Forall (fun l => nl ∉ l) more).
  { apply Forall_app. rewrite <- Hmore. done. }
  destruct Hsplit as [Htaken Hm1].
  destruct (IH (length more)) with (lines := more) as (bs & -> & Hbs); [|done..|].
  { apply (f_equal length) in Hmore. rewrite length_app in Hmore. lia. }
  exists (BPara (join (str " ") (line :: para_taken rest)) :: bs).
  split; [done|]. constructor; [|done]. left. cbn [canonical]. split.
  - apply no_nl_join. constructor; done.
  - apply plain_line_joined; [done|apply para_taken_ink].
Qed.
End AnyText.

Section AnyTextClaims.
Variable py_str : json -> pystr.

(** X5: for every Markdown text, image lines included, the node list of
    [_markdown_to_prosemirror] is the list of the nodes of blocks;
    [_process_nodes] serializes it without raising, at any recursion bound
    of 3 or more, to the rendering of these blocks, and
    [_markdown_to_prosemirror] parses that rendering to the same node
    list: serializing and parsing again changes nothing. *)
Theorem parse_serialize_parse (text : pystr) (fuel : nat) :
  exists bs,
    _markdown_to_prosemirror text = map node_of bs
    /\ _process_nodes py_str (S (S (S fuel))) (JArr (_markdown_to_prosemirror text))
       = Ok (concat (map render bs))
    /\ _markdown_to_prosemirror (concat (map render bs))
       = _markdown_to_prosemirror text.
Proof.
  destruct (md_loop_parsed (split_nl text) (split_nl_no_nl text)) as (bs & Hbs & Hp).
  exists bs. unfold _markdown_to_prosemirror at 1 2 4. rewrite Hbs.
  split; [done|]. split; [apply process_blocks|apply reparse_parsed_blocks; done].
Qed.
End AnyTextClaims.

Section ImageBranch.
Implicit Types (line s : pystr) (rest : list pystr).




End ImageBranch.

(** ** A LegendKeeper record written by the exporter and read back *)

Section Documents.
Variable py_str : json -> pystr.

(** The text of the document the exporter writes for a content. *)
Lemma extract_text_of_document (st : doc_stamp) (content : pystr) (fuel : nat) :
  exists bs,
    _markdown_to_prosemirror content = map node_of bs
    /\ _extract_content_from_documents py_str (S (S (S fuel)))
         (JArr [_content_to_document st content (str "Main")])
       = Ok (concat (map render bs))
    /\ _markdown_to_prosemirror (concat (map render bs))
       = _markdown_to_prosemirror content.
Proof.
  destruct (md_loop_parsed (split_nl content) (split_nl_no_nl content))
    as (bs & Hbs & Hp).
  exists bs. split; [exact Hbs|]. split.
  - unfold _extract_content_from_documents, _content_to_document.
    cbn [iter mbind res_bind documents_loop].
    cbn -[_process_nodes _markdown_to_prosemirror nonempty join].
    unfold _markdown_to_prosemirror. rewrite Hbs.
    rewrite process_blocks. cbn [mbind res_bind].
    destruct (concat (map render bs)); reflexivity.
  - unfold _markdown_to_prosemirror at 2. rewrite Hbs.
    apply reparse_parsed_blocks. done.
Qed.
End Documents.

Section RecordReadBack.
Variable py_str : json -> pystr.
Implicit Types (r : Resource) (st : doc_stamp).

Lemma as_strs_list_strs (l : list pystr) : as_strs_list (map JStr l) = Some l.
Proof. induction l as [|s l IH]; [done|]. simpl. rewrite IH. done. Qed.

Lemma properties_loop_fresh (ps : list (pystr * json)) : forall d,
  NoDup (map fst d ++ map fst ps) ->
  properties_loop
    (map prop_of
       (map (fun kv => JObj [(str "name", JStr (fst kv)); (str "value", snd kv)]) ps)) d
  = d ++ filter (fun kv => nonempty (fst kv) = true) ps.
Proof.
  induction ps as [|[k v] ps IH]; intros d Hnd.
  - simpl. rewrite app_nil_r. done.
  - cbn [map]. change (prop_of (JObj [(str "name", JStr (fst (k, v)));
                                     (str "value", snd (k, v))]))
      with (PropDict (Some k) (Some v)).
    cbn [properties_loop default]. unfold Datatypes.id. rewrite filter_cons. cbn [fst].
    assert (Hnd' : NoDup (map fst d ++ map fst ps)).
    { simpl in Hnd. apply NoDup_app in Hnd as (H1 & H2 & H3).
      apply NoDup_cons in H3 as [_ H3]. apply NoDup_app. split; [done|].
      split; [|done]. intros x Hx Hin. apply (H2 x Hx). apply list_elem_of_further. done. }
    destruct (nonempty k) eqn:Hk.
    + assert (Hset : dict_set k v d = d ++ [(k, v)]).
      { apply NoDup_app in Hnd as (_ & Hdis & _).
        assert (Hnot : k ∉ map fst d).
        { intros Hin. apply (Hdis k Hin). simpl. apply list_elem_of_here. }
        clear -Hnot. induction d as [|[k' v'] d IHd]; [done|].
        simpl in *. apply not_elem_of_cons in Hnot as [Hne Hnot].
        destruct (str_eqb k' k) eqn:E; [apply str_eqb_eq in E; congruence|].
        rewrite IHd by done. done. }
      rewrite Hset. destruct (decide (true = true)); [|done].
      rewrite IH.
      * rewrite <- app_assoc. done.
      * rewrite map_app. simpl. rewrite <- app_assoc. exact Hnd.
    + destruct (decide (false = true)); [done|]. apply IH. exact Hnd'.
Qed.

(** The record read from what the exporter writes for a resource. *)
Lemma record_of_exported st r :
  record_of (_resource_to_legendkeeper st r)
  = mkRecord (Some (id r)) (Some (name r))
      (if truthy (parent_id r) then parent_id r else JNull)
      (Some (or_else (icon_glyph r) (str "book")))
      (Some (or_else (icon_color r) (str "#C49454")))
      (Some (or_else (icon_shape r) (str "pin-medium")))
      (Some (is_hidden r)) (Some (is_locked r))
      (Some (mkBanner (Some (JBool (opt_truthy (banner_url r))))
                      (Some (or_else (banner_url r) []))
                      (Some (banner_y_position r))))
      (Some (tags r)) (Some (aliases r))
      (Some (map prop_of
               (map (fun kv => JObj [(str "name", JStr (fst kv)); (str "value", snd kv)])
                    (properties r))))
      (Some (JArr (if nonempty (content r)
                   then [_content_to_document st (content r) (str "Main")] else [])))
      (_resource_to_legendkeeper st r).
Proof.
  unfold record_of. f_equal;
    unfold _resource_to_legendkeeper, or_else;
    destruct (truthy (parent_id r)), (opt_truthy (icon_glyph r)),
      (opt_truthy (icon_color r)), (opt_truthy (icon_shape r)),
      (nonempty (content r));
    cbn -[_content_to_document]; rewrite ?as_strs_list_strs; reflexivity.
Qed.
End RecordReadBack.

Section RecordRoundTrip.
Variable py_str : json -> pystr.

Lemma opt_truthy_Some (o : option pystr) :
  opt_truthy o = true -> Some (default [] o) = o.
Proof. destruct o; done. Qed.

(** X7: a resource written by [_resource_to_legendkeeper] and read back
    by [_parse_resource] (recursion bound 3 or more, property keys
    distinct): id, name, tags, aliases and the two flags come back
    unchanged; the parent id comes back unless it is [None] or empty
    (the exporter writes no [parentId] then, and [None] comes back);
    each icon field comes back as it was or, when it was unset or empty,
    as the default the exporter writes; the banner URL and position come
    back when the URL is set, otherwise no URL and position 50; the
    properties come back without those whose key is empty; the content
    comes back serialized, and parses to the same node list; the
    children list is empty. *)
Theorem legendkeeper_record_read_back (st : doc_stamp) (r : Resource) (fuel : nat) :
  wf_dict (properties r) ->
  exists out,
    _parse_resource py_str (S (S (S fuel))) (record_of (_resource_to_legendkeeper st r))
    = Ok out
    /\ id out = id r /\ name out = name r
    /\ parent_id out = (if truthy (parent_id r) then parent_id r else JNull)
    /\ tags out = tags r /\ aliases out = aliases r
    /\ is_hidden out = is_hidden r /\ is_locked out = is_locked r
    /\ icon_glyph out = Some (or_else (icon_glyph r) (str "book"))
    /\ icon_color out = Some (or_else (icon_color r) (str "#C49454"))
    /\ icon_shape out = Some (or_else (icon_shape r) (str "pin-medium"))
    /\ banner_url out = (if opt_truthy (banner_url r) then banner_url r else None)
    /\ banner_y_position out
       = (if opt_truthy (banner_url r) then banner_y_position r else 50 # 1)
    /\ properties out = filter (fun kv => nonempty (fst kv) = true) (properties r)
    /\ _markdown_to_prosemirror (content out) = _markdown_to_prosemirror (content r)
    /\ children out = []
    /\ raw_data out = _resource_to_legendkeeper st r.
Proof.
  intros Hwf. rewrite record_of_exported.
  assert (Hdoc : exists text,
            _extract_content_from_documents py_str (S (S (S fuel)))
              (JArr (if nonempty (content r)
                     then [_content_to_document st (content r) (str "Main")] else []))
            = Ok text
            /\ _markdown_to_prosemirror text = _markdown_to_prosemirror (content r)).
  { destruct (nonempty (content r)) eqn:Hc.
    - destruct (extract_text_of_document py_str st (content r) fuel)
        as (bs & _ & Hrun & Hback). eauto.
    - exists []. split; [reflexivity|]. destruct (content r); done. }
  destruct Hdoc as (text & Hrun & Hback).
  unfold _parse_resource.
  cbn [r_banner r_documents r_id r_name r_parentId r_properties r_tags r_aliases
       r_iconGlyph r_iconColor r_iconShape r_isHidden r_isLocked r_raw
       b_enabled b_url b_yPosition default from_option truthy].
  unfold Datatypes.id. rewrite Hrun. cbn [mbind res_bind].
  eexists. split; [reflexivity|].
  cbn [Models.id name parent_id tags aliases is_hidden is_locked icon_glyph icon_color
       icon_shape banner_url banner_y_position properties content children raw_data].
  repeat split; try reflexivity.
  - destruct (opt_truthy (banner_url r)) eqn:E; [|done].
    unfold or_else. rewrite E. simpl. apply opt_truthy_Some. done.
  - rewrite properties_loop_fresh; [done|]. exact Hwf.
  - exact Hback.
Qed.
End RecordRoundTrip.

Lemma legendkeeper_record_read_back_witness :
  exists out,
    _parse_resource no_str 3 (record_of (_resource_to_legendkeeper noon chapter)) = Ok out
    /\ id out = str "ab12cd34" /\ parent_id out = JStr (str "book0001")
    /\ icon_glyph out = Some (str "book") /\ icon_color out = Some (str "#112233")
    /\ banner_y_position out = 50 # 1
    /\ properties out = [(str "Status", JStr (str "Draft"))]
    /\ _markdown_to_prosemirror (content out)
       = [heading_node 1 (str "Chapter"); bullet_node (str "first")].
Proof.
  assert (Hwf : wf_dict (properties chapter)).
  { unfold wf_dict. simpl. apply NoDup_ListNoDup. repeat constructor. intros []. }
  destruct (legendkeeper_record_read_back no_str noon chapter 0 Hwf)
    as (out & Hrun & Hid & _ & Hp & _ & _ & _ & _ & Hg & Hc & _ & _ & Hy & Hps & Hcont & _).
  exists out. split; [exact Hrun|]. split; [exact Hid|]. split; [exact Hp|].
  split; [exact Hg|]. split; [exact Hc|]. split; [exact Hy|].
  split; [exact Hps|]. rewrite Hcont. reflexivity.
Defined.

(** ** Databases: CSV rows *)

Section Sorting.
Implicit Types (a b x y : pystr) (l : list pystr).

Lemma str_leb_total a : forall b, str_leb a b = true \/ str_leb b a = true.
Proof.
  induction a as [|x a IH]; intros [|y b]; simpl; auto.
  destruct (Nat.ltb_spec (code x) (code y)); [auto|].
  destruct (Nat.ltb_spec (code y) (code x)); [auto|]. apply IH.
Qed.

Lemma insert_sorted_elem x l z : z ∈ insert_sorted x l <-> z = x \/ z ∈ l.
Proof.
  induction l as [|y l IH]; simpl.
  - rewrite elem_of_cons. done.
  - destruct (str_leb x y).
    + rewrite elem_of_cons. done.
    + rewrite !elem_of_cons, IH. tauto.
Qed.

Lemma sorted_elem l z : z ∈ sorted l <-> z ∈ l.
Proof.
  induction l as [|x l IH]; simpl; [done|].
  rewrite insert_sorted_elem, elem_of_cons, IH. done.
Qed.

Lemma insert_sorted_NoDup x l : x ∉ l -> NoDup l -> NoDup (insert_sorted x l).
Proof.
  induction l as [|y l IH]; simpl; intros Hx Hnd.
  - apply NoDup_singleton.
  - destruct (str_leb x y); [apply NoDup_cons; done|].
    apply not_elem_of_cons in Hx as [Hxy Hx].
    apply NoDup_cons in Hnd as [Hy Hnd]. apply NoDup_cons. split; [|auto].
    rewrite insert_sorted_elem. intros [->|H]; done.
Qed.

Lemma sorted_NoDup l : NoDup l -> NoDup (sorted l).
Proof.
  induction 1 as [|x l Hx Hnd IH]; simpl; [apply NoDup_nil_2|].
  apply insert_sorted_NoDup; [|done]. rewrite sorted_elem. done.
Qed.

Lemma insert_sorted_Sorted x l :
  Sorted (fun a b => str_leb a b = true) l ->
  Sorted (fun a b => str_leb a b = true) (insert_sorted x l).
Proof.
  induction 1 as [|y l Hl IH Hhd]; simpl.
  - repeat constructor.
  - destruct (str_leb x y) eqn:E.
    + constructor; [constructor; done|]. constructor. done.
    + constructor; [done|].
      assert (Hyx : str_leb y x = true) by (destruct (str_leb_total x y); congruence).
      destruct l as [|z l]; simpl.
      * constructor. done.
      * destruct (str_leb x z); constructor; [done|].
        inversion Hhd; done.
Qed.

Lemma sorted_Sorted l : Sorted (fun a b => str_leb a b = true) (sorted l).
Proof.
  induction l as [|x l IH]; simpl; [constructor|]. apply insert_sorted_Sorted. done.
Qed.
End Sorting.

Section Columns.
Implicit Types (s keys : list pystr) (rows : list DatabaseRow) (c z : pystr).

Lemma existsb_str_eqb z s : existsb (str_eqb z) s = true <-> z ∈ s.
Proof.
  induction s as [|x s IH]; simpl.
  - split; [done|]. intros H. apply elem_of_nil in H. done.
  - rewrite orb_true_iff, IH, elem_of_cons. split.
    + intros [H|H]; [left; apply str_eqb_eq; done|auto].
    + intros [->|H]; [left; apply str_eqb_refl|auto].
Qed.

Lemma set_update_spec keys : forall s,
  NoDup s ->
  NoDup (set_update s keys) /\ forall z, z ∈ set_update s keys <-> z ∈ s \/ z ∈ keys.
Proof.
  unfold set_update. induction keys as [|k keys IH]; intros s Hs; simpl.
  - split; [done|]. intros z. split; [auto|]. intros [H|H]; [done|].
    apply elem_of_nil in H. done.
  - destruct (existsb (str_eqb k) s) eqn:E.
    + apply existsb_str_eqb in E. destruct (IH s Hs) as [Hnd Hin].
      split; [done|]. intros z. rewrite Hin, elem_of_cons.
      split; [tauto|]. intros [H|[->|H]]; auto.
    + assert (Hk : k ∉ s).
      { intros H. apply existsb_str_eqb in H. congruence. }
      destruct (IH (s ++ [k])) as [Hnd Hin].
      { apply NoDup_app. split; [done|]. split; [|apply NoDup_singleton].
        intros x Hx Hxk. apply elem_of_cons in Hxk as [->|Hxk]; [done|].
        apply elem_of_nil in Hxk. done. }
      split; [done|]. intros z. rewrite Hin, elem_of_app, !elem_of_cons.
      split; [|tauto]. intros [[H|[->|H]]|H]; auto.
      apply elem_of_nil in H. done.
Qed.

Lemma columns_fold_spec rows : forall s,
  NoDup s ->
  NoDup (fold_left (fun s row => set_update s (map fst (row_properties row))) rows s)
  /\ forall z,
       z ∈ fold_left (fun s row => set_update s (map fst (row_properties row))) rows s
       <-> z ∈ s \/ exists row, row ∈ rows /\ z ∈ map fst (row_properties row).
Proof.
  induction rows as [|row rows IH]; intros s Hs; simpl.
  - split; [done|]. intros z. split; [auto|]. intros [H|(row & H & _)]; [done|].
    apply elem_of_nil in H. done.
  - destruct (set_update_spec (map fst (row_properties row)) s Hs) as [Hnd Hin].
    destruct (IH _ Hnd) as [Hnd' Hin']. split; [done|].
    intros z. rewrite Hin', Hin. split.
    + intros [[H|H]|(row' & Hr & Hz)]; [auto| |].
      * right. exists row. split; [apply list_elem_of_here|done].
      * right. exists row'. split; [apply list_elem_of_further; done|done].
    + intros [H|(row' & Hr & Hz)]; [auto|].
      apply elem_of_cons in Hr as [->|Hr]; [auto|]. right. eauto.
Qed.

Lemma fold_dict_set_get (kvs : list (pystr * pystr)) : forall d c,
  wf_dict kvs ->
  dict_get c (fold_left (fun d kv => dict_set (fst kv) (snd kv) d) kvs d)
  = match dict_get c kvs with Some v => Some v | None => dict_get c d end.
Proof.
  induction kvs as [|[k v] kvs IH]; intros d c Hwf; simpl; [done|].
  unfold wf_dict in Hwf. simpl in Hwf. apply NoDup_cons in Hwf as [Hk Hwf].
  rewrite IH by done. destruct (str_eqb k c) eqn:E.
  - apply str_eqb_eq in E. subst c.
    apply dict_get_None_keys in Hk. rewrite Hk. apply dict_get_set_eq.
  - apply str_eqb_neq in E. rewrite dict_get_set_ne by done. done.
Qed.

Lemma fold_dict_set_keys (kvs : list (pystr * pystr)) : forall d z,
  z ∈ map fst (fold_left (fun d kv => dict_set (fst kv) (snd kv) d) kvs d)
  <-> z ∈ map fst d \/ z ∈ map fst kvs.
Proof.
  induction kvs as [|[k v] kvs IH]; intros d z; simpl.
  - split; [auto|]. intros [H|H]; [done|]. apply elem_of_nil in H. done.
  - rewrite IH, dict_set_keys, elem_of_cons. tauto.
Qed.
End Columns.

Section Databases.
Implicit Types (rows : list DatabaseRow) (row : DatabaseRow) (c : pystr).

Lemma not_name_iff c : negb (str_eqb c (str "Name")) <-> c <> str "Name".
Proof.
  destruct (str_eqb c (str "Name")) eqn:E; simpl.
  - apply str_eqb_eq in E. split; [done|]. intros H. done.
  - apply str_eqb_neq in E. split; [done|]. intros _. exact I.
Qed.

Lemma columns_of_spec rows :
  exists others,
    columns_of rows = str "Name" :: others
    /\ NoDup (str "Name" :: others)
    /\ Sorted (fun a b => str_leb a b = true) others
    /\ forall c, c ∈ others <->
         c <> str "Name"
         /\ exists row, row ∈ rows /\ c ∈ map fst (row_properties row).
Proof.
  unfold columns_of.
  set (cols := fold_left (fun s row => set_update s (map fst (row_properties row)))
                 rows [str "Name"]).
  destruct (columns_fold_spec rows [str "Name"]) as [Hnd Hin];
    [apply NoDup_singleton|]. fold cols in Hnd, Hin.
  exists (sorted (filter (fun c => negb (str_eqb c (str "Name"))) cols)).
  split; [done|].
  assert (Hmem : forall c,
            c ∈ sorted (filter (fun c => negb (str_eqb c (str "Name"))) cols) <->
            c <> str "Name"
            /\ exists row, row ∈ rows /\ c ∈ map fst (row_properties row)).
  { intros c. rewrite sorted_elem, list_elem_of_filter, not_name_iff, Hin.
    split.
    - intros [Hne [H|H]]; [|done].
      apply elem_of_cons in H as [->|H]; [done|]. apply elem_of_nil in H. done.
    - intros [Hne H]. auto. }
  split; [|split; [apply sorted_Sorted|exact Hmem]].
  apply NoDup_cons. split.
  - rewrite Hmem. intros [H _]. done.
  - apply sorted_NoDup, NoDup_filter. done.
Qed.

Lemma row_dict_get row c :
  wf_dict (row_properties row) ->
  dict_get c (row_dict_of row)
  = match dict_get c (row_properties row) with
    | Some v => Some v
    | None => if str_eqb (str "Name") c then Some (row_name row) else None
    end.
Proof.
  intros Hwf. unfold row_dict_of. rewrite fold_dict_set_get by done. done.
Qed.

(** X8: [_export_database] writes nothing for a database without rows.
    Otherwise the field names it gives the CSV writer are "Name" followed
    by the other property keys of the rows, each once, in ascending
    order; every key of every row dict it gives the writer is one of the
    field names; and, the property keys of a row being distinct, a row
    dict maps a key to the row's property of that name, and "Name" to
    the row's name when the row has no property called "Name". *)
Theorem export_database_fields rows :
  (_export_database [] = None)
  /\ (rows <> [] ->
      exists others,
        _export_database rows = Some (str "Name" :: others, map row_dict_of rows)
        /\ NoDup (str "Name" :: others)
        /\ Sorted (fun a b => str_leb a b = true) others
        /\ (forall c, c ∈ others <->
              c <> str "Name"
              /\ exists row, row ∈ rows /\ c ∈ map fst (row_properties row))
        /\ (forall row k,
              row ∈ rows -> k ∈ map fst (row_dict_of row) ->
              k ∈ str "Name" :: others)
        /\ (forall row c,
              row ∈ rows -> wf_dict (row_properties row) ->
              dict_get c (row_dict_of row)
              = match dict_get c (row_properties row) with
                | Some v => Some v
                | None => if str_eqb (str "Name") c then Some (row_name row) else None
                end)).
Proof.
  split; [reflexivity|]. intros Hne.
  destruct (columns_of_spec rows) as (others & Hcols & Hnd & Hsorted & Hmem).
  exists others. split.
  { unfold _export_database. destruct rows; [done|]. rewrite Hcols. done. }
  split; [done|]. split; [done|]. split; [done|]. split.
  - intros row k Hrow Hk. unfold row_dict_of in Hk.
    apply fold_dict_set_keys in Hk as [Hk|Hk].
    + simpl in Hk. apply elem_of_cons in Hk as [->|Hk]; [apply list_elem_of_here|].
      apply elem_of_nil in Hk. done.
    + destruct (decide (k = str "Name")) as [->|Hne']; [apply list_elem_of_here|].
      apply list_elem_of_further. apply Hmem. split; [done|]. eauto.
  - intros row c _ Hwf. apply row_dict_get. done.
Qed.

Lemma export_database_fields_witness :
  exists others,
    _export_database (_parse_csv two_rows)
    = Some (str "Name" :: others, map row_dict_of (_parse_csv two_rows))
    /\ others = [str "Age"; str "Rank"].
Proof.
  destruct (proj2 (export_database_fields (_parse_csv two_rows)))
    as (others & Hrun & _); [discriminate|].
  exists others. split; [exact Hrun|].
  injection Hrun as Hrun. symmetry. exact Hrun.
Defined.
End Databases.

Section CsvReadBack.
Implicit Types (reader : list (list (pystr * pystr))) (rd : list (pystr * pystr))
  (row : DatabaseRow) (c : pystr).

Lemma parse_csv_elem reader row :
  row ∈ _parse_csv reader ->
  exists rd,
    rd ∈ reader /\ dict_mem (str "Name") rd = true
    /\ row = mkDatabaseRow (default [] (dict_get (str "Name") rd))
               (filter (fun kv => negb (str_eqb (fst kv) (str "Name"))) rd) rd.
Proof.
  induction reader as [|rd reader IH]; cbn [_parse_csv];
    [intros H; apply elem_of_nil in H; done|].
  destruct (dict_mem (str "Name") rd) eqn:E.
  - intros H. apply elem_of_cons in H as [->|H].
    + exists rd. split; [apply list_elem_of_here|done].
    + destruct (IH H) as (rd' & Hin & Hrest). exists rd'.
      split; [apply list_elem_of_further; done|done].
  - intros H. destruct (IH H) as (rd' & Hin & Hrest). exists rd'.
    split; [apply list_elem_of_further; done|done].
Qed.

Lemma parse_csv_raw reader :
  map row_raw_data (_parse_csv reader)
  = filter (fun rd => dict_mem (str "Name") rd = true) reader.
Proof.
  induction reader as [|rd reader IH]; cbn [_parse_csv]; [done|].
  rewrite filter_cons. destruct (dict_mem (str "Name") rd) eqn:E.
  - destruct (decide (true = true)); [|done]. cbn [map row_raw_data]. rewrite IH. done.
  - destruct (decide (false = true)); [done|]. exact IH.
Qed.

Lemma dict_get_without_name rd c :
  dict_get c (filter (fun kv => negb (str_eqb (fst kv) (str "Name"))) rd)
  = if str_eqb (str "Name") c then None else dict_get c rd.
Proof.
  generalize (str "Name"). intros nm.
  induction rd as [|[k v] rd IH]; simpl.
  - destruct (str_eqb nm c); done.
  - rewrite filter_cons. cbn [fst].
    destruct (str_eqb k nm) eqn:Ek; simpl.
    + apply str_eqb_eq in Ek. subst k.
      destruct (decide (Is_true false)) as [H|_]; [done|].
      rewrite IH. destruct (str_eqb nm c); done.
    + destruct (decide (Is_true true)) as [_|H]; [|exfalso; apply H; exact I].
      simpl. rewrite IH. destruct (str_eqb k c) eqn:Ec; [|done].
      apply str_eqb_eq in Ec. subst c.
      destruct (str_eqb nm k) eqn:E; [|done].
      apply str_eqb_eq in E. subst k. rewrite str_eqb_refl in Ek. done.
Qed.

Lemma wf_without_name rd :
  wf_dict rd -> wf_dict (filter (fun kv => negb (str_eqb (fst kv) (str "Name"))) rd).
Proof.
  unfold wf_dict. induction rd as [|[k v] rd IH]; simpl; [done|].
  intros Hnd. apply NoDup_cons in Hnd as [Hk Hnd]. rewrite filter_cons.
  destruct (decide _); [|auto]. simpl. apply NoDup_cons. split; [|auto].
  intros Hin. apply Hk. apply list_elem_of_fmap in Hin as ([k' v'] & -> & Hin).
  apply list_elem_of_filter in Hin as [_ Hin]. apply list_elem_of_fmap.
  exists (k', v'). done.
Qed.

(** X9: [_parse_csv] keeps, in order, the rows that have a "Name" cell
    and drops the others.  For a kept row whose column names are
    distinct, the property keys are the other column names, and the row
    dict [_export_database] gives the CSV writer maps every column name
    to the cell the row had: writing the parsed rows back changes no
    cell. *)
Theorem csv_rows_read_back reader :
  map row_raw_data (_parse_csv reader)
  = filter (fun rd => dict_mem (str "Name") rd = true) reader
  /\ forall row,
       row ∈ _parse_csv reader -> wf_dict (row_raw_data row) ->
       (str "Name" ∉ map fst (row_properties row))
       /\ (forall c, c ∈ map fst (row_properties row) <->
                     c <> str "Name" /\ c ∈ map fst (row_raw_data row))
       /\ forall c, dict_get c (row_dict_of row) = dict_get c (row_raw_data row).
Proof.
  split; [apply parse_csv_raw|].
  intros row Hrow Hwf.
  destruct (parse_csv_elem reader row Hrow) as (rd & _ & Hname & ->).
  cbn [row_raw_data row_properties row_name] in *.
  assert (Hkeys : forall c,
            c ∈ map fst (filter (fun kv => negb (str_eqb (fst kv) (str "Name"))) rd)
            <-> c <> str "Name" /\ c ∈ map fst rd).
  { intros c. rewrite !list_elem_of_fmap. split.
    - intros ([k v] & -> & Hin). apply list_elem_of_filter in Hin as [Hne Hin].
      simpl in *. split; [apply not_name_iff; done|]. exists (k, v). done.
    - intros [Hne ([k v] & -> & Hin)]. exists (k, v). split; [done|].
      apply list_elem_of_filter. split; [apply not_name_iff; done|done]. }
  split; [|split; [exact Hkeys|]].
  - rewrite Hkeys. intros [H _]. done.
  - intros c. rewrite row_dict_get by (apply wf_without_name; done).
    cbn [row_properties row_name]. rewrite dict_get_without_name.
    destruct (str_eqb (str "Name") c) eqn:E; [|destruct (dict_get c rd); done].
    apply str_eqb_eq in E. subst c. unfold dict_mem in Hname.
    destruct (dict_get (str "Name") rd); done.
Qed.

Lemma csv_rows_read_back_witness :
  map row_raw_data (_parse_csv ([(str "Title", str "x")] :: two_rows)) = two_rows
  /\ Forall (fun row => forall c, dict_get c (row_dict_of row) = dict_get c (row_raw_data row))
       (_parse_csv two_rows).
Proof.
  split; [exact (proj1 (csv_rows_read_back ([(str "Title", str "x")] :: two_rows)))|].
  apply Forall_forall. intros row Hrow.
  apply (proj2 (csv_rows_read_back two_rows) row Hrow).
  unfold wf_dict. apply NoDup_ListNoDup.
  apply elem_of_cons in Hrow as [->|Hrow];
    [|apply elem_of_cons in Hrow as [->|Hrow]; [|apply elem_of_nil in Hrow; done]];
    simpl; repeat constructor; simpl; intuition discriminate.
Defined.
End CsvReadBack.

(** ** The hierarchy of [parse_json] in closed form *)

Section SecondPassClosed.
Variable rs : list Resource.
Variable by_id : list (pystr * loc).
Hypothesis by_id_sound :
  forall k q, dict_get k by_id = Some q -> exists r, rs !! q = Some r /\ id r = k.

Lemma set_parent_id_same r : set_parent_id (parent_id r) r = r.
Proof. destruct r. done. Qed.

Lemma set_parent_id_set_children p cs r :
  set_parent_id p (set_children cs r) = set_children cs (set_parent_id p r).
Proof. done. Qed.

Lemma set_children_twice cs cs' r :
  set_children cs (set_children cs' r) = set_children cs r.
Proof. done. Qed.

Lemma heap_after_lookup seen i :
  heap_after rs by_id seen !! i
  = set_children (placed_under rs by_id (Some i) seen) <$> rs !! i.
Proof.
  unfold heap_after.
  apply (list_lookup_imap
           (fun i r => set_children (placed_under rs by_id (Some i) seen) r)).
Qed.

Lemma placed_under_snoc target seen l :
  placed_under rs by_id target (seen ++ [l])
  = placed_under rs by_id target seen
    ++ (if decide ((rs !! l ≫= parent_loc by_id) = target) then [l] else []).
Proof.
  unfold placed_under. rewrite filter_app. f_equal.
Qed.

Lemma parent_loc_Some r q :
  parent_loc by_id r = Some q ->
  has_known_parent r by_id = Some true
  /\ dict_at (parent_id r) by_id = Some q
  /\ exists rq, rs !! q = Some rq /\ parent_id r = JStr (id rq).
Proof.
  unfold parent_loc, has_known_parent.
  destruct (parent_id r) as [| | | |p| |]; try done.
  cbn [truthy in_dict dict_at]. destruct (nonempty p); [|done].
  intros Hq. unfold dict_mem. rewrite Hq. split; [done|]. split; [done|].
  destruct (by_id_sound _ _ Hq) as (rq & Hrq & Hid). exists rq.
  split; [done|]. rewrite Hid. done.
Qed.

Lemma parent_loc_None r :
  parent_loc by_id r = None -> testable (parent_id r) ->
  has_known_parent r by_id = Some false.
Proof.
  unfold parent_loc, has_known_parent, testable.
  destruct (parent_id r) as [|b|z|x|p|[|y ys]|[|kv kvs]]; cbn [truthy in_dict];
    try done.
  - destruct b; done.
  - destruct (negb (Z.eqb z 0)); done.
  - destruct (negb (Z.eqb (Qnum x) 0)); done.
  - destruct (nonempty p); [|done]. intros Hq _. unfold dict_mem. rewrite Hq. done.
Qed.

(** One visit of the second pass. *)
Lemma second_pass_visit seen d l r :
  rs !! l = Some r -> testable (parent_id r) ->
  second_pass [l] by_id (heap_after rs by_id seen, d)
  = Some (heap_after rs by_id (seen ++ [l]),
          with_roots d (placed_under rs by_id None [l])).
Proof.
  intros Hl Htest. cbn [second_pass fst snd].
  rewrite heap_after_lookup, Hl. cbn [fmap option_fmap option_map mbind option_bind].
  change (has_known_parent (set_children ?cs r) by_id) with (has_known_parent r by_id).
  change (parent_id (set_children ?cs r)) with (parent_id r).
  destruct (parent_loc by_id r) as [q|] eqn:Hq.
  - assert (Hpl : rs !! l ≫= parent_loc by_id = Some q) by (rewrite Hl; exact Hq).
    destruct (parent_loc_Some r q Hq) as (Hk & Hat & rq & Hrq & Hpid).
    rewrite Hk. cbn [mbind option_bind]. rewrite Hat.
    cbn [mbind option_bind].
    set (H := heap_after rs by_id seen).
    assert (HHq : H !! q = Some (set_children (placed_under rs by_id (Some q) seen) rq)).
    { unfold H. rewrite heap_after_lookup, Hrq. done. }
    assert (HHl : H !! l = Some (set_children (placed_under rs by_id (Some l) seen) r)).
    { unfold H. rewrite heap_after_lookup, Hl. done. }
    destruct (add_child_lookup H q l _ _ HHq HHl) as (h' & Hadd & _).
    rewrite Hadd. cbn [mbind option_bind].
    destruct (add_child_pointwise H q l h' Hadd) as (rq' & Hrq' & _ & _ & Hpt).
    assert (rq' = set_children (placed_under rs by_id (Some q) seen) rq) by congruence.
    subst rq'. change (id (set_children ?cs rq)) with (id rq) in Hpt.
    f_equal. f_equal.
    + apply list_eq. intros i. rewrite Hpt. unfold H. rewrite !heap_after_lookup.
      destruct (rs !! i) as [ri|] eqn:Hi; [|done].
      cbn [fmap option_fmap option_map]. f_equal.
      rewrite placed_under_snoc, Hpl.
      unfold touched.
      destruct (decide (i = q)) as [Hiq|Hiq]; destruct (decide (i = l)) as [Hil|Hil].
      * subst i. subst q.
        destruct (decide (Some l = Some l)); [|done].
        assert (ri = rq) by congruence. assert (r = rq) by congruence. subst.
        destruct rq. cbn in Hpid |- *. rewrite Hpid. reflexivity.
      * subst i.
        destruct (decide (Some q = Some q)); [|done].
        assert (ri = rq) by congruence. subst. done.
      * subst i.
        destruct (decide (Some q = Some l)) as [Heq|_]; [congruence|].
        assert (ri = r) by congruence. subst. rewrite app_nil_r.
        destruct r. cbn in Hpid |- *. rewrite Hpid. reflexivity.
      * destruct (decide (Some q = Some i)) as [Heq|_]; [congruence|].
        rewrite app_nil_r. done.
    + unfold with_roots, placed_under. rewrite filter_cons, filter_nil, Hpl.
      destruct (decide (Some q = None)); [done|]. rewrite app_nil_r.
      destruct d. done.
  - assert (Hpl : rs !! l ≫= parent_loc by_id = None) by (rewrite Hl; exact Hq).
    rewrite (parent_loc_None r Hq Htest). cbn [mbind option_bind]. f_equal. f_equal.
    + apply list_eq. intros i. rewrite !heap_after_lookup.
      rewrite placed_under_snoc, Hpl.
      destruct (decide (None = Some i)); [done|]. rewrite app_nil_r. done.
    + unfold with_roots, add_resource, placed_under.
      rewrite filter_cons, filter_nil, Hpl.
      destruct (decide (None = None)); [|done]. done.
Qed.
End SecondPassClosed.

Section SecondPassLoop.
Variable rs : list Resource.
Variable by_id : list (pystr * loc).
Hypothesis by_id_sound :
  forall k q, dict_get k by_id = Some q -> exists r, rs !! q = Some r /\ id r = k.

Lemma second_pass_cons l values st :
  second_pass (l :: values) by_id st
  = st' ← second_pass [l] by_id st; second_pass values by_id st'.
Proof.
  cbn [second_pass]. destruct (fst st !! l) as [r|]; [|done].
  cbn [mbind option_bind].
  destruct (has_known_parent r by_id) as [[|]|]; [|done|done].
  cbn [mbind option_bind].
  destruct (dict_at (parent_id r) by_id) as [q|]; [|done].
  cbn [mbind option_bind]. destruct (add_child q l (fst st)); done.
Qed.

Lemma with_roots_app d a b : with_roots (with_roots d a) b = with_roots d (a ++ b).
Proof. unfold with_roots. simpl. rewrite <- app_assoc. done. Qed.

(** The second pass in closed form. *)
Lemma second_pass_closed values : forall seen d,
  (forall l, l ∈ values -> l < length rs) ->
  (forall l r, l ∈ values -> rs !! l = Some r -> testable (parent_id r)) ->
  second_pass values by_id (heap_after rs by_id seen, d)
  = Some (heap_after rs by_id (seen ++ values),
          with_roots d (placed_under rs by_id None values)).
Proof.
  induction values as [|l values IH]; intros seen d Hlt Htest.
  - rewrite app_nil_r. cbn [second_pass]. unfold with_roots, placed_under.
    rewrite filter_nil, app_nil_r. destruct d. done.
  - destruct (lookup_lt_is_Some_2 rs l) as [r Hr].
    { apply Hlt. apply list_elem_of_here. }
    rewrite second_pass_cons.
    rewrite (second_pass_visit rs by_id by_id_sound seen d l r Hr
               (Htest l r (list_elem_of_here _ _) Hr)).
    cbn [mbind option_bind]. rewrite IH.
    + rewrite <- app_assoc. simpl app. rewrite with_roots_app. f_equal. f_equal.
      f_equal. unfold placed_under. rewrite (filter_cons _ l values).
      rewrite filter_cons, filter_nil.
      destruct (decide _); done.
    + intros l' Hl'. apply Hlt. apply list_elem_of_further. done.
    + intros l' r' Hl'. apply Htest. apply list_elem_of_further. done.
Qed.

Lemma heap_after_nil :
  Forall (fun r => children r = []) rs -> heap_after rs by_id [] = rs.
Proof.
  intros Hall. apply list_eq. intros i. rewrite heap_after_lookup.
  destruct (rs !! i) as [r|] eqn:Hr; [|done]. simpl. f_equal.
  rewrite Forall_forall in Hall.
  assert (Hc : children r = []) by (apply Hall; eapply list_elem_of_lookup_2; done).
  unfold placed_under. rewrite filter_nil. rewrite <- Hc. apply set_children_self.
Qed.
End SecondPassLoop.

Section Register.

Lemma register_fresh rs : forall n d,
  NoDup (map fst d ++ map id rs) ->
  register rs n d = d ++ zip (map id rs) (seq n (length rs)).
Proof.
  induction rs as [|r rs IH]; intros n d Hnd; simpl.
  - rewrite app_nil_r. done.
  - assert (Hset : dict_set (id r) n d = d ++ [(id r, n)]).
    { apply NoDup_app in Hnd as (_ & Hdis & _).
      assert (Hnot : id r ∉ map fst d).
      { intros Hin. apply (Hdis _ Hin). simpl. apply list_elem_of_here. }
      clear -Hnot. induction d as [|[k' v'] d IHd]; [done|].
      simpl in *. apply not_elem_of_cons in Hnot as [Hne Hnot].
      destruct (str_eqb k' (id r)) eqn:E; [apply str_eqb_eq in E; congruence|].
      rewrite IHd by done. done. }
    rewrite Hset, IH.
    + rewrite <- app_assoc. done.
    + rewrite map_app. simpl. rewrite <- app_assoc. exact Hnd.
Qed.

Lemma register_values_distinct rs :
  NoDup (map id rs) ->
  dict_values (register rs 0 []) = seq 0 (length rs).
Proof.
  intros Hnd. rewrite register_fresh by done. simpl. unfold dict_values.
  generalize 0. induction rs as [|r rs IH]; intros n; simpl; [done|].
  apply NoDup_cons in Hnd as [_ Hnd]. rewrite IH by done. done.
Qed.
Lemma dict_set_key_list {V} (k : pystr) (v : V) (d : list (pystr * V)) :
  map fst (dict_set k v d)
  = if dict_mem k d then map fst d else map fst d ++ [k].
Proof.
  unfold dict_mem. induction d as [|[k1 v1] d IH]; simpl; [done|].
  destruct (str_eqb k1 k) eqn:E; simpl.
  - apply str_eqb_eq in E. subst. done.
  - rewrite IH. destruct (dict_get k d); done.
Qed.

Lemma dict_lookup_get {V} (d : list (pystr * V)) a k v :
  wf_dict d -> d !! a = Some (k, v) -> dict_get k d = Some v.
Proof.
  unfold wf_dict. revert a. induction d as [|[k1 v1] d IH]; intros a Hnd Ha; [done|].
  simpl in Hnd. apply NoDup_cons in Hnd as [Hk Hnd]. destruct a as [|a]; simpl in *.
  - injection Ha as -> ->. rewrite str_eqb_refl. done.
  - destruct (str_eqb k1 k) eqn:E.
    + apply str_eqb_eq in E. subst k1. destruct Hk.
      apply list_elem_of_lookup_2 with a. rewrite list_lookup_fmap, Ha. done.
    + eapply IH; done.
Qed.

Lemma register_snoc rs r : forall n d,
  register (rs ++ [r]) n d = dict_set (id r) (n + length rs) (register rs n d).
Proof.
  induction rs as [|r0 rs IH]; intros n d; simpl.
  - rewrite Nat.add_0_r. done.
  - rewrite IH. f_equal. lia.
Qed.

(** The keys of [resources_by_id] stand in the order in which the ids
    first occur among the resources. *)
Lemma register_key_order (rs : list Resource) a b ka kb :
  a < b ->
  map fst (register rs 0 []) !! a = Some ka ->
  map fst (register rs 0 []) !! b = Some kb ->
  exists fa r, rs !! fa = Some r /\ id r = ka
    /\ forall fb r', rs !! fb = Some r' -> id r' = kb -> fa < fb.
Proof.
  revert a b ka kb. induction rs as [|r rs IH] using rev_ind; intros a b ka kb Hab Ha Hb.
  - done.
  - rewrite register_snoc, dict_set_key_list in Ha, Hb.
    assert (Hold : forall a b ka kb, a < b ->
              map fst (register rs 0 []) !! a = Some ka ->
              map fst (register rs 0 []) !! b = Some kb ->
              kb <> id r \/ dict_mem (id r) (register rs 0 []) = true ->
              exists fa r0, (rs ++ [r]) !! fa = Some r0 /\ id r0 = ka
                /\ forall fb r', (rs ++ [r]) !! fb = Some r' -> id r' = kb -> fa < fb).
    { clear a b ka kb Hab Ha Hb. intros a b ka kb Hab Ha Hb Hk.
      destruct (IH a b ka kb Hab Ha Hb) as (fa & r0 & Hfa & Hid & Hfirst).
      exists fa, r0. split; [apply lookup_app_l_Some; done|]. split; [done|].
      intros fb r' Hfb Hid'. apply lookup_app_Some in Hfb as [Hfb|[Hlen Hfb]].
      - eapply Hfirst; done.
      - apply lookup_lt_Some in Hfa. lia. }
    destruct (dict_mem (id r) (register rs 0 [])) eqn:Hmem.
    + apply (Hold a b); auto.
    + apply lookup_app_Some in Hb as [Hb|[Hlen Hb]].
      * assert (Ha' : map fst (register rs 0 []) !! a = Some ka).
        { apply lookup_lt_Some in Hb. rewrite lookup_app_l in Ha by lia. done. }
        apply (Hold a b); [done..|]. left. intros ->.
        apply list_elem_of_lookup_2 in Hb. apply dict_get_None_keys in Hb; [done|].
        unfold dict_mem in Hmem. destruct (dict_get (id r) (register rs 0 [])); done.
      * assert (Hkb : kb = id r).
        { apply list_elem_of_lookup_2, list_elem_of_singleton in Hb. done. }
        subst kb.
        assert (Ha' : map fst (register rs 0 []) !! a = Some ka).
        { pose proof (lookup_lt_Some _ _ _ Hb) as Hlt. simpl in Hlt.
          rewrite lookup_app_l in Ha by lia. done. }
        assert (Hin : dict_mem ka (register rs 0 []) = true).
        { unfold dict_mem. destruct (dict_get ka (register rs 0 [])) eqn:Hg; [done|].
          apply dict_get_None_keys in Hg. destruct Hg.
          eapply list_elem_of_lookup_2. done. }
        apply register_mem in Hin as (fa & r0 & Hfa & Hid).
        exists fa, r0. split; [apply lookup_app_l_Some; done|]. split; [done|].
        intros fb r' Hfb Hid'. apply lookup_app_Some in Hfb as [Hfb|[Hlen' Hfb]].
        -- assert (Hin' : dict_mem (id r) (register rs 0 []) = true).
           { apply register_mem. eauto. }
           congruence.
        -- apply lookup_lt_Some in Hfa. lia.
Qed.

(** The second pass visits the resources in the order in which their
    ids first occur. *)
Lemma register_visit_order (rs : list Resource) a b la lb ra rb :
  a < b ->
  dict_values (register rs 0 []) !! a = Some la ->
  dict_values (register rs 0 []) !! b = Some lb ->
  rs !! la = Some ra -> rs !! lb = Some rb ->
  exists fa r, rs !! fa = Some r /\ id r = id ra
    /\ forall fb r', rs !! fb = Some r' -> id r' = id rb -> fa < fb.
Proof.
  intros Hab Ha Hb Hra Hrb.
  assert (Hkey : forall a l r, dict_values (register rs 0 []) !! a = Some l ->
            rs !! l = Some r -> map fst (register rs 0 []) !! a = Some (id r)).
  { clear. intros a l r Ha Hr. unfold dict_values in Ha.
    rewrite list_lookup_fmap in Ha. rewrite list_lookup_fmap.
    destruct (register rs 0 [] !! a) as [[k v]|] eqn:E; [|done].
    simpl in Ha. injection Ha as ->. simpl. f_equal.
    apply dict_lookup_get in E; [|apply register_wf; apply NoDup_nil; done].
    apply register_sound in E as (r' & Hr' & Hid & _). congruence. }
  apply (register_key_order rs a b); eauto.
Qed.
End Register.

Section ParseJsonClosed.
Variable py_str : json -> pystr.

(** The dictionary of the first pass holds, under an [id], the last
    resource with that [id]; its values are these resources, each
    once. *)
Lemma register_last_of_id (rs : list Resource) :
  (forall k q,
     dict_get k (register rs 0 []) = Some q <->
     exists r, rs !! q = Some r /\ id r = k
       /\ forall j r', q < j -> rs !! j = Some r' -> id r' <> k)
  /\ NoDup (dict_values (register rs 0 []))
  /\ forall l,
       l ∈ dict_values (register rs 0 []) <->
       exists r, rs !! l = Some r
         /\ forall j r', l < j -> rs !! j = Some r' -> id r' <> id r.
Proof.
  assert (Hget : forall k q,
            dict_get k (register rs 0 []) = Some q <->
            exists r, rs !! q = Some r /\ id r = k
              /\ forall j r', q < j -> rs !! j = Some r' -> id r' <> k).
  { intros k q. split.
    - apply register_sound.
    - intros (r & Hr & <- & Hlast). apply register_last; done. }
  split; [exact Hget|]. split.
  - apply register_values; [apply NoDup_nil; done|].
    intros v Hv. apply elem_of_nil in Hv. done.
  - intros l. split.
    + intros Hl.
      apply dict_values_in_get in Hl as [k Hk];
        [|apply register_wf; apply NoDup_nil; done].
      apply Hget in Hk as (r & Hr & <- & Hlast). eauto.
    + intros (r & Hr & Hlast). eapply dict_get_Some_in.
      apply Hget. exists r. done.
Qed.

(** X10: the hierarchy [parse_json] returns, in terms of the resources
    [rs] the first pass parses from the records, one per record in
    order.  The dictionary [resources_by_id] holds under an id the last
    resource with that id, and the second pass visits its values: the
    last resource of every id, each once, in the order in which the ids
    first occur (all resources, in record order, when the ids are
    pairwise distinct).  A resource names a
    parent when its [parent_id] is a non-empty string under which the
    dictionary holds a resource.  The roots are the visited resources
    that name no parent, in the order of the visit; the object of
    record [i] is the resource parsed from it, its [children] being the
    visited resources that name [i], in the order of the visit. *)
Theorem parse_json_closed_form (fuel : nat) (lk_data : lk_export)
    (h : heap) (d : ConversionData) :
  parse_json py_str fuel lk_data = Ok (h, d) ->
  exists rs,
    Forall2 (fun rec r => _parse_resource py_str fuel rec = Ok r)
      (default [] (e_resources lk_data)) rs
    /\ length h = length rs
    /\ resources d
       = placed_under rs (register rs 0 []) None (dict_values (register rs 0 []))
    /\ (forall i r,
          rs !! i = Some r ->
          h !! i = Some (set_children
                           (placed_under rs (register rs 0 []) (Some i)
                              (dict_values (register rs 0 []))) r))
    /\ (NoDup (map id rs) -> dict_values (register rs 0 []) = seq 0 (length rs))
    /\ (forall k q,
          dict_get k (register rs 0 []) = Some q <->
          exists r, rs !! q = Some r /\ id r = k
            /\ forall j r', q < j -> rs !! j = Some r' -> id r' <> k)
    /\ NoDup (dict_values (register rs 0 []))
    /\ (forall l,
          l ∈ dict_values (register rs 0 []) <->
          exists r, rs !! l = Some r
            /\ forall j r', l < j -> rs !! j = Some r' -> id r' <> id r)
    /\ (forall a b la lb ra rb,
          a < b ->
          dict_values (register rs 0 []) !! a = Some la ->
          dict_values (register rs 0 []) !! b = Some lb ->
          rs !! la = Some ra -> rs !! lb = Some rb ->
          exists fa r, rs !! fa = Some r /\ id r = id ra
            /\ forall fb r', rs !! fb = Some r' -> id r' = id rb -> fa < fb).
Proof.
  intros Hrun.
  destruct (parse_json_inv py_str fuel lk_data h d Hrun) as (rs0 & Hrs0 & Hinv).
  revert Hrun. unfold parse_json.
  destruct (first_pass py_str fuel (default [] (e_resources lk_data)) ([], []))
    as [[h0 by_id]| |] eqn:Hfp; simpl; try discriminate.
  apply first_pass_spec in Hfp as (rs & Hrs & -> & ->). simpl.
  assert (rs0 = rs).
  { clear -Hrs0 Hrs. revert rs Hrs.
    induction Hrs0 as [|rec r0 recs rs0 H0 _ IH]; intros rs Hrs.
    - apply Forall2_nil_inv_l in Hrs. done.
    - apply Forall2_cons_inv_l in Hrs as (r & rs' & Hr & Hrs & ->).
      f_equal; [congruence|apply IH; done]. }
  subst rs0.
  intros Hsp. exists rs. split; [done|].
  assert (Hsound : forall k q, dict_get k (register rs 0 []) = Some q ->
                     exists r, rs !! q = Some r /\ id r = k).
  { intros k q Hq. apply register_sound in Hq as (r & ? & ? & _). eauto. }
  destruct (register_values rs 0 []) as [_ Hlt];
    [apply NoDup_nil; done|intros v Hv; apply elem_of_nil in Hv; done|].
  assert (Htest : forall l r, l ∈ dict_values (register rs 0 []) ->
                    rs !! l = Some r -> testable (parent_id r)).
  { intros l r Hl Hr.
    destruct Hinv as (_ & _ & _ & _ & _ & _ & _ & _ & Hpl).
    specialize (Hpl l Hl r Hr).
    destruct (testable_dec (parent_id r)) as [Ht|Ht]; [done|].
    apply (has_known_parent_None (register rs 0 [])) in Ht.
    rewrite Ht in Hpl. destruct Hpl. }
  pose proof (second_pass_closed rs (register rs 0 []) Hsound
                (dict_values (register rs 0 [])) []) as Hclosed.
  rewrite heap_after_nil in Hclosed by (eapply parsed_no_children; eauto).
  rewrite Hclosed in Hsp;
    [|intros l Hl; apply Hlt in Hl; simpl in Hl; exact Hl|exact Htest].
  simpl in Hsp. injection Hsp as <- <-.
  split; [unfold heap_after; apply length_imap|].
  split; [reflexivity|]. split; [|split].
  - intros i r Hr. rewrite heap_after_lookup, Hr. done.
  - apply register_values_distinct.
  - pose proof (register_last_of_id rs) as (Hget & Hnd & Hval).
    split; [exact Hget|]. split; [exact Hnd|]. split; [exact Hval|].
    apply register_visit_order.
Qed.
End ParseJsonClosed.

Lemma parse_json_closed_form_witness :
  exists h d ra,
    parse_json no_str 1 four_records = Ok (h, d)
    /\ resources d = [0; 2]
    /\ h !! 0 = Some ra /\ children ra = [1; 3].
Proof.
  destruct (parse_json_total no_str 1 four_records) as (h & d & Hrun).
  { repeat constructor; eexists; reflexivity. }
  { repeat constructor. }
  destruct (parse_json_closed_form no_str 1 four_records h d Hrun)
    as (rs & Hrs & _ & Hroots & Hkids & _).
  assert (Hrs' : rs = [new_resource (str "a") (str "a") JNull [];
                       new_resource (str "b") (str "b") (JStr (str "a")) [];
                       new_resource (str "c") (str "c") JNull [];
                       new_resource (str "d") (str "d") (JStr (str "a")) []]).
  { simpl in Hrs. repeat match goal with
      | H : Forall2 _ (_ :: _) _ |- _ => inversion H; subst; clear H
      | H : Forall2 _ [] _ |- _ => inversion H; subst; clear H
      | H : _parse_resource _ _ _ = Ok _ |- _ => vm_compute in H; injection H as <-
      end. reflexivity. }
  subst rs. exists h, d. eexists. split; [exact Hrun|].
  split; [rewrite Hroots; vm_compute; reflexivity|].
  split; [exact (Hkids 0 _ eq_refl)|vm_compute; reflexivity].
Defined.

(** ** Documents with a name *)

Section NamedDocuments.
Variable py_str : json -> pystr.

Lemma render_nonempty (b : md_block) : render b <> [].
Proof.
  destruct b; cbn [render]; intros H; try discriminate H;
    apply app_eq_nil in H as [_ H]; try discriminate H.
Qed.

Lemma concat_render_nil (bs : list md_block) : concat (map render bs) = [] -> bs = [].
Proof.
  destruct bs as [|b bs]; [done|]. simpl. intros H.
  apply app_eq_nil in H as [H _]. destruct (render_nonempty b H).
Qed.

Lemma md_loop_title (n : pystr) (rest : list pystr) :
  md_loop (("#"%char :: " "%char :: n) :: rest) = heading_node 1 (strip n) :: md_loop rest.
Proof.
  rewrite md_loop_heading by done.
  cbn [lstrip_char]. change (ch_eqb "#" "#") with true.
  change (ch_eqb " " "#") with false. cbv iota.
  rewrite strip_cons_ws by done. cbn [length].
  replace (S (S (length n)) - S (length n)) with 1 by lia. done.
Qed.

(** X11: the document [_content_to_document] builds for a content and a
    name, read back by [_extract_content_from_documents] (recursion bound
    3 or more): for the name "Main" or an empty name the text parses to
    the node list of the content; for any other name without line feed
    it parses to a level-1 heading with the stripped name followed by
    the node list of the content. *)
Theorem named_document_read_back (st : doc_stamp) (content n : pystr) (fuel : nat) :
  nl ∉ n ->
  exists out,
    _extract_content_from_documents py_str (S (S (S fuel)))
      (JArr [_content_to_document st content n]) = Ok out
    /\ _markdown_to_prosemirror out
       = (if nonempty n && negb (str_eqb n (str "Main"))
          then [heading_node 1 (strip n)] else [])
         ++ _markdown_to_prosemirror content.
Proof.
  intros Hn.
  destruct (md_loop_parsed (split_nl content) (split_nl_no_nl content))
    as (bs & Hbs & Hp).
  assert (Hcontent : _markdown_to_prosemirror content = map node_of bs) by exact Hbs.
  assert (Hback : _markdown_to_prosemirror (concat (map render bs)) = map node_of bs)
    by (apply reparse_parsed_blocks; done).
  unfold _extract_content_from_documents, _content_to_document.
  cbn [iter mbind res_bind documents_loop].
  cbn -[_process_nodes _markdown_to_prosemirror nonempty join eq_str truthy fmt strip].
  rewrite Hcontent, process_blocks. cbn [mbind res_bind]. 
  change (eq_str (JStr n) "Main") with (str_eqb n (str "Main")).
  change (truthy (JStr n)) with (nonempty n).
  change (fmt py_str (JStr n)) with n.
  change ["M"%char; "a"%char; "i"%char; "n"%char] with (str "Main").
  assert (Htitle : nl ∉ "#"%char :: " "%char :: n).
  { apply not_elem_of_cons. split; [done|].
    apply not_elem_of_cons. split; [done|]. done. }
  destruct (nonempty n && negb (str_eqb n (str "Main"))) eqn:Hname.
  - destruct (concat (map render bs)) as [|c text] eqn:Htext.
    + apply concat_render_nil in Htext. subst bs.
      eexists. split; [reflexivity|]. cbn [app nonempty join map].
      unfold _markdown_to_prosemirror.
      change ("#"%char :: " "%char :: n ++ [nl])
        with (("#"%char :: " "%char :: n) ++ nl :: []).
      rewrite (split_nl_line _ _ Htitle).
      rewrite md_loop_title. reflexivity.
    + eexists. split; [reflexivity|]. cbn [app nonempty].
      unfold _markdown_to_prosemirror in *.
      assert (Hj : join [nl; nl] ["#"%char :: " "%char :: n ++ [nl]; c :: text]
                   = ("#"%char :: " "%char :: n) ++ nl :: [] ++ nl :: [] ++ nl :: c :: text).
      { cbn [join app]. rewrite <- !app_assoc. reflexivity. }
      rewrite Hj. rewrite (split_nl_line _ _ Htitle).
      rewrite !(split_nl_line []) by apply not_elem_of_nil.
      rewrite md_loop_title. rewrite !md_loop_blank by done.
      rewrite Hback. reflexivity.
  - destruct (concat (map render bs)) as [|c text] eqn:Htext.
    + apply concat_render_nil in Htext. subst bs.
      eexists. split; [reflexivity|]. reflexivity.
    + eexists. split; [reflexivity|]. cbn [app nonempty join].
      rewrite Hback. reflexivity.
Qed.
End NamedDocuments.

Lemma named_document_read_back_witness :
  exists out,
    _extract_content_from_documents no_str 3
      (JArr [_content_to_document noon (str "* item") (str "Notes")]) = Ok out
    /\ _markdown_to_prosemirror out
       = [heading_node 1 (str "Notes"); bullet_node (str "item")].
Proof.
  destruct (named_document_read_back no_str noon (str "* item") (str "Notes") 0)
    as (out & Hrun & Hback).
  - intros H. vm_compute in H.
    repeat (apply elem_of_cons in H as [H|H]; [discriminate H|]).
    apply elem_of_nil in H. exact H.
  - exists out. split; [exact Hrun|]. rewrite Hback. reflexivity.
Defined.

(** ** Node lists of the schema are serialized *)

Section SchemaNodes.
Variable py_str : json -> pystr.

Lemma field_get k ok kvs v :
  field k ok kvs = true -> dict_get (str k) kvs = Some v -> ok v = true.
Proof.
  induction kvs as [|[k' x] kvs IH]; cbn [field forallb dict_get]; [done|].
  intros H Hg. apply andb_true_iff in H as [Hx H].
  destruct (str_eqb k' (str k)); [congruence|]. apply IH; done.
Qed.

Lemma depth_value k kvs v :
  dict_get k kvs = Some v -> depth v < depth (JObj kvs).
Proof.
  cbn [depth]. unfold list_max.
  induction kvs as [|[k' x] kvs IH]; cbn [dict_get map fold_right]; [done|].
  destruct (str_eqb k' k); intros H.
  - injection H as ->. lia.
  - specialize (IH H). lia.
Qed.

Lemma depth_elem node l : node ∈ l -> depth node < depth (JArr l).
Proof.
  cbn [depth]. unfold list_max.
  induction 1 as [x l|x y l _ IH]; cbn [map fold_right] in *; lia.
Qed.

Lemma node_text kvs :
  node_ok (JObj kvs) = true ->
  exists s, dict_get_default (str "text") (JStr []) kvs = JStr s.
Proof.
  cbn [node_ok]. rewrite !andb_true_iff. intros [[[Ht _] _] _].
  unfold dict_get_default. destruct (dict_get (str "text") kvs) as [v|] eqn:E; [|eauto].
  pose proof (field_get _ _ _ _ Ht E) as Hv. destruct v; try discriminate Hv. eauto.
Qed.

Lemma node_marks kvs :
  node_ok (JObj kvs) = true ->
  exists ms, dict_get_default (str "marks") (JArr []) kvs = JArr ms
             /\ forallb mark_ok ms = true.
Proof.
  cbn [node_ok]. rewrite !andb_true_iff. intros [[[_ Hm] _] _].
  unfold dict_get_default. destruct (dict_get (str "marks") kvs) as [v|] eqn:E;
    [|exists []; done].
  pose proof (field_get _ _ _ _ Hm E) as Hv. destruct v; try discriminate Hv. eauto.
Qed.

Lemma node_level kvs :
  node_ok (JObj kvs) = true ->
  exists a z, dict_get_default (str "attrs") (JObj []) kvs = JObj a
              /\ dict_get_default (str "level") (JInt 1) a = JInt z
              /\ (z <= 6)%Z.
Proof.
  cbn [node_ok]. rewrite !andb_true_iff. intros [[[_ _] Ha] _].
  unfold dict_get_default at 1.
  destruct (dict_get (str "attrs") kvs) as [v|] eqn:E; [|exists [], 1%Z; done].
  pose proof (field_get _ _ _ _ Ha E) as Hv. destruct v; try discriminate Hv.
  exists kvs0. cbn [attrs_ok] in Hv. unfold dict_get_default.
  destruct (dict_get (str "level") kvs0) as [x|] eqn:E'; [|exists 1%Z; done].
  pose proof (field_get _ _ _ _ Hv E') as Hx. destruct x; try discriminate Hx.
  cbn [is_level] in Hx. apply Z.leb_le in Hx. eauto.
Qed.

Lemma node_content kvs :
  node_ok (JObj kvs) = true ->
  exists l, dict_get_default (str "content") (JArr []) kvs = JArr l
            /\ nodes_ok (JArr l) = true /\ depth (JArr l) <= depth (JObj kvs).
Proof.
  cbn [node_ok]. rewrite !andb_true_iff. intros [_ Hc].
  unfold dict_get_default.
  destruct (dict_get (str "content") kvs) as [v|] eqn:E.
  - pose proof (depth_value _ _ _ E) as Hd.
    assert (Hv : match v with JArr l => forallb node_ok l | _ => false end = true).
    { clear Hd. induction kvs as [|[k' x] kvs IH]; [done|].
      cbn [forallb dict_get] in Hc, E. apply andb_true_iff in Hc as [Hx Hc].
      destruct (str_eqb k' (str "content")); [injection E as <-; exact Hx|].
      apply IH; done. }
    destruct v; try discriminate Hv. exists l. split; [done|]. split; [done|]. apply Nat.lt_le_incl. exact Hd.
  - exists []. split; [done|]. split; [done|]. simpl. lia.
Qed.

Lemma apply_marks_ok ms : forall s,
  forallb mark_ok ms = true -> exists s', apply_marks py_str ms (JStr s) = Ok (JStr s').
Proof.
  induction ms as [|mark ms IH]; intros s H; cbn [apply_marks]; [eauto|].
  cbn [forallb] in H. apply andb_true_iff in H as [Hm H].
  destruct mark as [| | | | | |m]; try discriminate Hm.
  cbn [get mbind res_bind].
  destruct (eq_str _ "strong"); [cbn [mbind res_bind]; apply IH; done|].
  destruct (eq_str _ "em"); [cbn [mbind res_bind]; apply IH; done|].
  destruct (eq_str _ "code"); [cbn [mbind res_bind]; apply IH; done|].
  destruct (eq_str _ "link"); [|cbn [mbind res_bind]; apply IH; done].
  assert (Ha : exists a, dict_get_default (str "attrs") (JObj []) m = JObj a).
  { unfold dict_get_default. destruct (dict_get (str "attrs") m) as [v|] eqn:E; [|eauto].
    pose proof (field_get _ _ _ _ Hm E) as Hv. destruct v; try discriminate Hv. eauto. }
  destruct Ha as [a ->]. cbn [get mbind res_bind]. apply IH; done.
Qed.

Lemma strs_snoc parts s : strs parts -> strs (parts ++ [JStr s]).
Proof. intros H. apply Forall_app. split; [done|]. repeat constructor. Qed.

Lemma join_parts_ok parts : strs parts -> exists s, join_parts parts = Ok s.
Proof.
  induction 1 as [|p parts Hp _ [s IH]]; cbn [join_parts]; [eauto|].
  destruct p; try discriminate Hp. rewrite IH. cbn [mbind res_bind]. eauto.
Qed.

Section Loops.
Variable recur : json -> res pystr.
Variable n : nat.
Hypothesis recur_ok :
  forall j, nodes_ok j = true -> depth j <= n -> exists s, recur j = Ok s.

Lemma recur_content kvs :
  node_ok (JObj kvs) = true -> depth (JObj kvs) <= n ->
  exists l s, dict_get_default (str "content") (JArr []) kvs = JArr l
              /\ recur (JArr l) = Ok s.
Proof.
  intros H Hd. destruct (node_content kvs H) as (l & E & Hl & Hdl).
  destruct (recur_ok (JArr l) Hl) as [s Hs]; [lia|]. eauto.
Qed.

Lemma items_loop_ok ty items : forall parts,
  forallb node_ok items = true -> Forall (fun x => depth x <= n) items ->
  strs parts ->
  exists parts', items_loop recur ty items parts = Ok parts' /\ strs parts'.
Proof.
  induction items as [|item items IH]; intros parts H Hd Hp; cbn [items_loop]; [eauto|].
  cbn [forallb] in H. apply andb_true_iff in H as [Hi H].
  apply Forall_cons in Hd as [Hdi Hd].
  destruct item as [| | | | | |kvs]; try discriminate Hi.
  destruct (recur_content kvs Hi Hdi) as (l & s & Hc & Hs).
  cbn [get mbind res_bind]. rewrite Hc, Hs. cbn [mbind res_bind].
  apply IH; [done|done|]. apply strs_snoc. done.
Qed.

Lemma nodes_loop_ok ns : forall parts,
  forallb node_ok ns = true -> Forall (fun x => depth x <= n) ns ->
  strs parts ->
  exists parts', nodes_loop py_str recur ns parts = Ok parts' /\ strs parts'.
Proof.
  induction ns as [|node ns IH]; intros parts H Hd Hp; cbn [nodes_loop]; [eauto|].
  cbn [forallb] in H. apply andb_true_iff in H as [Hi H].
  apply Forall_cons in Hd as [Hdi Hd].
  destruct node as [| | | | | |kvs]; try discriminate Hi.
  cbn [is_dict negb get mbind res_bind].
  destruct (recur_content kvs Hi Hdi) as (l & s & Hc & Hs).
  destruct (node_text kvs Hi) as [t Ht].
  destruct (node_marks kvs Hi) as (ms & Hms & Hmarks).
  destruct (node_level kvs Hi) as (a & z & Ha & Hz & Hz6).
  destruct (node_content kvs Hi) as (l' & Hc' & Hl & Hdl).
  rewrite Hc in Hc'. injection Hc' as <-.
  rewrite ?Hc, ?Ht, ?Hms, ?Ha.
  destruct (eq_str _ "text").
  { cbn [iter mbind res_bind].
    destruct (apply_marks_ok ms t Hmarks) as [t' ->]. cbn [mbind res_bind].
    apply IH; [done|done|apply strs_snoc; done]. }
  destruct (eq_str _ "paragraph").
  { rewrite Hs. cbn [mbind res_bind]. apply IH; [done|done|apply strs_snoc; done]. }
  destruct (eq_str _ "heading").
  { cbn [get mbind res_bind]. rewrite Hz, Hs. cbn [str_times mbind res_bind].
    assert (Hfit : (z <=? max_index)%Z = true)
      by (apply Z.leb_le; unfold max_index; lia).
    rewrite Hfit. cbn [mbind res_bind].
    apply IH; [done|done|apply strs_snoc; done]. }
  destruct (eq_str _ "bulletList" || eq_str _ "orderedList").
  { cbn [iter mbind res_bind].
    destruct (items_loop_ok (dict_get_default (str "type") (JStr []) kvs) l parts)
      as (parts' & -> & Hp'); [done| |done|].
    - apply Forall_forall. intros x Hx. apply depth_elem in Hx. lia.
    - cbn [mbind res_bind]. apply IH; done. }
  destruct (eq_str _ "listItem").
  { rewrite Hs. cbn [mbind res_bind]. apply IH; [done|done|apply strs_snoc; done]. }
  destruct (eq_str _ "codeBlock").
  { rewrite Hs. cbn [mbind res_bind]. apply IH; [done|done|apply strs_snoc; done]. }
  destruct (eq_str _ "blockquote").
  { rewrite Hs. cbn [mbind res_bind]. apply IH; [done|done|apply strs_snoc; done]. }
  destruct (eq_str _ "rule").
  { apply IH; [done|done|apply strs_snoc; done]. }
  destruct (eq_str _ "mention").
  { cbn [get mbind res_bind]. apply IH; [done|done|apply strs_snoc; done]. }
  destruct (eq_str _ "image").
  { cbn [get mbind res_bind]. apply IH; [done|done|apply strs_snoc; done]. }
  destruct (truthy (JArr l)).
  - rewrite Hs. cbn [mbind res_bind]. apply IH; [done|done|apply strs_snoc; done].
  - apply IH; done.
Qed.
End Loops.

Lemma process_nodes_ok fuel : forall nodes,
  nodes_ok nodes = true -> depth nodes <= fuel ->
  exists s, _process_nodes py_str fuel nodes = Ok s.
Proof.
  induction fuel as [|fuel IH]; intros nodes H Hd.
  - destruct nodes; try discriminate H. cbn [depth] in Hd. lia.
  - destruct nodes as [| | | | |l|]; try discriminate H.
    cbn [_process_nodes iter mbind res_bind].
    destruct (nodes_loop_ok (_process_nodes py_str fuel) fuel IH l [])
      as (parts & -> & Hp); [done| |constructor|].
    + apply Forall_forall. intros x Hx. apply depth_elem in Hx. lia.
    + cbn [mbind res_bind]. apply join_parts_ok. done.
Qed.

Section Stable.
Variables recur recur' : json -> res pystr.
Hypothesis recur_stable : forall j s, recur j = Ok s -> recur' j = Ok s.

Ltac bind_step H :=
  match type of H with
  | (recur ?x ≫= _) = Ok _ =>
      let E := fresh "E" in
      destruct (recur x) eqn:E; cbn [mbind res_bind] in H; try discriminate H;
      rewrite (recur_stable _ _ E); cbn [mbind res_bind]
  | (?r ≫= _) = Ok _ =>
      destruct r; cbn [mbind res_bind] in H |- *; try discriminate H
  end.

Lemma items_loop_stable ty items : forall parts out,
  items_loop recur ty items parts = Ok out ->
  items_loop recur' ty items parts = Ok out.
Proof.
  induction items as [|item items IH]; intros parts out H; cbn [items_loop] in *; [done|].
  bind_step H. bind_step H. apply IH. exact H.
Qed.

Lemma nodes_loop_stable ns : forall parts out,
  nodes_loop py_str recur ns parts = Ok out ->
  nodes_loop py_str recur' ns parts = Ok out.
Proof.
  induction ns as [|node ns IH]; intros parts out H; cbn [nodes_loop] in *; [done|].
  destruct (negb (is_dict node)); [apply IH; exact H|].
  bind_step H.
  repeat first
      [ match type of H with
        | (if ?c then _ else _) = Ok _ => destruct c
        end
      | match type of H with
        | (items_loop recur ?t ?i ?p ≫= _) = Ok _ =>
            let E := fresh "E" in
            destruct (items_loop recur t i p) eqn:E;
            cbn [mbind res_bind] in H; try discriminate H;
            rewrite (items_loop_stable _ _ _ _ E); cbn [mbind res_bind]
        end
      | bind_step H ];
    apply IH; exact H.
Qed.
End Stable.

Lemma process_nodes_stable fuel : forall fuel' nodes s,
  fuel <= fuel' -> _process_nodes py_str fuel nodes = Ok s ->
  _process_nodes py_str fuel' nodes = Ok s.
Proof.
  induction fuel as [|fuel IH]; intros fuel' nodes s Hle H; [discriminate H|].
  destruct fuel' as [|fuel']; [lia|].
  cbn [_process_nodes] in *.
  destruct (iter nodes) as [ns| |]; cbn [mbind res_bind] in H |- *; try discriminate H.
  destruct (nodes_loop py_str (_process_nodes py_str fuel) ns []) as [parts| |] eqn:E;
    cbn [mbind res_bind] in H; try discriminate H.
  rewrite (nodes_loop_stable (_process_nodes py_str fuel) (_process_nodes py_str fuel')
             (fun j t => IH fuel' j t ltac:(lia)) _ _ _ E).
  exact H.
Qed.
(** X12: a node list that follows the document schema (every node an
    object whose [text] is a string, whose [marks] is a list of objects
    with an object as [attrs], whose [attrs] is an object with an [int]
    of at most 6 as [level], and whose [content] is again such a list)
    is serialized:
    [_process_nodes] returns one string, the same for every recursion
    bound from the nesting depth of the list on; it raises nothing. *)
Theorem schema_nodes_serialized (nodes : json) :
  nodes_ok nodes = true ->
  exists s, forall fuel, depth nodes <= fuel -> _process_nodes py_str fuel nodes = Ok s.
Proof.
  intros H.
  destruct (process_nodes_ok (depth nodes) nodes H (le_n _)) as [s Hs].
  exists s. intros fuel Hle. apply (process_nodes_stable (depth nodes)); done.
Qed.
End SchemaNodes.

Lemma schema_nodes_serialized_witness :
  nodes_ok numbered = true
  /\ exists s, forall fuel,
       depth numbered <= fuel -> _process_nodes no_str fuel numbered = Ok s.
Proof.
  split; [reflexivity|].
  apply (schema_nodes_serialized no_str numbered). reflexivity.
Defined.

(** ** A laid-out text, parsed and serialized *)

Section LaidOut.
Implicit Types (line l t : pystr) (rest ls : list pystr) (b : md_block).


















(** *** The serialized text as a layout *)









End LaidOut.

Section LaidOutClaims.
Variable py_str : json -> pystr.

End LaidOutClaims.

